(** * Microbioma Digital: the event-dispatch / worker-pool / pooled-storage core

  A shallow embedding of the JavaScript sources of the pipeline
  (EventBus, MemoryPool, DatabaseManagerOptimized, StreamProcessor,
  PatternDetector, ConversationAnalyzer), the properties their
  specification states about them, and further properties of the code
  itself: invariants of its runs, edge cases and round trips.

  Conventions of the embedding:
  - a JavaScript string is the list of its UTF-16 code units;
  - a JavaScript number is a binary64 float ([PrimFloat.float]) wherever
    the source divides, compares against a fractional constant or calls
    [Math.random]; counters that only ever hold small integers are [nat]
    or [Z];
  - an object used as a dictionary is the list of its own properties in
    creation order, read through the names it inherits from
    [Object.prototype]; a [Map] that the embedded code never iterates is
    a [gmap], a [Set] that it only tests for membership a [gset];
  - code that is suspended at an [await] or waits for a timer or a
    worker message is a labelled transition system whose labels are the
    points at which the event loop may run it;
  - a call that may throw after it has changed the state gives its
    caller a value or the exception, together with the state it
    leaves. *)

From Stdlib Require Import ZArith NArith List String Ascii Bool Lia.
From Stdlib Require Import Permutation Sorted.
From Stdlib Require Import PrimFloat Uint63.
From stdpp Require Import base option gmap.
Import ListNotations.

Set Warnings "-inexact-float,-clear-no-such-hyp".
Local Open Scope Z_scope.

(** ** JavaScript values shared by all components *)

Module Js.

(** A string: its UTF-16 code units, each a number below 2^16. *)
Definition jsstring : Type := list N.

(** A source literal made of ASCII characters only. *)
Definition lit (s : string) : jsstring :=
  List.map N_of_ascii (list_ascii_of_string s).

Fixpoint starts_with (s needle : jsstring) : bool :=
  match needle, s with
  | [], _ => true
  | _ :: _, [] => false
  | a :: needle', b :: s' => N.eqb a b && starts_with s' needle'
  end.

(** [String.prototype.includes]: the needle occurs at some index. *)
Fixpoint includes (s needle : jsstring) : bool :=
  starts_with s needle
  || match s with
     | [] => false
     | _ :: s' => includes s' needle
     end.

(** [String.prototype.toLowerCase], code unit by code unit: A-Z, the
    Latin-1 capitals U+00C0..U+00DE (not the multiplication sign), and
    the five code units from U+0100 on whose lower case has a code unit
    below U+0100: the dotted capital I (U+0130, two code units), the
    capital Y with diaeresis (U+0178), the capital sharp S (U+1E9E),
    the Kelvin sign (U+212A) and the Angstrom sign (U+212B). Every
    other code unit from U+0100 on is left as it is: where it, or the
    surrogate pair it belongs to, has a lower case, that has as many
    code units, all from U+0100 on. *)
Definition lower_unit (c : N) : jsstring :=
  if ((65 <=? c) && (c <=? 90))%N then [(c + 32)%N]
  else if ((192 <=? c) && (c <=? 222) && negb (c =? 215))%N then [(c + 32)%N]
  else if (c =? 304)%N then [105; 775]%N
  else if (c =? 376)%N then [255]%N
  else if (c =? 7838)%N then [223]%N
  else if (c =? 8490)%N then [107]%N
  else if (c =? 8491)%N then [229]%N
  else [c].

Definition toLowerCase (s : jsstring) : jsstring := flat_map lower_unit s.

(** The class [\s] of ECMAScript regular expressions. *)
Definition is_whitespace (c : N) : bool :=
  (((9 <=? c) && (c <=? 13)) || (c =? 32) || (c =? 160) || (c =? 5760)
   || ((8192 <=? c) && (c <=? 8202)) || (c =? 8232) || (c =? 8233)
   || (c =? 8239) || (c =? 8287) || (c =? 12288) || (c =? 65279))%N.

(** [s.split(/\s+/)]: [cur] is the token being read, reversed; [in_ws]
    says that the previous code unit was white space. *)
Fixpoint split_go (cur : jsstring) (in_ws : bool) (s : jsstring)
  : list jsstring :=
  match s with
  | [] => [rev cur]
  | c :: s' =>
      if is_whitespace c then
        if in_ws then split_go cur true s'
        else rev cur :: split_go [] true s'
      else split_go (c :: cur) false s'
  end.

Definition split_whitespace (s : jsstring) : list jsstring :=
  split_go [] false s.

(** [Array.prototype.join]. *)
Fixpoint join (sep : jsstring) (l : list jsstring) : jsstring :=
  match l with
  | [] => []
  | [x] => x
  | x :: l' => x ++ sep ++ join sep l'
  end.

(** Decimal digits of a natural number, as [String(n)] prints them.
    [fuel] bounds the number of digits. *)
Fixpoint digits_go (fuel : nat) (n : N) (acc : jsstring) : jsstring :=
  match fuel with
  | O => acc
  | S fuel' =>
      let acc' := (48 + n mod 10)%N :: acc in
      if (n / 10 =? 0)%N then acc' else digits_go fuel' (n / 10)%N acc'
  end.

Definition of_nat_string (n : nat) : jsstring :=
  digits_go (S n) (N.of_nat n) [].

(** [new Set(array)], as the list of its elements in iteration order: the
    distinct elements in order of first occurrence. *)
Definition new_Set {A : Type} `{EqDecision A} (l : list A) : list A :=
  fold_left (fun acc x => if bool_decide (x ∈ acc) then acc else acc ++ [x])
            l [].

(** The number that holds a (small) non-negative integer. *)
Definition num (n : nat) : float :=
  PrimFloat.of_uint63 (Uint63.of_Z (Z.of_nat n)).

Section Sort.
Context {A : Type}.
(** [positive a b] says that the comparator returned a number greater
    than zero on [(a, b)], that is, [b] has to come before [a]. *)
Variable positive : A -> A -> bool.

Fixpoint insert_sorted (x : A) (l : list A) : list A :=
  match l with
  | [] => [x]
  | y :: l' => if positive x y then y :: insert_sorted x l' else x :: l
  end.

(** [Array.prototype.sort(comparator)]. The sort is stable, and for a
    comparator that is a consistent ordering its result is determined
    by that: it is the list this insertion sort computes. For a
    comparator that is not one (it returns [NaN] on some pairs, say)
    the language leaves the order to the engine: the result is a
    permutation of the list, and need not be the one computed here. *)
Definition sort (l : list A) : list A :=
  List.fold_right insert_sorted [] l.
End Sort.

(** [a] may stand before [b] in a list sorted by descending key. *)
Definition descending {A : Type} (key : A -> Z) (a b : A) : Prop :=
  key b <= key a.

End Js.

(** ** EventBus: the priority buffer and its flush *)

Module EventBus.
Import Js.

(** The [priority] field of a buffered event, a string or [undefined].
    [Inherited] is the name of a member that the table in
    [flushBuffer], an object literal, inherits from [Object.prototype]:
    'constructor', 'toString', 'valueOf', 'hasOwnProperty', '__proto__'
    and the like. [OtherPriority] is any other value, [undefined]
    included: the table has no entry for it. *)
Inductive priority : Type :=
| Critical | High | Normal | Low | Inherited | OtherPriority.

#[global] Instance priority_eq_dec : EqDecision priority.
Proof. solve_decision. Defined.

Record eventData : Type := mkEvent {
  event : jsstring;
  id : nat;
  priority_of : priority;
  retryCount : nat
}.

(** What [priorities[p]] reads: a rank of the table, or an inherited
    member, which is a function or (for '__proto__') the prototype
    object. *)
Inductive entry : Type :=
| Rank (n : Z)
| Member.

(** [const priorities = { critical: 3, high: 2, normal: 1, low: 0 }],
    read at a priority; [None] is [undefined]. *)
Definition priorities (p : priority) : option entry :=
  match p with
  | Critical => Some (Rank 3)
  | High => Some (Rank 2)
  | Normal => Some (Rank 1)
  | Low => Some (Rank 0)
  | Inherited => Some Member
  | OtherPriority => None
  end.

(** [v || d]: zero and [undefined] are falsy, a function or an object is
    truthy. *)
Definition or_else (v : option entry) (d : Z) : entry :=
  match v with
  | Some (Rank 0) => Rank d
  | Some e => e
  | None => Rank d
  end.

(** [x - y]; a function or an object is not a number, and the
    difference is [NaN], here [None]. *)
Definition minus (x y : entry) : option Z :=
  match x, y with
  | Rank a, Rank b => Some (a - b)
  | _, _ => None
  end.

(** [(priorities[b.priority] || 1) - (priorities[a.priority] || 1)]. *)
Definition comparator (a b : eventData) : option Z :=
  minus (or_else (priorities (priority_of b)) 1)
        (or_else (priorities (priority_of a)) 1).

(** The comparator returned a number greater than zero; [NaN] is not. *)
Definition positive (a b : eventData) : bool :=
  match comparator a b with
  | Some n => 0 <? n
  | None => false
  end.

Record bus : Type := mkBus {
  eventBuffer : list eventData;
  bufferSize : nat;
  (** the calls of [processEvent], oldest first *)
  dispatched : list eventData
}.

(** The batch one flush takes: [eventBuffer.splice(0, bufferSize)]. *)
Definition batch (b : bus) : list eventData :=
  firstn (bufferSize b) (eventBuffer b).

(** [events.sort(comparator)]. With an [Inherited] priority in the
    batch the comparator is no consistent ordering ([NaN] counts as
    equal, to a critical and to a normal event alike), and the order is
    left to the engine: it is some permutation of the batch, which need
    not be the one computed here. *)
Definition sortedEvents (events : list eventData) : list eventData :=
  sort positive events.

Definition flushBuffer (b : bus) : bus :=
  match eventBuffer b with
  | [] => b
  | _ :: _ =>
      {| eventBuffer := skipn (bufferSize b) (eventBuffer b);
         bufferSize := bufferSize b;
         dispatched := dispatched b ++ sortedEvents (batch b) |}
  end.

(** [emitBuffered]: [options.priority || 'normal'], push, flush at once
    for a critical event or a full buffer. [prio] is [None] for options
    without a priority; one that is there stays, as the spread
    [...options] puts it over the default. *)
Definition emitBuffered (name : jsstring) (fresh : nat)
    (prio : option priority) (b : bus) : bus :=
  let e := {| event := name; id := fresh;
              priority_of := default Normal prio; retryCount := 0 |} in
  let b' := {| eventBuffer := eventBuffer b ++ [e];
               bufferSize := bufferSize b;
               dispatched := dispatched b |} in
  if bool_decide (prio = Some Critical)
     || (bufferSize b <=? length (eventBuffer b'))%nat
  then flushBuffer b' else b'.

(** The priority has a rank: [priorities[p] || 1] is a number. *)
Definition ranked (e : eventData) : Prop := priority_of e <> Inherited.

(** The rank the comparator really sorts by, [priorities[p] || 1], for
    an event that is [ranked]. *)
Definition effective_rank (e : eventData) : Z :=
  match or_else (priorities (priority_of e)) 1 with
  | Rank n => n
  | Member => 0
  end.

(** The rank the table gives (the tier of the specification). *)
Definition tier (e : eventData) : Z :=
  match priorities (priority_of e) with
  | Some (Rank n) => n
  | _ => 1
  end.

(** Two events of the pipeline, for the examples below. *)
Definition low_event : eventData :=
  {| event := lit "message.added"; id := 1; priority_of := Low;
     retryCount := 0 |}.

Definition normal_event : eventData :=
  {| event := lit "message.added"; id := 2; priority_of := Normal;
     retryCount := 0 |}.

End EventBus.

(** ** DatabaseManagerOptimized: the connection pool *)

Module ConnectionPool.

(** A pooled connection. The [db] handle and the [created] / [lastUsed]
    time stamps are left out: no branch of the pool reads them. The [id]
    of a connection is its index in [connections]. *)
Record connection : Type := mkConn {
  conn_id : nat;
  inUse : bool;
  queries : nat
}.

(** [this.connectionPool], together with what the event loop holds for it:
    [creating] lists the callers whose [getConnection] executor is
    suspended at [await this.createOptimizedConnection()], and [granted]
    logs every [resolve(connection)] as (caller, connection id). *)
Record pool : Type := mkPool {
  maxConnections : nat;
  connections : list connection;
  activeConnections : Z;
  waitingQueue : list nat;
  creating : list nat;
  granted : list (nat * nat);
  connectionReuses : nat
}.

(** The constructor followed by [initializeConnectionPool]:
    [maxConnections || 5], and [Math.min(2, maxConnections)] idle
    connections. *)
Definition initial (configured : nat) : pool :=
  let m := match configured with O => 5%nat | _ => configured end in
  {| maxConnections := m;
     connections :=
       List.map (fun i => {| conn_id := i; inUse := false; queries := 0 |})
                (seq 0 (Nat.min 2 m));
     activeConnections := 0;
     waitingQueue := [];
     creating := [];
     granted := [];
     connectionReuses := 0 |}.

(** [connections.find(conn => !conn.inUse)], as the index found. *)
Fixpoint find_idle (l : list connection) : option nat :=
  match l with
  | [] => None
  | c :: l' => if inUse c then S <$> find_idle l' else Some 0%nat
  end.

Definition hand_out (c : connection) : connection :=
  {| conn_id := conn_id c; inUse := true; queries := S (queries c) |}.

Definition give_back (c : connection) : connection :=
  {| conn_id := conn_id c; inUse := false; queries := queries c |}.

(** [getConnection], from the call to the first suspension: an idle
    connection is handed out at once; below the maximum the executor
    starts to open a connection and is suspended; else the caller's
    [resolve] joins the queue. *)
Definition getConnection (caller : nat) (p : pool) : pool :=
  match find_idle (connections p) with
  | Some i =>
      {| maxConnections := maxConnections p;
         connections := alter hand_out i (connections p);
         activeConnections := activeConnections p + 1;
         waitingQueue := waitingQueue p;
         creating := creating p;
         granted := granted p ++ [(caller, i)];
         connectionReuses := S (connectionReuses p) |}
  | None =>
      if (length (connections p) <? maxConnections p)%nat then
        {| maxConnections := maxConnections p;
           connections := connections p;
           activeConnections := activeConnections p;
           waitingQueue := waitingQueue p;
           creating := creating p ++ [caller];
           granted := granted p;
           connectionReuses := connectionReuses p |}
      else
        {| maxConnections := maxConnections p;
           connections := connections p;
           activeConnections := activeConnections p;
           waitingQueue := waitingQueue p ++ [caller];
           creating := creating p;
           granted := granted p;
           connectionReuses := connectionReuses p |}
  end.

Fixpoint remove_first (x : nat) (l : list nat) : list nat :=
  match l with
  | [] => []
  | y :: l' => if (x =? y)%nat then l' else y :: remove_first x l'
  end.

(** The rest of the executor once [createOptimizedConnection] has
    resolved: the new connection is pushed with
    [id = connections.length], without looking at [maxConnections]
    again. *)
Definition connectionCreated (caller : nat) (p : pool) : pool :=
  let i := length (connections p) in
  {| maxConnections := maxConnections p;
     connections :=
       connections p ++ [{| conn_id := i; inUse := true; queries := 1 |}];
     activeConnections := activeConnections p + 1;
     waitingQueue := waitingQueue p;
     creating := remove_first caller (creating p);
     granted := granted p ++ [(caller, i)];
     connectionReuses := connectionReuses p |}.

(** ... and when it has rejected: [reject(error)], nothing is pushed. *)
Definition connectionFailed (caller : nat) (p : pool) : pool :=
  {| maxConnections := maxConnections p;
     connections := connections p;
     activeConnections := activeConnections p;
     waitingQueue := waitingQueue p;
     creating := remove_first caller (creating p);
     granted := granted p;
     connectionReuses := connectionReuses p |}.

(** [releaseConnection(connection)], the connection named by its index. *)
Definition releaseConnection (i : nat) (p : pool) : pool :=
  match waitingQueue p with
  | [] =>
      {| maxConnections := maxConnections p;
         connections := alter give_back i (connections p);
         activeConnections := activeConnections p - 1;
         waitingQueue := [];
         creating := creating p;
         granted := granted p;
         connectionReuses := connectionReuses p |}
  | waiter :: rest =>
      {| maxConnections := maxConnections p;
         connections := alter (fun c => hand_out (give_back c)) i (connections p);
         activeConnections := activeConnections p - 1 + 1;
         waitingQueue := rest;
         creating := creating p;
         granted := granted p ++ [(waiter, i)];
         connectionReuses := connectionReuses p |}
  end.

(** What the event loop may run next. *)
Inductive label : Type :=
| Acquire (caller : nat)
| Created (caller : nat)
| CreateFailed (caller : nat)
| Release (conn : nat).

(** One turn of the event loop; [None] when the label is not enabled: no
    such suspended executor, or a connection that is not checked out. *)
Definition step (p : pool) (l : label) : option pool :=
  match l with
  | Acquire c => Some (getConnection c p)
  | Created c =>
      if bool_decide (c ∈ creating p) then Some (connectionCreated c p) else None
  | CreateFailed c =>
      if bool_decide (c ∈ creating p) then Some (connectionFailed c p) else None
  | Release i =>
      match connections p !! i with
      | Some c => if inUse c then Some (releaseConnection i p) else None
      | None => None
      end
  end.

Fixpoint run (p : pool) (ls : list label) : option pool :=
  match ls with
  | [] => Some p
  | l :: ls' => match step p l with
                | Some p' => run p' ls'
                | None => None
                end
  end.

(** A schedule in which no other call runs between an executor's check of
    [connections.length] and its push: every [Acquire] that starts to
    open a connection is followed at once by its [Created] or
    [CreateFailed]. *)
Fixpoint serial (p : pool) (ls : list label) : Prop :=
  match ls with
  | [] => creating p = []
  | l :: ls' =>
      match step p l with
      | Some p' =>
          match creating p, l with
          | [], Acquire _ => serial p' ls'
          | [], Release _ => serial p' ls'
          | [c], Created c' => c = c' /\ serial p' ls'
          | [c], CreateFailed c' => c = c' /\ serial p' ls'
          | _, _ => False
          end
      | None => False
      end
  end.

(** The state a serial schedule keeps: no executor is suspended and the
    bound holds, or one is suspended and there is room for its
    connection. *)
Definition room (p : pool) : Prop :=
  (creating p = [] /\ (length (connections p) <= maxConnections p)%nat)
  \/ (exists c, creating p = [c]
               /\ (length (connections p) < maxConnections p)%nat).

End ConnectionPool.

(** ** Plain objects used as dictionaries *)

Module Dict.
Import Js.

(** The members every plain object inherits from [Object.prototype] whose
    value is a function. Reading one of these names from [{}] yields that
    function unless the object has an own property of the name. *)
Definition inherited_functions : list jsstring :=
  List.map lit
    ["constructor"; "toString"; "toLocaleString"; "valueOf";
     "hasOwnProperty"; "isPrototypeOf"; "propertyIsEnumerable";
     "__defineGetter__"; "__defineSetter__";
     "__lookupGetter__"; "__lookupSetter__"]%string.

(** [__proto__] is an accessor: reading it yields the prototype object,
    and assigning a number or a string to it does nothing. *)
Definition proto_key : jsstring := lit "__proto__".

Definition inherited (k : jsstring) : bool :=
  bool_decide (k ∈ inherited_functions) || bool_decide (k = proto_key).

Definition is_digit (c : N) : bool := ((48 <=? c) && (c <=? 57))%N.

(** The integer a property name denotes when it is an array index (a
    canonical decimal numeral up to 2^32 - 2): such names are enumerated
    first, in ascending order. *)
Definition array_index (k : jsstring) : option N :=
  match k with
  | [] => None
  | c :: _ =>
      if forallb is_digit k && (negb (c =? 48)%N || (length k =? 1)%nat) then
        let v := fold_left (fun a d => (a * 10 + (d - 48))%N) k 0%N in
        if (v <=? 4294967294)%N then Some v else None
      else None
  end.

Section Values.
Context {V : Type}.
(** What an inherited member (a function, or the prototype object)
    stands for among the values of the dictionary. *)
Variable junk : V.

(** The own properties, in the order in which they were created. *)
Definition dict : Type := list (jsstring * V).

Fixpoint own (o : dict) (k : jsstring) : option V :=
  match o with
  | [] => None
  | (k', v) :: o' => if bool_decide (k = k') then Some v else own o' k
  end.

(** [o[k]], an own property first and then the prototype's. *)
Definition get (o : dict) (k : jsstring) : option V :=
  match own o k with
  | Some v => Some v
  | None => if inherited k then Some junk else None
  end.

Fixpoint put (o : dict) (k : jsstring) (v : V) : dict :=
  match o with
  | [] => [(k, v)]
  | (k', v') :: o' =>
      if bool_decide (k = k') then (k', v) :: o' else (k', v') :: put o' k v
  end.

(** [o[k] = v] for a number or a string [v]. *)
Definition set (o : dict) (k : jsstring) (v : V) : dict :=
  if bool_decide (k = proto_key) then o else put o k v.

Definition index_entries (o : dict) : list (N * (jsstring * V)) :=
  omap (fun e => (fun i => (i, e)) <$> array_index (fst e)) o.

(** [Object.entries(o)]: array indices ascending, then the other names in
    creation order. *)
Definition entries (o : dict) : list (jsstring * V) :=
  List.map snd (sort (fun a b => (fst b <? fst a)%N) (index_entries o))
  ++ List.filter (fun e => negb (bool_decide (is_Some (array_index (fst e))))) o.

(** [Object.keys(o)]. *)
Definition keys (o : dict) : list jsstring := List.map fst (entries o).

End Values.

(** A value of a counting dictionary: a count, or the text that [+ 1]
    makes of an inherited member (for example the source text of the
    function [Object] followed by the digit 1), a string that is not a
    numeral. *)
Inductive count : Type :=
| Count (n : nat)
| CountText.

(** [ToNumber]: a text that is not a numeral converts to [NaN]. *)
Definition count_number (c : count) : float :=
  match c with
  | Count n => num n
  | CountText => nan
  end.

(** [(counts[word] || 0) + 1]: a function or a string is truthy and [+]
    concatenates to it. *)
Definition increment (v : option count) : count :=
  match v with
  | None => Count 1
  | Some (Count n) => Count (S n)
  | Some CountText => CountText
  end.

(** [counts[word] = (counts[word] || 0) + 1]. *)
Definition count_word (o : dict) (w : jsstring) : dict (V := count) :=
  set o w (increment (get CountText o w)).

(** The number of times [w] stands in [words]. *)
Definition occurrences (w : jsstring) (words : list jsstring) : nat :=
  length (List.filter (fun x => bool_decide (x = w)) words).

(** A count after [n] more increments. *)
Definition counted (c : option count) (n : nat) : option count :=
  match n, c with
  | O, _ => c
  | S _, None => Some (Count n)
  | S _, Some (Count m) => Some (Count (m + n))
  | S _, Some CountText => Some CountText
  end.

End Dict.

(** ** PatternDetector: keyword extraction, clustering, problem episodes,
       communication style *)

Module PatternDetector.
Import Js Dict.

Record message : Type := mkMessage {
  sender : jsstring;
  (** [None] for a message without [content] *)
  content : option jsstring
}.

(** [msg.content || '']. *)
Definition content_of (m : message) : jsstring := default [] (content m).

(** *** TF-IDF keyword extraction *)

(** A value of a scoring dictionary: a number, or a text that is not a
    numeral (see [Dict.count]). *)
Inductive score : Type :=
| Num (x : float)
| ScoreText.

(** [ToNumber]. *)
Definition score_number (s : score) : float :=
  match s with
  | Num x => x
  | ScoreText => nan
  end.

(** [doc.split(/\s+/).filter(word => word.length > 2)]. *)
Definition tokens (doc : jsstring) : list jsstring :=
  List.filter (fun w => (2 <? length w)%nat) (split_whitespace doc).

Definition termFrequency (doc : jsstring) : dict (V := score) :=
  let words := tokens doc in
  let wordCount := fold_left count_word words [] in
  let totalWords := length words in
  List.map (fun e => (fst e, Num (count_number (snd e) / num totalWords)))
           wordCount.

Definition calculateTF (documents : list jsstring) : list (dict (V := score)) :=
  List.map termFrequency documents.

Definition documentCount (documents : list jsstring) : dict (V := count) :=
  fold_left (fun o doc => fold_left count_word (new_Set (tokens doc)) o)
            documents [].

(** [x || 0] for a number: zero and [NaN] are falsy. *)
Definition falsy (x : float) : bool :=
  PrimFloat.eqb x 0%float || negb (PrimFloat.eqb x x).

Definition or_zero (v : option score) : score :=
  match v with
  | None => Num 0%float
  | Some (Num x) => if falsy x then Num 0%float else Num x
  | Some ScoreText => ScoreText
  end.

Section Keywords.
(** [Math.log], which ECMAScript leaves to the implementation up to an
    approximation of the natural logarithm. *)
Variable Math_log : float -> float.

Definition calculateIDF (documents : list jsstring) : dict (V := score) :=
  let wordCount := documentCount documents in
  let totalDocs := length documents in
  fold_left
    (fun idf e =>
       set idf (fst e)
           (Num (Math_log (num totalDocs / count_number (snd e)))))
    (entries wordCount) [].

Definition weigh (idf : dict (V := score)) (docTF : dict (V := score))
  : dict (V := score) :=
  fold_left
    (fun docTFIDF e =>
       set docTFIDF (fst e)
           (Num (score_number (snd e)
                 * score_number (or_zero (get ScoreText idf (fst e))))))
    (entries docTF) [].

Definition calculateTFIDF (tf : list (dict (V := score)))
    (idf : dict (V := score)) : list (dict (V := score)) :=
  List.map (weigh idf) tf.

(** [(wordScores[word] || 0) + doc[word]]. *)
Definition accumulate (v : score) (x : float) : score :=
  match v with
  | Num a => Num (a + x)
  | ScoreText => ScoreText
  end.

Definition add_scores (wordScores doc : dict (V := score)) : dict (V := score) :=
  fold_left
    (fun ws e =>
       set ws (fst e)
           (accumulate (or_zero (get ScoreText ws (fst e)))
                       (score_number (snd e))))
    (entries doc) wordScores.

Definition wordScores (tfidf : list (dict (V := score))) : dict (V := score) :=
  fold_left add_scores tfidf [].

Record keyword : Type := mkKeyword {
  word : jsstring;
  keyword_score : score
}.

(** The comparator [(a, b) => b[1] - a[1]] returned a positive number. *)
Definition ranks_after (a b : jsstring * score) : bool :=
  PrimFloat.ltb 0%float (score_number (snd b) - score_number (snd a)).

Definition extractTopKeywords (tfidf : list (dict (V := score)))
    (maxKeywords : nat) : list keyword :=
  List.map (fun e => {| word := fst e; keyword_score := snd e |})
           (firstn maxKeywords (sort ranks_after (entries (wordScores tfidf)))).

(** [extractKeywordsTFIDF], from the lower-cased documents on. *)
Definition extractKeywords (documents : list jsstring) (maxKeywords : nat)
  : list keyword :=
  extractTopKeywords
    (calculateTFIDF (calculateTF documents) (calculateIDF documents))
    maxKeywords.

Definition extractKeywordsTFIDF (messages : list message) (maxKeywords : nat)
  : list keyword :=
  extractKeywords (List.map (fun m => toLowerCase (content_of m)) messages)
                  maxKeywords.

End Keywords.

(** *** Topic clustering *)

(** [calculateWordSimilarity]: the Jaccard index of the two sets of code
    units, as the quotient the source computes. *)
Definition calculateWordSimilarity (word1 word2 : jsstring) : float :=
  let set1 := new_Set word1 in
  let set2 := new_Set word2 in
  let intersection :=
    new_Set (List.filter (fun x => bool_decide (x ∈ set2)) set1) in
  let union := new_Set (set1 ++ set2) in
  num (length intersection) / num (length union).

Record related : Type := mkRelated {
  related_word : jsstring;
  related_score : score;
  similarity : float
}.

Record cluster : Type := mkCluster {
  cluster_id : jsstring;
  mainTopic : jsstring;
  relatedTopics : list related;
  confidence : score;
  size : nat
}.

(** [similarity > 0.6]. *)
Definition similar (word1 word2 : jsstring) : bool :=
  PrimFloat.ltb 0.6%float (calculateWordSimilarity word1 word2).

(** The body of the inner [keywords.forEach] for the seed [seed]. *)
Definition absorb (seed : jsstring) (st : cluster * gset jsstring)
    (other : keyword) : cluster * gset jsstring :=
  let (c, processed) := st in
  if bool_decide (word other ≠ seed)
     && negb (bool_decide (word other ∈ processed)) then
    if similar seed (word other) then
      ({| cluster_id := cluster_id c;
          mainTopic := mainTopic c;
          relatedTopics :=
            relatedTopics c
            ++ [{| related_word := word other;
                   related_score := keyword_score other;
                   similarity := calculateWordSimilarity seed (word other) |}];
          confidence := confidence c;
          size := S (size c) |},
       {[word other]} ∪ processed)
    else st
  else st.

(** The body of the outer [keywords.forEach]. *)
Definition open_cluster (keywords : list keyword)
    (st : list cluster * gset jsstring) (k : keyword)
  : list cluster * gset jsstring :=
  let (clusters, processed) := st in
  if bool_decide (word k ∈ processed) then st
  else
    let fresh :=
      {| cluster_id := lit "cluster_" ++ of_nat_string (length clusters + 1);
         mainTopic := word k;
         relatedTopics := [];
         confidence := keyword_score k;
         size := 1 |} in
    let (c, processed') := fold_left (absorb (word k)) keywords (fresh, processed) in
    (clusters ++ [c], {[word k]} ∪ processed').

Definition clusterTopicsBySimilarity (keywords : list keyword) : list cluster :=
  fst (fold_left (open_cluster keywords) keywords ([], ∅)).

(** *** Problem episodes *)

Definition problemIndicators : list jsstring :=
  [lit "erro"; lit "problema"; lit "bug";
   lit "n" ++ [227%N] ++ lit "o funciona"; lit "falha";
   lit "exception"; lit "crash"; lit "broken"; lit "issue"; lit "trouble"].

Record problem : Type := mkProblem {
  problem_id : jsstring;
  startIndex : nat;
  indicator : jsstring;
  context : jsstring;
  (** [status === 'resolved'] *)
  resolved : bool;
  endIndex : option nat;
  duration : option nat
}.

(** [problems] and [currentProblem]; the open problem is named by its
    index in [problems]. *)
Definition episodes : Type := list problem * option nat.

Definition notice (index : nat) (text : jsstring) (st : episodes)
    (ind : jsstring) : episodes :=
  let (problems, currentProblem) := st in
  if includes text ind then
    match currentProblem with
    | Some _ => st
    | None =>
        (problems
         ++ [{| problem_id := lit "problem_" ++ of_nat_string (length problems + 1);
                startIndex := index;
                indicator := ind;
                context := firstn 100 text;
                resolved := false;
                endIndex := None;
                duration := None |}],
         Some (length problems))
    end
  else st.

Definition resolve (index : nat) (p : problem) : problem :=
  {| problem_id := problem_id p;
     startIndex := startIndex p;
     indicator := indicator p;
     context := context p;
     resolved := true;
     endIndex := Some index;
     duration := Some (index - startIndex p)%nat |}.

Definition scan (st : episodes) (im : nat * message) : episodes :=
  let (index, msg) := im in
  let text := toLowerCase (content_of msg) in
  let (problems, currentProblem) := fold_left (notice index text) problemIndicators st in
  match currentProblem with
  | Some i =>
      if includes text (lit "resolvido") || includes text (lit "funciona")
      then (alter (resolve index) i problems, None)
      else (problems, currentProblem)
  | None => (problems, currentProblem)
  end.

Record problemPatterns : Type := mkProblemPatterns {
  totalProblems : nat;
  openProblems : nat;
  resolvedProblems : nat;
  problems : list problem
}.

Definition identifyProblemPatterns (messages : list message) : problemPatterns :=
  let ps := fst (fold_left scan (combine (seq 0 (length messages)) messages) ([], None)) in
  {| totalProblems := length ps;
     openProblems := length (List.filter (fun p => negb (resolved p)) ps);
     resolvedProblems := length (List.filter resolved ps);
     problems := ps |}.

(** *** Communication style *)

Record styles : Type := mkStyles {
  formal : nat;
  informal : nat;
  technical : nat;
  explanatory : nat
}.

Definition tally (b : bool) (n : nat) : nat := if b then S n else n.

Definition style_of_message (st : styles) (msg : message) : styles :=
  let text := content_of msg in
  {| formal :=
       tally (includes text (lit "por favor") || includes text (lit "obrigado"))
             (formal st);
     informal :=
       tally (includes text (lit "!") || includes text [55357%N; 56842%N])
             (informal st);
     technical :=
       tally (includes text (lit "```") || includes text (lit "function")
              || includes text (lit "class"))
             (technical st);
     explanatory :=
       tally (includes text (lit "porque") || includes text (lit "exemplo")
              || includes text (lit "assim"))
             (explanatory st) |}.

(** [Object.entries(styles)]. *)
Definition style_entries (st : styles) : list (jsstring * nat) :=
  [(lit "formal", formal st); (lit "informal", informal st);
   (lit "technical", technical st); (lit "explanatory", explanatory st)].

(** [styles[k]] for a property name [k]; [None] is a value that is not a
    number ([undefined], or an inherited function). *)
Definition style_get (st : styles) (k : jsstring) : option nat :=
  snd <$> List.find (fun e => bool_decide (fst e = k)) (style_entries st).

(** The property name an entry [[name, count]] converts to when it is
    used as a key: the array's elements joined by a comma. *)
Definition property_key (e : jsstring * nat) : jsstring :=
  fst e ++ lit "," ++ of_nat_string (snd e).

(** [x > y]: false as soon as one side is not a number. *)
Definition greater (x y : option nat) : bool :=
  match x, y with
  | Some a, Some b => (b <? a)%nat
  | _, _ => false
  end.

(** The callback [(a, b) => styles[a] > styles[b] ? a : b], applied to
    entries. *)
Definition pick (st : styles) (a b : jsstring * nat) : jsstring * nat :=
  if greater (style_get st (property_key a)) (style_get st (property_key b))
  then a else b.

Record communicationStyle : Type := mkCommunicationStyle {
  style_counts : styles;
  total : nat;
  dominantStyle : jsstring * nat;
  distribution : list (jsstring * float)
}.

Definition analyzeCommunicationStyle (messages : list message)
  : communicationStyle :=
  let st := fold_left style_of_message messages
              {| formal := 0; informal := 0; technical := 0; explanatory := 0 |} in
  let total := (formal st + informal st + technical st + explanatory st)%nat in
  {| style_counts := st;
     total := total;
     dominantStyle :=
       fold_left (pick st) (tl (style_entries st))
                 (lit "formal", formal st);
     distribution :=
       List.map (fun e => (fst e, (num (snd e) / num total)%float))
                (style_entries st) |}.

(** The style with the largest counter (the first one among equals), as
    the specification words it. *)
Definition arg_max_style (st : styles) : jsstring * nat :=
  fold_left (fun a b => if (snd a <? snd b)%nat then b else a)
            (tl (style_entries st)) (lit "formal", formal st).

(** A conversation given by the contents of its messages. *)
Definition conversation (contents : list string) : list message :=
  List.map (fun c => {| sender := lit "user"; content := Some (lit c) |})
           contents.

(** The terms of a cluster: its seed and the terms it absorbed. *)
Definition members (c : cluster) : list jsstring :=
  mainTopic c :: List.map related_word (relatedTopics c).

Definition same_cluster (cs : list cluster) (w1 w2 : jsstring) : bool :=
  existsb (fun c => bool_decide (w1 ∈ members c)
                    && bool_decide (w2 ∈ members c)) cs.

(** [similarity >= 0.6], the threshold as the specification reads it. *)
Definition at_least_threshold (word1 word2 : jsstring) : bool :=
  PrimFloat.leb 0.6%float (calculateWordSimilarity word1 word2).

(** The two halves of the specification's sentence on clustering. *)
Definition similar_terms_share_a_cluster (ks : list keyword) : Prop :=
  forall k1 k2, In k1 ks -> In k2 ks ->
    at_least_threshold (word k1) (word k2) = true ->
    same_cluster (clusterTopicsBySimilarity ks) (word k1) (word k2) = true.

Definition dissimilar_terms_stay_apart (ks : list keyword) : Prop :=
  forall k1 k2, In k1 ks -> In k2 ks -> word k1 <> word k2 ->
    at_least_threshold (word k1) (word k2) = false ->
    same_cluster (clusterTopicsBySimilarity ks) (word k1) (word k2) = false.

Definition term (w : string) : keyword :=
  {| word := lit w; keyword_score := Num 1%float |}.

(** Two terms whose similarity is 3/5, exactly the threshold. *)
Definition boundary_terms : list keyword := [term "abcd"; term "abce"].

(** The last two terms have similarity 4/5, but the first one, a seed,
    absorbs the second before the third is looked at. *)
Definition chained_terms : list keyword :=
  [term "abcd"; term "abcde"; term "bcde"].

(** The seed absorbs two terms (5/7 each) whose own similarity is 3/7. *)
Definition star_terms : list keyword :=
  [term "abcdefg"; term "abcde"; term "cdefg"].

(** What the greedy pass guarantees of a cluster: its seed is a keyword
    and gives the confidence, the size counts the seed and the absorbed
    terms, and every absorbed term is a keyword other than the seed whose
    similarity with the seed is above 0.6. *)
Definition follows_seed (ks : list keyword) (c : cluster) : Prop :=
  (exists k, k ∈ ks /\ mainTopic c = word k /\ confidence c = keyword_score k)
  /\ size c = (1 + length (relatedTopics c))%nat
  /\ Forall (fun r =>
               similar (mainTopic c) (related_word r) = true
               /\ related_word r <> mainTopic c
               /\ similarity r
                  = calculateWordSimilarity (mainTopic c) (related_word r)
               /\ exists k, k ∈ ks /\ word k = related_word r
                            /\ keyword_score k = related_score r)
            (relatedTopics c).

(** The seed of a later cluster is neither the seed of an earlier one nor
    above the threshold with it. *)
Definition seeds_apart (c1 c2 : cluster) : Prop :=
  mainTopic c1 <> mainTopic c2
  /\ similar (mainTopic c1) (mainTopic c2) = false.

(** Every keyword ends in a cluster. *)
Definition covered (cs : list cluster) (k : keyword) : Prop :=
  exists c, c ∈ cs /\ word k ∈ members c.

(** What holds of the clusters and the processed set between two turns
    of the outer loop. *)
Definition clustering_invariant (ks : list keyword)
    (st : list cluster * gset jsstring) : Prop :=
  Forall (follows_seed ks) (fst st)
  /\ ForallOrdPairs seeds_apart (fst st)
  /\ (forall w, w ∈ snd st <-> exists c, c ∈ fst st /\ w ∈ members c)
  /\ (forall c k, c ∈ fst st -> k ∈ ks ->
        word k ∈ snd st \/ similar (mainTopic c) (word k) = false).

(** The term frequency as the specification defines it: the occurrences
    of the term among the tokens of the message over the number of
    tokens; a term that does not occur has none. *)
Definition term_frequency (doc w : jsstring) : option float :=
  let words := tokens doc in
  match occurrences w words with
  | O => None
  | S _ => Some (num (occurrences w words) / num (length words))%float
  end.

(** The number of messages in which the term occurs. *)
Definition document_frequency (documents : list jsstring) (w : jsstring)
  : nat :=
  length (List.filter (fun doc => bool_decide (w ∈ tokens doc)) documents).

(** The messages none of whose tokens is a name that plain objects
    inherit. *)
Definition clean_documents (documents : list jsstring) : Prop :=
  Forall (fun doc => Forall (fun x => inherited x = false) (tokens doc))
         documents.

(** The inverse document frequency as the specification defines it,
    [ln (totalMessages / messagesContainingTerm)]; a term that occurs in
    no message has none. *)
Definition inverse_document_frequency (Math_log : float -> float)
    (documents : list jsstring) (w : jsstring) : option float :=
  match document_frequency documents w with
  | O => None
  | S _ =>
      Some (Math_log (num (length documents)
                      / num (document_frequency documents w)))%float
  end.

(** The sum the accumulation of the source computes for one term: the
    values are added in order to a sum that starts at 0; a message
    without the term adds nothing. As in the source, a sum read back as 0
    or [NaN] counts as 0. *)
Definition summed (values : list (option float)) : option score :=
  fold_left (fun acc x =>
               match x with
               | Some x => Some (accumulate (or_zero acc) x)
               | None => acc
               end)
            values None.

(** The aggregate score as the specification defines it: frequency times
    inverse document frequency, summed over the messages. *)
Definition aggregate_score (Math_log : float -> float)
    (documents : list jsstring) (w : jsstring) : option score :=
  let idf :=
    score_number
      (or_zero (Num <$> inverse_document_frequency Math_log documents w)) in
  summed (List.map (fun doc => (fun tf => tf * idf)%float
                                 <$> term_frequency doc w)
                   documents).

End PatternDetector.

(** ** ConversationAnalyzer: the problem-solving counters *)

Module ConversationAnalyzer.
Import Js.

Record message : Type := mkMessage {
  content : option jsstring
}.

Definition content_of (m : message) : jsstring := default [] (content m).

Record patterns : Type := mkPatterns {
  problemIdentification : nat;
  solutionAttempts : nat;
  successfulResolution : nat;
  iterationCount : nat
}.

(** [patterns], [currentProblem] and [attempts]. *)
Record progress : Type := mkProgress {
  counters : patterns;
  currentProblem : bool;
  attempts : nat
}.

Definition mentions_problem (text : jsstring) : bool :=
  includes text (lit "erro") || includes text (lit "problema")
  || includes text (lit "n" ++ [227%N] ++ lit "o funciona").

Definition mentions_resolution (text : jsstring) : bool :=
  includes text (lit "funciona") || includes text (lit "resolvido").

Definition open_problem (text : jsstring) (s : progress) : progress :=
  if mentions_problem text && negb (currentProblem s) then
    {| counters :=
         {| problemIdentification := S (problemIdentification (counters s));
            solutionAttempts := solutionAttempts (counters s);
            successfulResolution := successfulResolution (counters s);
            iterationCount := iterationCount (counters s) |};
       currentProblem := true;
       attempts := 0 |}
  else s.

Definition count_attempt (text : jsstring) (s : progress) : progress :=
  if currentProblem s && includes text (lit "```") then
    {| counters :=
         {| problemIdentification := problemIdentification (counters s);
            solutionAttempts := S (solutionAttempts (counters s));
            successfulResolution := successfulResolution (counters s);
            iterationCount := iterationCount (counters s) |};
       currentProblem := currentProblem s;
       attempts := S (attempts s) |}
  else s.

Definition close_problem (text : jsstring) (s : progress) : progress :=
  if currentProblem s && mentions_resolution text then
    {| counters :=
         {| problemIdentification := problemIdentification (counters s);
            solutionAttempts := solutionAttempts (counters s);
            successfulResolution := S (successfulResolution (counters s));
            iterationCount := (iterationCount (counters s) + attempts s)%nat |};
       currentProblem := false;
       attempts := attempts s |}
  else s.

(** The body of [messages.forEach]. *)
Definition visit (s : progress) (msg : message) : progress :=
  let text := toLowerCase (content_of msg) in
  close_problem text (count_attempt text (open_problem text s)).

Definition start : progress :=
  {| counters := {| problemIdentification := 0; solutionAttempts := 0;
                    successfulResolution := 0; iterationCount := 0 |};
     currentProblem := false;
     attempts := 0 |}.

(** [analyzeProblemSolving]; [None] is the empty object returned for an
    empty list. *)
Definition analyzeProblemSolving (messages : list message) : option patterns :=
  match messages with
  | [] => None
  | _ :: _ => Some (counters (fold_left visit messages start))
  end.

(** A conversation given by the contents of its messages. *)
Definition conversation (contents : list string) : list message :=
  List.map (fun c => {| content := Some (lit c) |}) contents.

(** Episodes are sequential: a problem is open exactly when one more
    has been identified than resolved. *)
Definition sequential (s : progress) : Prop :=
  problemIdentification (counters s)
  = ((if currentProblem s then 1 else 0)
     + successfulResolution (counters s))%nat.

(** The conversation of the specification's example. *)
Definition reported_conversation : list message :=
  conversation ["error happened"; "trying fix"; "trying fix2";
                "it works now"]%string.

(** The same exchange written with the words the analyzer looks for: the
    two attempts open a code fence and the last message says
    "funciona". *)
Definition recognised_conversation : list message :=
  conversation ["erro happened"; "```trying fix"; "```trying fix2";
                "funciona now"]%string.

(** Exactly one episode, opened and closed, with [n] iterations. *)
Definition one_episode (n : nat) (r : option patterns) : Prop :=
  exists p, r = Some p
            /\ problemIdentification p = 1%nat
            /\ successfulResolution p = 1%nat
            /\ iterationCount p = n.

End ConversationAnalyzer.

(** ** StreamProcessor: the worker code *)

Module Worker.
Import Js Dict.

Record message : Type := mkMessage {
  sender : jsstring;
  content : option jsstring
}.

(** The payload posted to a worker: one object, of which each task reads
    the fields it knows; [None] is a field that is not there. *)
Record payload : Type := mkPayload {
  id : option jsstring;
  messages : option (list message);
  conversationId : option jsstring;
  messageCount : option nat;
  topics : option (list jsstring)
}.

(** What a run reads besides its payload. *)
Record environment : Type := mkEnvironment {
  (** [new Date().toISOString()] *)
  now : jsstring;
  (** [Math.random()] *)
  random : float
}.

Definition is_word_char (c : N) : bool :=
  (((48 <=? c) && (c <=? 57)) || ((65 <=? c) && (c <=? 90)) || (c =? 95)
   || ((97 <=? c) && (c <=? 122)))%N.

(** The maximal runs of word characters, empty ones included. *)
Fixpoint runs_go (cur : jsstring) (s : jsstring) : list jsstring :=
  match s with
  | [] => [rev cur]
  | c :: s' =>
      if is_word_char c then runs_go (c :: cur) s'
      else rev cur :: runs_go [] s'
  end.

(** [content.match(/\b\w{4,}\b/g) || []]. *)
Definition match_words (text : jsstring) : list jsstring :=
  List.filter (fun w => (4 <=? length w)%nat) (runs_go [] text).

(** The comparator [([,a], [,b]) => b - a] returned a positive number. *)
Definition fewer (a b : jsstring * count) : bool :=
  match snd a, snd b with
  | Count x, Count y => (x <? y)%nat
  | _, _ => false
  end.

Record analysis : Type := mkAnalysis {
  analysis_id : option jsstring;
  analysis_messageCount : nat;
  participants : list jsstring;
  analysis_topics : list jsstring;
  sentiment : jsstring;
  complexity : nat;
  analysis_timestamp : jsstring
}.

Definition analyzeConversation (e : environment) (conversation : payload)
  : analysis :=
  match messages conversation with
  | None =>
      {| analysis_id := id conversation;
         analysis_messageCount := 0;
         participants := [];
         analysis_topics := [];
         sentiment := lit "neutral";
         complexity := 0;
         analysis_timestamp := now e |}
  | Some ms =>
      let participants := new_Set (List.map sender ms) in
      let text := toLowerCase (join (lit " ") (List.map (fun m => default [] (content m)) ms)) in
      let keywords := match_words text in
      let keywordCounts := fold_left count_word keywords [] in
      {| analysis_id := id conversation;
         analysis_messageCount := length ms;
         participants := participants;
         analysis_topics :=
           List.map fst (firstn 5 (sort fewer (entries keywordCounts)));
         sentiment := lit "neutral";
         complexity := Nat.min 10 (length keywords / 10 + length participants);
         analysis_timestamp := now e |}
  end.

Record pattern : Type := mkPattern {
  pattern_type : jsstring;
  description : jsstring;
  pattern_confidence : float
}.

Record detection : Type := mkDetection {
  detection_conversationId : option jsstring;
  patterns : list pattern;
  confidence : float;
  detection_timestamp : jsstring
}.

Definition detectPatterns (e : environment) (data : payload) : detection :=
  let long :=
    match messageCount data with
    | Some n => (5 <? n)%nat
    | None => false
    end in
  let troubleshooting :=
    match topics data with
    | Some ts => bool_decide (lit "error" ∈ ts)
    | None => false
    end in
  let found :=
    (if long then
       [{| pattern_type := lit "conversation_length";
           description := lit "Conversa extensa detectada";
           pattern_confidence := 0.8%float |}]
     else [])
    ++ (if troubleshooting then
          [{| pattern_type := lit "troubleshooting";
              description := lit "Sess" ++ [227%N] ++ lit "o de debugging detectada";
              pattern_confidence := 0.7%float |}]
        else []) in
  {| detection_conversationId := conversationId data;
     patterns := found;
     confidence :=
       match found with
       | [] => 0%float
       | _ :: _ =>
           (fold_left (fun sum p => sum + pattern_confidence p) found 0
            / num (length found))%float
       end;
     detection_timestamp := now e |}.

Record insight : Type := mkInsight {
  insight_type : jsstring;
  insight_description : jsstring;
  insight_score : float;
  recommendations : list jsstring
}.

Record insights_result : Type := mkInsights {
  insights_conversationId : option jsstring;
  insights : list insight;
  insights_timestamp : jsstring
}.

Definition generateInsights (e : environment) (data : payload)
  : insights_result :=
  {| insights_conversationId := conversationId data;
     insights :=
       [{| insight_type := lit "productivity";
           insight_description :=
             lit "An" ++ [225%N] ++ lit "lise de produtividade baseada na conversa";
           insight_score := (random e * 10)%float;
           recommendations := [] |}];
     insights_timestamp := now e |}.

Inductive result : Type :=
| Analysis (a : analysis)
| Detection (d : detection)
| Insights (i : insights_result).

(** The message a worker posts back: [{ id, success: true, result }] or
    [{ id, success: false, error }]. *)
Inductive reply : Type :=
| Success (r : result)
| Failure (message : jsstring).

(** The [switch (type)] of the worker's message handler. *)
Definition run_task (e : environment) (type : jsstring) (data : payload)
  : reply :=
  if bool_decide (type = lit "analyze_conversation") then
    Success (Analysis (analyzeConversation e data))
  else if bool_decide (type = lit "detect_patterns") then
    Success (Detection (detectPatterns e data))
  else if bool_decide (type = lit "generate_insights") then
    Success (Insights (generateInsights e data))
  else Failure (lit "Unknown task type: " ++ type).

(** A result without the fields that the clock and the random generator
    fill: the time stamps and the score of an insight. *)
Definition without_environment (r : reply) : reply :=
  match r with
  | Success (Analysis a) =>
      Success (Analysis
        {| analysis_id := analysis_id a;
           analysis_messageCount := analysis_messageCount a;
           participants := participants a;
           analysis_topics := analysis_topics a;
           sentiment := sentiment a;
           complexity := complexity a;
           analysis_timestamp := [] |})
  | Success (Detection d) =>
      Success (Detection
        {| detection_conversationId := detection_conversationId d;
           patterns := patterns d;
           confidence := confidence d;
           detection_timestamp := [] |})
  | Success (Insights i) =>
      Success (Insights
        {| insights_conversationId := insights_conversationId i;
           insights :=
             List.map (fun x => {| insight_type := insight_type x;
                                   insight_description := insight_description x;
                                   insight_score := 0%float;
                                   recommendations := recommendations x |})
                      (insights i);
           insights_timestamp := [] |})
  | Failure m => Failure m
  end.

(** The time stamp of a reply, and the scores of its insights. *)
Definition stamp (r : reply) : jsstring :=
  match r with
  | Success (Analysis a) => analysis_timestamp a
  | Success (Detection d) => detection_timestamp d
  | Success (Insights i) => insights_timestamp i
  | Failure _ => []
  end.

Definition scores (r : reply) : list float :=
  match r with
  | Success (Insights i) => List.map insight_score (insights i)
  | _ => []
  end.

(** A task is a pure function of its payload: two runs on one payload
    give one result, whatever else the runs read. *)
Definition pure_task (type : jsstring) : Prop :=
  forall (e1 e2 : environment) (data : payload),
    run_task e1 type data = run_task e2 type data.

(** Two runs, a second apart, with different draws. *)
Definition first_run : environment :=
  {| now := lit "2025-01-01T00:00:00.000Z"; random := 0.25%float |}.

Definition second_run : environment :=
  {| now := lit "2025-01-01T00:00:01.000Z"; random := 0.5%float |}.

Definition sample_payload : payload :=
  {| id := Some (lit "c1");
     messages :=
       Some [{| sender := lit "user";
                content := Some (lit "performance issue with database") |};
             {| sender := lit "assistant";
                content := Some (lit "fixed by adding an index") |}];
     conversationId := Some (lit "c1");
     messageCount := Some 2%nat;
     topics := Some [lit "performance"; lit "database"] |}.

End Worker.

(** ** StreamProcessor: the worker pool *)

Module StreamProcessor.
Import Js.

Record worker : Type := mkWorker {
  jobCount : nat
}.

(** The callback of [workerPool.reduce]:
    [worker.jobCount < (min?.jobCount || Infinity) ? worker : min].
    Workers are named by their index in [workerPool]. *)
Definition prefer (min w : nat * worker) : nat * worker :=
  match jobCount (snd min) with
  | O => w
  | S _ => if (jobCount (snd w) <? jobCount (snd min))%nat then w else min
  end.

Definition indexed (pool : list worker) : list (nat * worker) :=
  combine (seq 0 (length pool)) pool.

Definition busier (w : worker) : worker := {| jobCount := S (jobCount w) |}.

(** [getAvailableWorker]: the worker chosen and the pool with its
    [jobCount] incremented; [None] when [reduce] throws on an empty
    pool. *)
Definition getAvailableWorker (pool : list worker)
  : option (nat * list worker) :=
  match indexed pool with
  | [] => None
  | first :: rest =>
      let i := fst (fold_left prefer rest first) in
      Some (i, alter busier i pool)
  end.

(** [releaseWorker]. *)
Definition releaseWorker (i : nat) (pool : list worker) : list worker :=
  alter (fun w => if (0 <? jobCount w)%nat
                  then {| jobCount := pred (jobCount w) |} else w)
        i pool.

Inductive failure : Type :=
| TaskTimeout (ms : N)
| TaskError (message : jsstring).

(** The promise [executeWorkerTask] returns. *)
Inductive handle : Type :=
| Pending
| Resolved (r : Worker.result)
| Rejected (e : failure).

(** [resolve] and [reject] act on a pending promise only. *)
Definition settle (h outcome : handle) : handle :=
  match h with
  | Pending => outcome
  | _ => h
  end.

Record task : Type := mkTask {
  task_worker : nat;
  promise : handle;
  (** [messageHandler] is registered on the worker *)
  listening : bool;
  (** the timeout has been set and neither fired nor been cleared *)
  timer : bool
}.

Record processor : Type := mkProcessor {
  concurrency : nat;
  backpressureThreshold : float;
  workerTimeout : N;
  workerPool : list worker;
  (** [this.activeJobs]: task id to worker *)
  activeJobs : gmap nat nat;
  tasks : gmap nat task;
  backpressureEvents : nat;
  (** the [stream.backpressure] events emitted, as
      (utilization, activeJobs), oldest first *)
  published : list (float * nat)
}.

(** [executeWorkerTask], up to the return of the promise. *)
Definition executeWorkerTask (taskId : nat) (p : processor)
  : option processor :=
  match getAvailableWorker (workerPool p) with
  | None => None
  | Some (w, pool') =>
      Some {| concurrency := concurrency p;
              backpressureThreshold := backpressureThreshold p;
              workerTimeout := workerTimeout p;
              workerPool := pool';
              activeJobs := <[taskId := w]> (activeJobs p);
              tasks := <[taskId := {| task_worker := w; promise := Pending;
                                      listening := true; timer := true |}]>
                         (tasks p);
              backpressureEvents := backpressureEvents p;
              published := published p |}
  end.

(** [messageHandler] on the reply to [taskId]: clear the timeout, remove
    the listener, release the worker, settle the promise. *)
Definition messageHandler (taskId : nat) (t : task) (r : Worker.reply)
    (p : processor) : processor :=
  {| concurrency := concurrency p;
     backpressureThreshold := backpressureThreshold p;
     workerTimeout := workerTimeout p;
     workerPool := releaseWorker (task_worker t) (workerPool p);
     activeJobs := activeJobs p;
     tasks :=
       <[taskId := {| task_worker := task_worker t;
                      promise :=
                        settle (promise t)
                          match r with
                          | Worker.Success res => Resolved res
                          | Worker.Failure m => Rejected (TaskError m)
                          end;
                      listening := false;
                      timer := false |}]> (tasks p);
     backpressureEvents := backpressureEvents p;
     published := published p |}.

(** The callback of [setTimeout]: it rejects and does nothing else. *)
Definition timeoutFired (taskId : nat) (t : task) (p : processor)
  : processor :=
  {| concurrency := concurrency p;
     backpressureThreshold := backpressureThreshold p;
     workerTimeout := workerTimeout p;
     workerPool := workerPool p;
     activeJobs := activeJobs p;
     tasks :=
       <[taskId := {| task_worker := task_worker t;
                      promise :=
                        settle (promise t)
                               (Rejected (TaskTimeout (workerTimeout p)));
                      listening := listening t;
                      timer := false |}]> (tasks p);
     backpressureEvents := backpressureEvents p;
     published := published p |}.

(** [checkBackpressure]. *)
Definition utilization (p : processor) : float :=
  (num (size (activeJobs p)) / num (concurrency p))%float.

Definition saturated (p : processor) : bool :=
  PrimFloat.ltb (backpressureThreshold p) (utilization p).

Definition checkBackpressure (p : processor) : bool * processor :=
  if saturated p then
    (true,
     {| concurrency := concurrency p;
        backpressureThreshold := backpressureThreshold p;
        workerTimeout := workerTimeout p;
        workerPool := workerPool p;
        activeJobs := activeJobs p;
        tasks := tasks p;
        backpressureEvents := S (backpressureEvents p);
        published :=
          published p ++ [(utilization p, size (activeJobs p))] |})
  else (false, p).

(** What the event loop may run for the pool. *)
Inductive event : Type :=
| Submit (taskId : nat)
| Reply (taskId : nat) (r : Worker.reply)
| Timeout (taskId : nat)
| CheckBackpressure.

(** One turn; [None] when the event is not enabled: a task id in use or
    an empty pool for [Submit], no registered listener for [Reply], no
    armed timer for [Timeout]. *)
Definition step (p : processor) (ev : event) : option processor :=
  match ev with
  | Submit taskId =>
      match tasks p !! taskId with
      | Some _ => None
      | None => executeWorkerTask taskId p
      end
  | Reply taskId r =>
      match tasks p !! taskId with
      | Some t => if listening t then Some (messageHandler taskId t r p) else None
      | None => None
      end
  | Timeout taskId =>
      match tasks p !! taskId with
      | Some t => if timer t then Some (timeoutFired taskId t p) else None
      | None => None
      end
  | CheckBackpressure => Some (snd (checkBackpressure p))
  end.

Fixpoint run (p : processor) (evs : list event) : option processor :=
  match evs with
  | [] => Some p
  | ev :: evs' => match step p ev with
                  | Some p' => run p' evs'
                  | None => None
                  end
  end.

(** The constructor's defaults and a pool of [concurrency] idle workers. *)
Definition fresh (workers : nat) : processor :=
  {| concurrency := workers;
     backpressureThreshold := 0.8%float;
     workerTimeout := 30000%N;
     workerPool := repeat {| jobCount := 0 |} workers;
     activeJobs := ∅;
     tasks := ∅;
     backpressureEvents := 0;
     published := [] |}.

(** The load counter of a worker. *)
Definition load (p : processor) (w : nat) : option nat :=
  jobCount <$> workerPool p !! w.

(** [n] calls of [checkBackpressure] in a row. *)
Definition checks (n : nat) (p : processor) : processor :=
  Nat.iter n (fun q => snd (checkBackpressure q)) p.

(** Whether the pool is saturated, before a run and after each of its
    events. *)
Fixpoint saturation_history (p : processor) (evs : list event) : list bool :=
  saturated p
  :: match evs with
     | [] => []
     | ev :: evs' =>
         match step p ev with
         | Some p' => saturation_history p' evs'
         | None => []
         end
     end.

(** The saturation transitions of a history: the changes from not
    saturated to saturated. *)
Fixpoint transitions (before : bool) (history : list bool) : nat :=
  match history with
  | [] => 0
  | s :: history' =>
      (if negb before && s then 1 else 0) + transitions s history'
  end.

(** A run publishes exactly one backpressure event per saturation
    transition. *)
Definition one_event_per_transition (p : processor) (evs : list event)
  : Prop :=
  exists p', run p evs = Some p'
             /\ (backpressureEvents p' - backpressureEvents p)%nat
                = transitions false (saturation_history p evs).

End StreamProcessor.

(** ** MemoryPool: recycled objects per type tag *)

Module MemoryPool.
Import Js.

(** The state of a pooled payload: an array, a plain object with its
    own properties in creation order, or any other value (a [Map], a
    [Set], a number, ...). *)
Inductive contents : Type :=
| ArrayOf (elements : list jsstring)
| ObjectOf (properties : list (jsstring * jsstring))
| Other (description : jsstring).

(** How a reset function ends on a payload: it returns or it throws,
    and either way it leaves the payload in some state. *)
Inductive ending : Type :=
| Returns (left : contents)
| Throws (left : contents).

Definition left_by (e : ending) : contents :=
  match e with
  | Returns c => c
  | Throws c => c
  end.

Definition throws (e : ending) : bool :=
  match e with
  | Returns _ => false
  | Throws _ => true
  end.

(** [defaultReset]: an array is emptied; a plain object loses its own
    properties, each after the question [obj.hasOwnProperty(key)]; any
    other value is left as it is. An object with an own property named
    'hasOwnProperty' answers the question with a TypeError (the
    property, a string, is not a function) at the first key, before
    anything is deleted. *)
Definition defaultReset (c : contents) : ending :=
  match c with
  | ArrayOf _ => Returns (ArrayOf [])
  | ObjectOf properties =>
      if bool_decide (lit "hasOwnProperty" ∈ List.map fst properties)
      then Throws (ObjectOf properties)
      else Returns (ObjectOf [])
  | Other d => Returns (Other d)
  end.

(** A pooled object [{ id, type, data, created, lastUsed }]. [data] is
    the reference to the payload: [obj.data === data] compares
    references. *)
Record pooled : Type := mkPooled {
  pooled_id : jsstring;
  data : nat;
  created : N;
  lastUsed : N
}.

(** One entry of [this.pools]: [available] is an array, [active] a [Set]
    in insertion order. *)
Record typed_pool : Type := mkTypedPool {
  available : list pooled;
  active : list pooled;
  pool_created : N
}.

Record metrics : Type := mkMetrics {
  hits : nat;
  misses : nat;
  creates : nat;
  reuses : nat;
  cleanups : nat;
  totalObjects : Z
}.

Record memory_pool : Type := mkMemoryPool {
  maxSize : nat;
  pools : gmap jsstring typed_pool;
  pool_metrics : metrics;
  (** the payload objects, by reference *)
  heap : gmap nat contents
}.

(** [getPool]: the pool of the type, registered first when the type has
    none. *)
Definition getPool (type : jsstring) (now : N) (m : memory_pool)
  : typed_pool * memory_pool :=
  match pools m !! type with
  | Some p => (p, m)
  | None =>
      let p := {| available := []; active := []; pool_created := now |} in
      (p, {| maxSize := maxSize m;
             pools := <[type := p]> (pools m);
             pool_metrics := pool_metrics m;
             heap := heap m |})
  end.

(** The index in [pool.active] of the first object whose payload is
    [payload]. *)
Fixpoint find_active (payload : nat) (l : list pooled) : option nat :=
  match l with
  | [] => None
  | o :: l' =>
      if (data o =? payload)%nat then Some 0%nat
      else S <$> find_active payload l'
  end.

Definition touch (now : N) (o : pooled) : pooled :=
  {| pooled_id := pooled_id o; data := data o;
     created := created o; lastUsed := now |}.

(** What [release] gives its caller: the boolean it returns, or the
    exception of the reset function. *)
Inductive answer : Type :=
| Returned (b : bool)
| Threw.

Definition threw (a : answer) : bool :=
  match a with
  | Returned _ => false
  | Threw => true
  end.

(** [release(type, data, resetFn)] at time [now]. The object leaves
    [pool.active] before the reset runs; when the reset throws, the
    call ends there: the object is in neither list and stays counted in
    [totalObjects]. The payload of a pooled object is on the heap,
    where [get] put it. *)
Definition release (type : jsstring) (payload : nat)
    (resetFn : option (contents -> ending)) (now : N) (m : memory_pool)
  : answer * memory_pool :=
  let (pool, m1) := getPool type now m in
  match find_active payload (active pool) with
  | None => (Returned false, m1)
  | Some i =>
      match active pool !! i with
      | None => (Returned false, m1)
      | Some objToRelease =>
          let reset := default defaultReset resetFn in
          let heap' := alter (fun c => left_by (reset c)) payload (heap m1) in
          if from_option (fun c => throws (reset c)) false
                         (heap m1 !! payload) then
            (Threw,
             {| maxSize := maxSize m1;
                pools :=
                  <[type := {| available := available pool;
                               active := delete i (active pool);
                               pool_created := pool_created pool |}]>
                    (pools m1);
                pool_metrics := pool_metrics m1;
                heap := heap' |})
          else if (length (available pool) <? maxSize m1)%nat then
            (Returned true,
             {| maxSize := maxSize m1;
                pools :=
                  <[type := {| available :=
                                 available pool ++ [touch now objToRelease];
                               active := delete i (active pool);
                               pool_created := pool_created pool |}]>
                    (pools m1);
                pool_metrics := pool_metrics m1;
                heap := heap' |})
          else
            (Returned true,
             {| maxSize := maxSize m1;
                pools :=
                  <[type := {| available := available pool;
                               active := delete i (active pool);
                               pool_created := pool_created pool |}]>
                    (pools m1);
                pool_metrics :=
                  {| hits := hits (pool_metrics m1);
                     misses := misses (pool_metrics m1);
                     creates := creates (pool_metrics m1);
                     reuses := reuses (pool_metrics m1);
                     cleanups := cleanups (pool_metrics m1);
                     totalObjects := totalObjects (pool_metrics m1) - 1 |};
                heap := heap' |})
      end
  end.

(** [get(type, factory)] at time [now]: the payload handed out. A new
    payload is allocated at the reference [fresh] with the contents the
    factory made; [fresh_id] is the result of [generateId()]. *)
Definition get (type : jsstring) (factory : contents) (fresh : nat)
    (fresh_id : jsstring) (now : N) (m : memory_pool) : nat * memory_pool :=
  let (pool, m1) := getPool type now m in
  match rev (available pool) with
  | obj :: rest =>
      (data obj,
       {| maxSize := maxSize m1;
          pools :=
            <[type := {| available := rev rest;
                         active := active pool ++ [touch now obj];
                         pool_created := pool_created pool |}]> (pools m1);
          pool_metrics :=
            {| hits := S (hits (pool_metrics m1));
               misses := misses (pool_metrics m1);
               creates := creates (pool_metrics m1);
               reuses := S (reuses (pool_metrics m1));
               cleanups := cleanups (pool_metrics m1);
               totalObjects := totalObjects (pool_metrics m1) |};
          heap := heap m1 |})
  | [] =>
      (fresh,
       {| maxSize := maxSize m1;
          pools :=
            <[type := {| available := [];
                         active :=
                           active pool
                           ++ [{| pooled_id := fresh_id; data := fresh;
                                  created := now; lastUsed := now |}];
                         pool_created := pool_created pool |}]> (pools m1);
          pool_metrics :=
            {| hits := hits (pool_metrics m1);
               misses := S (misses (pool_metrics m1));
               creates := S (creates (pool_metrics m1));
               reuses := reuses (pool_metrics m1);
               cleanups := cleanups (pool_metrics m1);
               totalObjects := totalObjects (pool_metrics m1) + 1 |};
          heap := <[fresh := factory]> (heap m1) |})
  end.

(** The constructor for a config with [maxSize: configured]: no pools,
    all counters zero. [this.config] is
    [{ maxSize: config.maxSize || 1000, ..., ...config }], and the
    spread puts the configured value, zero included, back over the
    default. A config without [maxSize] gives 1000, which is
    [empty 1000]. *)
Definition empty (configured : nat) : memory_pool :=
  {| maxSize := configured;
     pools := ∅;
     pool_metrics := {| hits := 0; misses := 0; creates := 0; reuses := 0;
                        cleanups := 0; totalObjects := 0 |};
     heap := ∅ |}.

(** The available list and the active set kept under a type tag; both
    are empty for a tag without a pool. *)
Definition available_of (m : memory_pool) (type : jsstring) : list pooled :=
  match pools m !! type with
  | Some p => available p
  | None => []
  end.

Definition active_of (m : memory_pool) (type : jsstring) : list pooled :=
  match pools m !! type with
  | Some p => active p
  | None => []
  end.

(** [payload] is checked out under [type]. *)
Definition checked_out (m : memory_pool) (type : jsstring) (payload : nat)
  : Prop :=
  exists o, o ∈ active_of m type /\ data o = payload.

(** A release that does nothing at all. *)
Definition leaves_unchanged (m : memory_pool) (type : jsstring)
    (payload : nat) : Prop :=
  forall resetFn now, release type payload resetFn now m = (Returned false, m).

(** A pool from which one message object was taken (at time 1) and given
    back (at time 2): a second release of the same payload is a double
    release. *)
Definition after_one_release : memory_pool :=
  snd (release (lit "message") 1 None 2
         (snd (get (lit "message")
                   (ObjectOf [(lit "type", lit "text")])
                   1 (lit "pool_1_abc") 1 (empty 1000)))).

End MemoryPool.

(** ** EventBus: runs of the bus, and the retries of an emit *)

Module EventFlow.
Import Js EventBus.

(** The constructor: an empty buffer and [bufferSize = 100]. *)
Definition new_bus : bus :=
  {| eventBuffer := []; bufferSize := 100; dispatched := [] |}.

(** What runs on a bus: a call of [emitBuffered], or the [flushBuffer]
    of the interval timer. *)
Inductive action : Type :=
| Emit (name : jsstring) (fresh : nat) (prio : option priority)
| Flush.

Definition act (b : bus) (a : action) : bus :=
  match a with
  | Emit name fresh prio => emitBuffered name fresh prio b
  | Flush => flushBuffer b
  end.

Definition drive (b : bus) (acts : list action) : bus := fold_left act acts b.

(** The [eventData] that [emitBuffered] builds. *)
Definition built (name : jsstring) (fresh : nat) (prio : option priority)
  : eventData :=
  {| event := name; id := fresh; priority_of := default Normal prio;
     retryCount := 0 |}.

(** The events the actions emit, in order. *)
Definition emitted (acts : list action) : list eventData :=
  flat_map (fun a => match a with
                     | Emit name fresh prio => [built name fresh prio]
                     | Flush => []
                     end) acts.

(** Examples: an event published under each rank, one whose priority
    is the name 'constructor', a buffer that mixes the ranks, and three
    emits that leave their events waiting. *)
Definition critical_event : eventData :=
  {| event := lit "message.added"; id := 3; priority_of := Critical;
     retryCount := 0 |}.



Definition inherited_event : eventData :=
  {| event := lit "message.added"; id := 6; priority_of := Inherited;
     retryCount := 0 |}.



(** What a call of [emitWithRetry] did. *)
Record retried : Type := mkRetried {
  (** [true]: returned; [false]: threw [lastError] *)
  returned : bool;
  (** the calls of [this.emit] *)
  attempts : nat;
  (** [eventData.retryCount] at the end *)
  lastRetryCount : nat;
  (** the arguments of [this.delay], in order *)
  delays : list N
}.

(** The loop [for (let retry = 0; retry <= maxRetries; retry++)], from
    the round numbered [retry] on. [throws retry] says whether
    [this.emit] throws in that round; [rounds] is the number of rounds
    left, [maxRetries + 1 - retry]; [count] is [eventData.retryCount].
    The delays are whole numbers of milliseconds. *)
Fixpoint retry_loop (rounds retry maxRetries : nat) (retryDelay : N)
    (throws : nat -> bool) (count : nat) : retried :=
  match rounds with
  | O => {| returned := false; attempts := 0; lastRetryCount := count;
            delays := [] |}
  | S rounds' =>
      if throws retry then
        let r := retry_loop rounds' (S retry) maxRetries retryDelay throws
                            (S retry) in
        {| returned := returned r;
           attempts := S (attempts r);
           lastRetryCount := lastRetryCount r;
           delays :=
             (if (retry <? maxRetries)%nat
              then [(retryDelay * 2 ^ N.of_nat retry)%N] else [])
             ++ delays r |}
      else {| returned := true; attempts := 1; lastRetryCount := count;
              delays := [] |}
  end.

(** [emitWithRetry(event, data, eventData)]. *)
Definition emitWithRetry (maxRetries : nat) (retryDelay : N)
    (throws : nat -> bool) (e : eventData) : retried :=
  retry_loop (S maxRetries) 0 maxRetries retryDelay throws (retryCount e).

(** The waits of an exponential back-off: [retryDelay * 2^k] for the
    rounds [from], ..., [from + n - 1]. *)
Definition backoff (retryDelay : N) (from n : nat) : list N :=
  List.map (fun k => (retryDelay * 2 ^ N.of_nat k)%N) (seq from n).

Definition total (l : list N) : N := fold_right N.add 0%N l.

End EventFlow.

(** ** DatabaseManagerOptimized: what the pool's log accounts for *)

Module PoolAccounting.
Import ConnectionPool.

(** The number of connections that are checked out. *)
Definition in_use_count (p : pool) : Z :=
  Z.of_nat (length (List.filter inUse (connections p))).

(** How often the log [granted] hands out connection [i]. *)
Definition grants_of (i : nat) (log : list (nat * nat)) : nat :=
  length (List.filter (fun g => (snd g =? i)%nat) log).

(** How often a schedule releases connection [i]. *)
Definition releases_of (i : nat) (ls : list label) : nat :=
  length (List.filter (fun l => match l with
                                | Release j => (j =? i)%nat
                                | _ => false
                                end) ls).

(** 1 when connection [i] exists and is checked out, else 0. *)
Definition held (p : pool) (i : nat) : nat :=
  match connections p !! i with
  | Some c => if inUse c then 1 else 0
  | None => 0
  end.

(** The schedule in which the callers [cs] call [getConnection] one
    after the other and then the connections [conns] are released in that
    order. *)
Definition queue_then_release (cs conns : list nat) : list label :=
  List.map Acquire cs ++ List.map Release conns.

(** Every connection is in use and the pool has reached its maximum. *)
Definition exhausted (p : pool) : Prop :=
  Forall (fun c => inUse c = true) (connections p)
  /\ (maxConnections p <= length (connections p))%nat.

End PoolAccounting.

(** ** PatternDetector: the indicator that resolves itself *)

Module ProblemPatterns.
Import Js PatternDetector.

(** The indicator [não funciona]. *)
Definition nao_funciona : jsstring := lit "n" ++ [227%N] ++ lit "o funciona".

End ProblemPatterns.

(** ** PatternDetector: solution attempts *)

Module SolutionAttempts.
Import Js PatternDetector.

Inductive attempt_type : Type := Code | Command | Testing | OtherType.

Inductive attempt_result : Type := Success | Failure | Unknown.

#[global] Instance attempt_result_eq_dec : EqDecision attempt_result.
Proof. solve_decision. Defined.

(** [classifyAttemptType]. *)
Definition classifyAttemptType (content : jsstring) : attempt_type :=
  if includes content (lit "```") then Code
  else if includes content (lit "$ ") || includes content (lit "npm ")
          || includes content (lit "git ") then Command
  else if includes content (lit "test") || includes content (lit "debug")
  then Testing
  else OtherType.

(** [classifyAttemptResult]. *)
Definition classifyAttemptResult (content : jsstring) : attempt_result :=
  let contentLower := toLowerCase content in
  if includes contentLower (lit "sucesso")
     || includes contentLower (lit "funciona") then Success
  else if includes contentLower (lit "erro")
          || includes contentLower (lit "falha") then Failure
  else Unknown.

(** [currentAttempt] before its result is known. *)
Record opened : Type := mkOpened {
  attempt_id : jsstring;
  startIndex : nat;
  type : attempt_type;
  attempt_content : jsstring
}.

(** An element of [attempts]. *)
Record attempt : Type := mkAttempt {
  opening : opened;
  endIndex : nat;
  result : attempt_result;
  duration : nat
}.

(** The test that opens an attempt: code or a command. *)
Definition shows_attempt (content : jsstring) : bool :=
  includes content (lit "```") || includes content (lit "$ ")
  || includes content (lit "npm ") || includes content (lit "git ").

(** The test that closes it. *)
Definition shows_result (content : jsstring) : bool :=
  includes content (lit "sucesso") || includes content (lit "erro")
  || includes content (lit "falha").

(** The body of [messages.forEach]. *)
Definition visit (st : list attempt * option opened) (im : nat * message)
  : list attempt * option opened :=
  let (index, msg) := im in
  let content := content_of msg in
  let (attempts, currentAttempt) := st in
  let currentAttempt :=
    if shows_attempt content then
      match currentAttempt with
      | None =>
          Some {| attempt_id :=
                    lit "attempt_" ++ of_nat_string (length attempts + 1);
                  startIndex := index;
                  type := classifyAttemptType content;
                  attempt_content := firstn 100 content |}
      | Some _ => currentAttempt
      end
    else currentAttempt in
  match currentAttempt with
  | Some a =>
      if shows_result content then
        (attempts ++ [{| opening := a;
                         endIndex := index;
                         result := classifyAttemptResult content;
                         duration := index - startIndex a |}],
         None)
      else (attempts, currentAttempt)
  | None => (attempts, currentAttempt)
  end.

Record solutionAttempts : Type := mkSolutionAttempts {
  totalAttempts : nat;
  successfulAttempts : nat;
  failedAttempts : nat;
  attempts : list attempt
}.

Definition analyzeSolutionAttempts (messages : list message)
  : solutionAttempts :=
  let attempts :=
    fst (fold_left visit (combine (seq 0 (length messages)) messages)
                   ([], None)) in
  {| totalAttempts := length attempts;
     successfulAttempts :=
       length (List.filter (fun a => bool_decide (result a = Success)) attempts);
     failedAttempts :=
       length (List.filter (fun a => bool_decide (result a = Failure)) attempts);
     attempts := attempts |}.

End SolutionAttempts.

(** ** PatternDetector: the evolution of topics *)

Module TopicEvolution.
Import Js PatternDetector.

Definition technicalTopics : list jsstring :=
  [lit "javascript"; lit "python"; lit "database"; lit "api";
   lit "frontend"; lit "backend"; lit "testing"; lit "deployment";
   lit "architecture"; lit "performance"; lit "security"].

(** [extractTopicsFromWindow]. *)
Definition extractTopicsFromWindow (messages : list message)
  : list jsstring :=
  let content :=
    toLowerCase (join (lit " ") (List.map content_of messages)) in
  List.filter (fun topic => includes content topic) technicalTopics.

Record topicWindow : Type := mkTopicWindow {
  window : nat;
  topics : list jsstring;
  messageCount : nat
}.

(** [Math.max(3, Math.floor(messages.length / 4))]. *)
Definition windowSize (n : nat) : nat := Nat.max 3 (n / 4).

(** [array.slice(i, j)] for [i <= j]. *)
Definition slice {A : Type} (i j : nat) (l : list A) : list A :=
  firstn (j - i) (skipn i l).

(** The loop [for (let i = 0; i < messages.length; i += windowSize)],
    from [i] on; [fuel] bounds the number of turns. [i] is a multiple of
    [windowSize], so that the quotient [i / windowSize] is a whole
    number. *)
Fixpoint windows_from (fuel w i : nat) (messages : list message)
  : list topicWindow :=
  match fuel with
  | O => []
  | S fuel' =>
      if (i <? length messages)%nat then
        let win := slice i (i + w) messages in
        {| window := i / w + 1;
           topics := extractTopicsFromWindow win;
           messageCount := length win |}
        :: windows_from fuel' w (i + w) messages
      else []
  end.

Definition analyzeTopicEvolution (messages : list message)
  : list topicWindow :=
  windows_from (length messages) (windowSize (length messages)) 0 messages.

End TopicEvolution.

(** ** ConversationAnalyzer: recurring themes *)

Module RecurringThemes.
Import Js Dict ConversationAnalyzer.

Definition themes : list jsstring :=
  [lit "performance"; lit "seguran" ++ [231%N] ++ lit "a"; lit "testes";
   lit "deploy"; lit "monitoring"; lit "escalabilidade";
   lit "manutenibilidade"; lit "legibilidade";
   lit "reutiliza" ++ [231%N; 227%N] ++ lit "o"].

(** [themeCount], a [Map]: its entries in insertion order. The body of
    [themes.forEach]:
    [themeCount.set(theme, (themeCount.get(theme) || 0) + 1)]. *)
Definition tick (content : jsstring) (themeCount : dict (V := nat))
    (theme : jsstring) : dict (V := nat) :=
  if includes content theme
  then put themeCount theme (default 0%nat (own themeCount theme) + 1)%nat
  else themeCount.

(** The body of [messages.forEach]. *)
Definition count_message (themeCount : dict (V := nat)) (msg : message)
  : dict (V := nat) :=
  fold_left (tick (toLowerCase (content_of msg))) themes themeCount.

Record recurring : Type := mkRecurring {
  theme : jsstring;
  count : nat
}.

(** [findRecurringThemes]; for no message at all the early [return []]
    gives what the rest of the function would. *)
Definition findRecurringThemes (messages : list message) : list recurring :=
  List.map (fun e => {| theme := fst e; count := snd e |})
           (firstn 5 (sort (fun a b => (snd a <? snd b)%nat)
                           (fold_left count_message messages []))).

(** The number of messages that mention a theme. *)
Definition mentions (th : jsstring) (messages : list message) : nat :=
  length (List.filter (fun m => includes (toLowerCase (content_of m)) th)
                      messages).

End RecurringThemes.

(** ** ConversationAnalyzer: durations *)

Module Durations.
Import Js.

(** [String(n)] for an integer [n]. *)
Definition of_Z_string (z : Z) : jsstring :=
  if z <? 0 then lit "-" ++ of_nat_string (Z.abs_nat z)
  else of_nat_string (Z.to_nat z).

(** [Math.floor(ms / 60000)], for a whole number of milliseconds (below
    2^50, where the quotient of the two numbers rounds to the same
    floor). *)
Definition minutes_of (ms : Z) : Z := ms / 60000.

(** [Math.floor((ms % 60000) / 1000)]: [%] takes the sign of the
    dividend. *)
Definition seconds_of (ms : Z) : Z := Z.rem ms 60000 / 1000.

(** [formatDuration]. *)
Definition formatDuration (ms : Z) : jsstring :=
  of_Z_string (minutes_of ms) ++ lit "m "
  ++ of_Z_string (seconds_of ms) ++ lit "s".

End Durations.

(** ** StreamProcessor: the load of the workers *)

Module WorkerLoad.
Import Js StreamProcessor.

Definition idle : worker := {| jobCount := 0 |}.

(** The number of [executeWorkerTask] calls among the events. *)
Definition submits (evs : list event) : nat :=
  length (List.filter (fun ev => match ev with Submit _ => true | _ => false end)
                      evs).

(** The tasks whose reply has not arrived: their [messageHandler] is
    still registered on the worker. *)
Definition unanswered (p : processor) : nat :=
  size (filter (fun kt => listening (snd kt) = true) (tasks p)).

End WorkerLoad.

(** ** MemoryPool: cleanup, clear and sequences of calls *)

Module PoolUpkeep.
Import Js MemoryPool.

(** The sum of a per-pool count over [this.pools], as [getStats] and
    [clear] accumulate it in a [for ... of] loop; the order of the
    iteration does not matter to a sum. *)
Definition tally (w : typed_pool -> nat) (ps : gmap jsstring typed_pool)
  : nat :=
  map_fold (fun _ p acc => (acc + w p)%nat) 0%nat ps.

(** [getStats().totals]: [available] and [active]. *)
Definition totalAvailable (m : memory_pool) : nat :=
  tally (fun p => length (available p)) (pools m).

Definition totalActive (m : memory_pool) : nat :=
  tally (fun p => length (active p)) (pools m).

(** [age > this.config.maxAge] with [age = now - obj.lastUsed]. *)
Definition expired (maxAge : Z) (now : N) (o : pooled) : bool :=
  maxAge <? Z.of_N now - Z.of_N (lastUsed o).

(** What [cleanup] does to one pool: the filter of [available]. *)
Definition sweep (maxAge : Z) (now : N) (p : typed_pool) : typed_pool :=
  {| available := List.filter (fun o => negb (expired maxAge now o))
                              (available p);
     active := active p;
     pool_created := pool_created p |}.

(** [pool.available.length === 0 && pool.active.size === 0]. *)
Definition unused (p : typed_pool) : bool :=
  (length (available p) =? 0)%nat && (length (active p) =? 0)%nat.

(** [cleanup()] at time [now]: the count it returns and the pool it
    leaves. *)
Definition cleanup (maxAge : Z) (now : N) (m : memory_pool)
  : nat * memory_pool :=
  let cleanedCount :=
    tally (fun p => length (List.filter (expired maxAge now) (available p)))
          (pools m) in
  (cleanedCount,
   {| maxSize := maxSize m;
      pools := filter (fun kp => unused (snd kp) = false)
                      (sweep maxAge now <$> pools m);
      pool_metrics :=
        {| hits := hits (pool_metrics m);
           misses := misses (pool_metrics m);
           creates := creates (pool_metrics m);
           reuses := reuses (pool_metrics m);
           cleanups := S (cleanups (pool_metrics m));
           totalObjects :=
             totalObjects (pool_metrics m) - Z.of_nat cleanedCount |};
      heap := heap m |}).

(** [clear()]. *)
Definition clear (m : memory_pool) : nat * memory_pool :=
  let clearedCount := tally (fun p => length (available p)) (pools m) in
  (clearedCount,
   {| maxSize := maxSize m;
      pools := (fun p => {| available := []; active := active p;
                            pool_created := pool_created p |})
               <$> pools m;
      pool_metrics :=
        {| hits := hits (pool_metrics m);
           misses := misses (pool_metrics m);
           creates := creates (pool_metrics m);
           reuses := reuses (pool_metrics m);
           cleanups := cleanups (pool_metrics m);
           totalObjects :=
             totalObjects (pool_metrics m) - Z.of_nat clearedCount |};
      heap := heap m |}).

(** The objects a pool holds. *)
Definition held_objects (p : typed_pool) : nat :=
  (length (available p) + length (active p))%nat.

(** The calls a client or the cleanup timer makes, each at a time
    [now]. *)
Inductive call : Type :=
| Get (type : jsstring) (factory : contents) (fresh : nat)
      (fresh_id : jsstring)
| Release (type : jsstring) (payload : nat)
          (resetFn : option (contents -> ending))
| Cleanup
| Clear.

Definition perform (maxAge : Z) (m : memory_pool) (c : call * N)
  : memory_pool :=
  match fst c with
  | Get type factory fresh fresh_id =>
      snd (get type factory fresh fresh_id (snd c) m)
  | Release type payload resetFn =>
      snd (release type payload resetFn (snd c) m)
  | Cleanup => snd (cleanup maxAge (snd c) m)
  | Clear => snd (clear m)
  end.

Definition history (maxAge : Z) (m : memory_pool) (cs : list (call * N))
  : memory_pool :=
  fold_left (perform maxAge) cs m.

(** The call throws: it is a [release] whose reset throws. *)
Definition fails (m : memory_pool) (c : call * N) : bool :=
  match fst c with
  | Release type payload resetFn =>
      threw (fst (release type payload resetFn (snd c) m))
  | _ => false
  end.

(** The number of calls of a history that threw. *)
Fixpoint thrown (maxAge : Z) (m : memory_pool) (cs : list (call * N)) : nat :=
  match cs with
  | [] => 0
  | c :: cs' =>
      ((if fails m c then 1 else 0) + thrown maxAge (perform maxAge m c) cs')%nat
  end.

(** A message object with an own property named 'hasOwnProperty' is
    taken from a new pool and given back with the default reset. *)
Definition unresettable : contents :=
  ObjectOf [(lit "hasOwnProperty", lit "x")].

Definition take_and_give_back : list (call * N) :=
  [(Get (lit "message") unresettable 1 (lit "pool_1_abc"), 1%N);
   (Release (lit "message") 1 None, 2%N)].

End PoolUpkeep.

(** ** StreamProcessor: the topics of the worker *)

Module WorkerTopics.
Import Js Dict Worker.

(** [conversation.messages.map(m => m.content).join(' ').toLowerCase()],
    the text in which [analyzeConversation] looks for its topics; the
    empty text for a payload without messages. *)
Definition content_text (conversation : payload) : jsstring :=
  toLowerCase
    (join (lit " ")
          (List.map (fun m => default [] (content m))
                    (default [] (messages conversation)))).

(** A word boundary at the end of [pre] and at the start of [post]: no
    word character stands there. *)
Definition boundary_before (pre : jsstring) : bool :=
  match rev pre with
  | [] => true
  | c :: _ => negb (is_word_char c)
  end.

Definition boundary_after (post : jsstring) : bool :=
  match post with
  | [] => true
  | c :: _ => negb (is_word_char c)
  end.

(** [w] is a match of [/\b\w{4,}\b/] in [text]: four or more word
    characters that stand in the text between two word boundaries. *)
Definition whole_word (text w : jsstring) : Prop :=
  (4 <= length w)%nat
  /\ forallb is_word_char w = true
  /\ exists pre post,
       text = pre ++ w ++ post
       /\ boundary_before pre = true
       /\ boundary_after post = true.

(** The payload of a short exchange. *)
Definition deploy_payload : payload :=
  {| id := Some (lit "c2");
     messages :=
       Some [{| sender := lit "user";
                content := Some (lit "Deploy failed: the deploy script") |};
             {| sender := lit "assistant";
                content := Some (lit "Run the script again") |}];
     conversationId := Some (lit "c2");
     messageCount := Some 2%nat;
     topics := None |}.

End WorkerTopics.

(** * Properties *)

(** ** The stable sort *)

Module JsFacts.
Import Js.

Lemma insert_sorted_permutation {A : Type} (positive : A -> A -> bool)
    (x : A) (l : list A) :
  Permutation (insert_sorted positive x l) (x :: l).
Proof.
  induction l as [|y l IH]; simpl; [reflexivity|].
  destruct (positive x y); [|reflexivity].
  rewrite IH. apply perm_swap.
Qed.

Lemma sort_permutation {A : Type} (positive : A -> A -> bool) (l : list A) :
  Permutation (sort positive l) l.
Proof.
  induction l as [|x l IH]; simpl; [reflexivity|].
  unfold sort in IH. rewrite insert_sorted_permutation.
  now apply perm_skip.
Qed.

Lemma sort_length {A : Type} (positive : A -> A -> bool) (l : list A) :
  length (sort positive l) = length l.
Proof. apply Permutation_length, sort_permutation. Qed.

(** The sort reads its comparator on the elements of the list only. *)
Lemma insert_sorted_ext_in {A : Type} (p q : A -> A -> bool) (x : A)
    (l : list A) :
  (forall y, In y l -> p x y = q x y) ->
  insert_sorted p x l = insert_sorted q x l.
Proof.
  induction l as [|y l IH]; intros H; [reflexivity|].
  cbn [insert_sorted]. rewrite (H y) by (left; reflexivity).
  rewrite IH; [reflexivity|]. intros z Hz. apply H. right. exact Hz.
Qed.

Lemma sort_ext_in {A : Type} (p q : A -> A -> bool) (l : list A) :
  (forall a b, In a l -> In b l -> p a b = q a b) ->
  sort p l = sort q l.
Proof.
  induction l as [|x l IH]; intros H; [reflexivity|].
  change (sort p (x :: l)) with (insert_sorted p x (sort p l)).
  change (sort q (x :: l)) with (insert_sorted q x (sort q l)).
  rewrite IH by (intros a b Ha Hb; apply H; right; assumption).
  apply insert_sorted_ext_in. intros y Hy. apply H; [left; reflexivity|].
  right. eapply Permutation_in; [apply sort_permutation|exact Hy].
Qed.

Section ByKey.
Context {A : Type}.
Variable key : A -> Z.
Variable positive : A -> A -> bool.
(** The comparator is positive exactly when the first argument has the
    smaller key: the sort is by descending key. *)
Hypothesis positive_key : forall a b, positive a b = (key a <? key b).

Lemma insert_sorted_descending (x : A) (l : list A) :
  StronglySorted (descending key) l ->
  StronglySorted (descending key) (insert_sorted positive x l).
Proof using positive_key.
  induction 1 as [|y l Hs IH Hy]; simpl.
  - repeat constructor.
  - rewrite positive_key. destruct (Z.ltb_spec (key x) (key y)) as [Hlt|Hge].
    + constructor; [exact IH|].
      eapply Permutation_Forall;
        [symmetry; apply insert_sorted_permutation|].
      constructor; [unfold descending; lia | exact Hy].
    + constructor; [constructor; assumption|].
      constructor; [exact Hge|].
      eapply Forall_impl; [exact Hy|].
      unfold descending. intros; lia.
Qed.

Lemma sort_descending (l : list A) :
  StronglySorted (descending key) (sort positive l).
Proof using positive_key.
  induction l as [|x l IH]; simpl; [constructor|].
  now apply insert_sorted_descending.
Qed.



End ByKey.

End JsFacts.

(** ** EventBus *)

Module EventBusFacts.
Import Js JsFacts EventBus.


(** An inherited name on either side makes the comparison [NaN]. *)
Lemma comparator_inherited (a b : eventData) :
  ~ ranked a \/ ~ ranked b -> comparator a b = None.
Proof.
  unfold ranked, comparator.
  destruct (priority_of a), (priority_of b); intros [H|H];
    try reflexivity; exfalso; apply H; discriminate.
Qed.



(** The effective rank merges two tiers: [low] is 0 in the table and
    [0 || 1] is 1, the rank of [normal]. *)
Lemma low_ranks_as_normal (e : eventData) :
  priority_of e = Low -> effective_rank e = 1 /\ tier e = 0.
Proof. intros H. unfold effective_rank, tier. now rewrite H. Qed.

(** C2. A batch in which a [low] event was enqueued before a [normal]
    event is dispatched in that order: the low event first. The
    specification wants every normal event before every low one. *)
Theorem low_event_dispatched_before_normal :
  dispatched
    (flushBuffer {| eventBuffer := [low_event; normal_event];
                    bufferSize := 100;
                    dispatched := [] |})
  = [low_event; normal_event]
  /\ tier low_event < tier normal_event.
Proof. split; reflexivity. Qed.

End EventBusFacts.

(** ** The connection pool *)

Module ConnectionPoolFacts.
Import ConnectionPool.

Lemma find_idle_none (l : list connection) :
  find_idle l = None <-> Forall (fun c => inUse c = true) l.
Proof.
  induction l as [|c l IH]; simpl.
  - split; [constructor | reflexivity].
  - destruct (inUse c) eqn:E.
    + destruct (find_idle l); simpl.
      * split; [discriminate|]. intros H. inversion H; subst.
        now apply IH in H3.
      * split; [|reflexivity]. intros _. constructor; [exact E|].
        now apply IH.
    + split; [discriminate|]. intros H. inversion H; congruence.
Qed.

(** An acquire that finds every connection in use and the pool at its
    maximum joins the end of the queue; no connection is created. *)
Lemma saturated_acquire_is_queued (c : nat) (p : pool) :
  Forall (fun x => inUse x = true) (connections p) ->
  (maxConnections p <= length (connections p))%nat ->
  connections (getConnection c p) = connections p
  /\ creating (getConnection c p) = creating p
  /\ granted (getConnection c p) = granted p
  /\ waitingQueue (getConnection c p) = waitingQueue p ++ [c].
Proof.
  intros Hbusy Hfull. apply find_idle_none in Hbusy.
  unfold getConnection. rewrite Hbusy.
  destruct (Nat.ltb_spec (length (connections p)) (maxConnections p));
    [lia|]. now simpl.
Qed.

(** A release with callers waiting hands the same connection to the one
    that has waited longest. *)
Lemma release_serves_oldest_waiter (i waiter : nat) (rest : list nat)
    (p : pool) :
  waitingQueue p = waiter :: rest ->
  waitingQueue (releaseConnection i p) = rest
  /\ granted (releaseConnection i p) = granted p ++ [(waiter, i)]
  /\ length (connections (releaseConnection i p)) = length (connections p)
  /\ activeConnections (releaseConnection i p) = activeConnections p.
Proof.
  intros H. unfold releaseConnection. rewrite H.
  cbn [waitingQueue granted connections activeConnections].
  repeat split; [apply length_alter | lia].
Qed.

Lemma serial_step_room (p p' : pool) (l : label) (ls : list label) :
  room p -> step p l = Some p' -> serial p (l :: ls) ->
  room p' /\ serial p' ls.
Proof.
  intros Hroom Hstep Hserial. cbn [serial] in Hserial.
  rewrite Hstep in Hserial.
  destruct Hroom as [[Hc Hlen]|[c [Hc Hlen]]]; rewrite Hc in Hserial.
  - destruct l as [c|c|c|i]; try contradiction; split; try exact Hserial.
    + cbn [step] in Hstep. injection Hstep as <-.
      unfold getConnection, room.
      destruct (find_idle (connections p)) as [i|];
        cbn [creating connections maxConnections].
      * left. rewrite length_alter. auto.
      * destruct (Nat.ltb_spec (length (connections p)) (maxConnections p));
          cbn [creating connections maxConnections].
        -- right. exists c. rewrite Hc. auto.
        -- left. auto.
    + cbn [step] in Hstep.
      destruct (connections p !! i) as [x|]; [|discriminate].
      destruct (inUse x); [|discriminate]. injection Hstep as <-.
      unfold releaseConnection, room. left.
      destruct (waitingQueue p); cbn [creating connections maxConnections];
        rewrite length_alter; auto.
  - destruct l as [c'|c'|c'|i]; try contradiction;
      destruct Hserial as [-> Hserial]; (split; [|exact Hserial]);
      cbn [step] in Hstep; rewrite Hc in Hstep;
      (destruct (bool_decide _); [|discriminate]); injection Hstep as <-;
      left; unfold connectionCreated, connectionFailed;
      cbn [creating connections maxConnections]; rewrite Hc;
      cbn [remove_first]; rewrite Nat.eqb_refl;
      (split; [reflexivity|]).
    + rewrite length_app. simpl. lia.
    + lia.
Qed.

(** As long as no other call runs between an executor's check of the
    length and its push, the pool never holds more than
    [maxConnections] connections. *)
Lemma serial_schedule_respects_maximum (ls : list label) (p p' : pool) :
  room p -> serial p ls -> run p ls = Some p' ->
  (length (connections p') <= maxConnections p')%nat.
Proof.
  revert p. induction ls as [|l ls IH]; intros p Hroom Hserial Hrun.
  - simpl in *. injection Hrun as <-.
    destruct Hroom as [[_ H]|[c [Hc _]]]; [exact H|congruence].
  - simpl in Hrun. destruct (step p l) as [p1|] eqn:Hstep; [|discriminate].
    destruct (serial_step_room p p1 l ls Hroom Hstep Hserial) as [H1 H2].
    eauto.
Qed.

(** C1. Six calls of [getConnection] issued together on a pool with the
    default maximum of five: two reuse the idle connections, the other
    four each see [connections.length = 2 < 5] before any of them has
    pushed, and all four push. The pool ends with six live connections. *)
Theorem concurrent_acquires_exceed_maximum :
  (fun p => (maxConnections p, length (connections p), waitingQueue p))
    <$> run (initial 0)
            [Acquire 1; Acquire 2; Acquire 3; Acquire 4; Acquire 5;
             Acquire 6; Created 3; Created 4; Created 5; Created 6]
  = Some (5%nat, 6%nat, []).
Proof. vm_compute. reflexivity. Qed.

End ConnectionPoolFacts.

(** ** Problem-solving episodes *)

Module ProblemSolvingFacts.
Import Js ConversationAnalyzer.

Lemma visit_sequential (s : progress) (msg : message) :
  sequential s -> sequential (visit s msg).
Proof.
  unfold visit. generalize (toLowerCase (content_of msg)). intros text.
  unfold sequential, close_problem, count_attempt, open_problem.
  destruct s as [[a b c d] cur att].
  destruct (mentions_problem text), (includes text (lit "```")),
    (mentions_resolution text), cur; simpl; lia.
Qed.

Lemma episodes_never_nest (messages : list message) (p : patterns) :
  analyzeProblemSolving messages = Some p ->
  (successfulResolution p <= problemIdentification p
   <= successfulResolution p + 1)%nat.
Proof.
  unfold analyzeProblemSolving. destruct messages as [|m ms]; [discriminate|].
  intros [= <-].
  assert (sequential (fold_left visit (m :: ms) start)) as H.
  { generalize (m :: ms). intros l.
    assert (sequential start) as H0 by reflexivity.
    revert H0. generalize start. induction l as [|x l IH]; intros s Hs.
    - exact Hs.
    - simpl. apply IH, visit_sequential, Hs. }
  unfold sequential in H. cbn [fold_left] in *.
  destruct (currentProblem _); lia.
Qed.

(** C5, as the specification states it: it does not hold. The words of
    the example are English; the analyzer counts an attempt only for a
    message with a code fence and closes a problem only on "funciona"
    or "resolvido". *)
Lemma reported_conversation_has_no_episode :
  ~ one_episode 2 (analyzeProblemSolving reported_conversation).
Proof.
  intros [p [H [_ [Hres _]]]]. vm_compute in H. injection H as <-.
  discriminate Hres.
Qed.

Lemma visit_rules (s : progress) (msg : message) :
  let text := toLowerCase (content_of msg) in
  let opens := mentions_problem text && negb (currentProblem s) in
  let open := currentProblem s || mentions_problem text in
  let tried := open && includes text (lit "```") in
  let closes := open && mentions_resolution text in
  let s' := visit s msg in
  problemIdentification (counters s')
  = (problemIdentification (counters s) + if opens then 1 else 0)%nat
  /\ solutionAttempts (counters s')
     = (solutionAttempts (counters s) + if tried then 1 else 0)%nat
  /\ attempts s'
     = ((if opens then 0 else attempts s) + if tried then 1 else 0)%nat
  /\ successfulResolution (counters s')
     = (successfulResolution (counters s) + if closes then 1 else 0)%nat
  /\ iterationCount (counters s')
     = (iterationCount (counters s) + if closes then attempts s' else 0)%nat
  /\ currentProblem s' = open && negb (mentions_resolution text).
Proof.
  unfold visit. generalize (toLowerCase (content_of msg)). intros text.
  unfold close_problem, count_attempt, open_problem.
  destruct s as [[a b c d] cur att].
  destruct (mentions_problem text), (includes text (lit "```")),
    (mentions_resolution text), cur; simpl; repeat split; lia.
Qed.

(** The attempts and the resolutions counted over a run of messages are
    bounded by the messages with a code fence and by the messages with
    a resolution word. *)
Lemma visits_bounded (l : list message) :
  forall s : progress,
    (solutionAttempts (counters (fold_left visit l s))
     <= solutionAttempts (counters s)
        + length (List.filter
                    (fun m => includes (toLowerCase (content_of m))
                                       (lit "```")) l))%nat
    /\ (successfulResolution (counters (fold_left visit l s))
        <= successfulResolution (counters s)
           + length (List.filter
                       (fun m => mentions_resolution
                                   (toLowerCase (content_of m))) l))%nat.
Proof.
  induction l as [|m l IH]; intros s; [cbn; lia|].
  cbn [fold_left List.filter]. destruct (IH (visit s m)) as [H1 H2].
  destruct (visit_rules s m) as (_ & K1 & _ & K2 & _).
  cbv zeta in K1, K2. rewrite K1 in H1. rewrite K2 in H2.
  destruct (currentProblem s || mentions_problem _),
    (includes (toLowerCase (content_of m)) (lit "```")),
    (mentions_resolution (toLowerCase (content_of m)));
    cbn [andb length] in *; lia.
Qed.

(** C5, amended. On the conversation of the example one problem is
    identified ("erro" occurs in "error"), it is never resolved and no
    iteration is counted, in [analyzeProblemSolving] as in
    [identifyProblemPatterns]; on the same exchange written with a code
    fence in the two attempts and "funciona" in the last message,
    exactly one episode with two iterations is recorded. The rules
    behind this hold for every message and every state of the loop: a
    problem is open for a message when one was open before or the
    lower-cased content has "erro", "problema" or "não funciona"; an
    attempt is counted exactly when a problem is open and the content
    has a code fence; the problem is closed, and its attempts are added
    to the iteration count, exactly when a problem is open and the
    content has "funciona" or "resolvido". So the attempts of any
    conversation are at most its messages with a code fence, and its
    resolutions at most its messages with a resolution word. *)
Theorem reported_conversation_problem_stays_open :
  analyzeProblemSolving reported_conversation
  = Some {| problemIdentification := 1; solutionAttempts := 0;
            successfulResolution := 0; iterationCount := 0 |}
  /\ (let r := PatternDetector.identifyProblemPatterns
                 (PatternDetector.conversation
                    ["error happened"; "trying fix"; "trying fix2";
                     "it works now"]%string) in
      (PatternDetector.totalProblems r, PatternDetector.openProblems r,
       PatternDetector.resolvedProblems r) = (1, 1, 0)%nat)
  /\ one_episode 2 (analyzeProblemSolving recognised_conversation)
  /\ (forall (s : progress) (msg : message),
        let text := toLowerCase (content_of msg) in
        let opens := mentions_problem text && negb (currentProblem s) in
        let open := currentProblem s || mentions_problem text in
        let tried := open && includes text (lit "```") in
        let closes := open && mentions_resolution text in
        let s' := visit s msg in
        problemIdentification (counters s')
        = (problemIdentification (counters s) + if opens then 1 else 0)%nat
        /\ solutionAttempts (counters s')
           = (solutionAttempts (counters s) + if tried then 1 else 0)%nat
        /\ attempts s'
           = ((if opens then 0 else attempts s) + if tried then 1 else 0)%nat
        /\ successfulResolution (counters s')
           = (successfulResolution (counters s) + if closes then 1 else 0)%nat
        /\ iterationCount (counters s')
           = (iterationCount (counters s)
              + if closes then attempts s' else 0)%nat
        /\ currentProblem s' = open && negb (mentions_resolution text))
  /\ (forall (messages : list message) (p : patterns),
        analyzeProblemSolving messages = Some p ->
        (solutionAttempts p
         <= length (List.filter
                      (fun m => includes (toLowerCase (content_of m))
                                         (lit "```")) messages))%nat
        /\ (successfulResolution p
            <= length (List.filter
                         (fun m => mentions_resolution
                                     (toLowerCase (content_of m)))
                         messages))%nat
        /\ (iterationCount p <= solutionAttempts p)%nat).
Proof.
  split; [vm_compute; reflexivity|]. split; [vm_compute; reflexivity|].
  split; [eexists; split; [vm_compute; reflexivity|]; repeat split|].
  split; [exact visit_rules|].
  intros messages p. unfold analyzeProblemSolving.
  destruct messages as [|m ms]; [discriminate|]. intros [= <-].
  destruct (visits_bounded (m :: ms) start) as [H1 H2].
  split; [exact H1|]. split; [exact H2|].
  assert (H : forall l s,
             (iterationCount (counters s)
              + (if currentProblem s then attempts s else 0)
              <= solutionAttempts (counters s))%nat ->
             (iterationCount (counters (fold_left visit l s))
              + (if currentProblem (fold_left visit l s)
                 then attempts (fold_left visit l s) else 0)
              <= solutionAttempts (counters (fold_left visit l s)))%nat).
  { induction l as [|x l IH]; intros s Hs; [exact Hs|].
    cbn [fold_left]. apply IH.
    destruct (visit_rules s x) as (_ & K1 & K2 & _ & K3 & K4).
    cbv zeta in K1, K2, K3, K4. rewrite K1, K3, K4, K2.
    destruct (currentProblem s), (mentions_problem _), (includes _ _),
      (mentions_resolution _); cbn [andb orb negb] in *; lia. }
  specialize (H (m :: ms) start). cbn [fold_left] in *.
  destruct (currentProblem _); cbn in H; lia.
Qed.

End ProblemSolvingFacts.

(** ** The worker code *)

Module WorkerFacts.
Import Js Worker.

(** Two numbers that [==] tells apart are different. *)
Lemma number_neq (x y : float) :
  PrimFloat.eqb x x = true -> PrimFloat.eqb x y = false -> x <> y.
Proof. intros Hx Hxy E. subst y. congruence. Qed.

(** C8, as the specification states it: none of the three task types is
    a function of its payload alone. Each stamps its result with the
    time of the run, and [generate_insights] scores with
    [Math.random()]. *)
Lemma tasks_read_clock_and_random :
  ~ pure_task (lit "analyze_conversation")
  /\ ~ pure_task (lit "detect_patterns")
  /\ ~ pure_task (lit "generate_insights").
Proof.
  repeat split; intros H; specialize (H first_run second_run sample_payload).
  - apply (f_equal stamp) in H. vm_compute in H. discriminate H.
  - apply (f_equal stamp) in H. vm_compute in H. discriminate H.
  - apply (f_equal scores) in H. vm_compute in H.
    apply (f_equal (hd 0%float)) in H. cbn [hd] in H.
    revert H. apply number_neq; vm_compute; reflexivity.
Qed.

(** C8, amended. Two runs of a task on one payload give results that
    agree in every field but the time stamp and, for
    [generate_insights], the score: what a run adds to its payload is the
    reading of the clock and the random draw, nothing else. *)
Theorem tasks_agree_up_to_clock_and_random (e1 e2 : environment)
    (type : jsstring) (data : payload) :
  without_environment (run_task e1 type data)
  = without_environment (run_task e2 type data).
Proof.
  unfold run_task.
  destruct (bool_decide (type = lit "analyze_conversation")).
  { unfold analyzeConversation. destruct (messages data); reflexivity. }
  destruct (bool_decide (type = lit "detect_patterns")); [reflexivity|].
  destruct (bool_decide (type = lit "generate_insights")); reflexivity.
Qed.

End WorkerFacts.

(** ** The worker pool *)

Module StreamProcessorFacts.
Import Js StreamProcessor.

Lemma release_after_busier (w : nat) (pool : list worker) :
  releaseWorker w (alter busier w pool) = pool.
Proof.
  unfold releaseWorker. rewrite list_alter_alter_eq.
  apply list_alter_id. intros [n]. reflexivity.
Qed.

(** A reply, success or error, gives the worker its load back: the pool
    is as it was before the task was submitted. *)
Lemma reply_restores_load (taskId : nat) (r : Worker.reply)
    (p p1 : processor) (t : task) :
  executeWorkerTask taskId p = Some p1 ->
  tasks p1 !! taskId = Some t ->
  workerPool (messageHandler taskId t r p1) = workerPool p.
Proof.
  unfold executeWorkerTask.
  destruct (getAvailableWorker (workerPool p)) as [[w pool']|] eqn:E;
    [|discriminate].
  intros [= <-]. cbn [tasks]. rewrite lookup_insert_eq. intros [= <-].
  cbn [messageHandler workerPool task_worker].
  unfold getAvailableWorker in E.
  destruct (indexed (workerPool p)); [discriminate|].
  injection E as <- <-. apply release_after_busier.
Qed.

(** The timeout rejects a pending promise and touches nothing else: the
    load of the worker stays where the submission put it. *)
Lemma timeout_rejects_without_release (taskId : nat) (t : task)
    (p : processor) :
  promise t = Pending ->
  workerPool (timeoutFired taskId t p) = workerPool p
  /\ tasks (timeoutFired taskId t p) !! taskId
     = Some {| task_worker := task_worker t;
               promise := Rejected (TaskTimeout (workerTimeout p));
               listening := listening t;
               timer := false |}.
Proof.
  intros H. split; [reflexivity|].
  cbn [timeoutFired tasks]. rewrite lookup_insert_eq, H. reflexivity.
Qed.

(** A reply that arrives after the timeout is still handled: the promise
    stays rejected and only then does the worker get its load back. *)
Lemma late_reply_releases_after_timeout (r : Worker.reply) :
  (fun p => (promise <$> tasks p !! 1%nat, load p 1))
    <$> run (fresh 2) [Submit 1; Timeout 1; Reply 1 r]
  = Some (Some (Rejected (TaskTimeout 30000)), Some 0%nat).
Proof. destruct r; vm_compute; reflexivity. Qed.

(** C6. A task is submitted to a pool of two idle workers and its worker
    never answers. When the timeout fires the promise is rejected with
    the timeout error, and the load of the chosen worker is 1: it was 0
    before the submission and nothing on this path decrements it. *)
Theorem timed_out_task_keeps_worker_loaded :
  load (fresh 2) 1 = Some 0%nat
  /\ (fun p => (task_worker <$> tasks p !! 1%nat,
                promise <$> tasks p !! 1%nat,
                load p 1))
       <$> run (fresh 2) [Submit 1; Timeout 1]
     = Some (Some 1%nat, Some (Rejected (TaskTimeout 30000)), Some 1%nat).
Proof. split; vm_compute; reflexivity. Qed.

Lemma check_keeps_saturation (p : processor) :
  saturated (snd (checkBackpressure p)) = saturated p.
Proof. unfold checkBackpressure. destruct (saturated p) eqn:E; [|exact E]. exact E. Qed.

Lemma checks_keep_saturation (n : nat) (p : processor) :
  saturated (checks n p) = saturated p.
Proof.
  induction n as [|n IH]; [reflexivity|].
  change (checks (S n) p) with (snd (checkBackpressure (checks n p))).
  now rewrite check_keeps_saturation.
Qed.

(** C7, as the specification states it: it does not hold. Two tasks
    saturate a pool of two workers once; the three checks that follow
    publish three events. *)
Lemma saturated_pool_publishes_at_every_check :
  ~ one_event_per_transition
      (fresh 2)
      [Submit 1; Submit 2;
       CheckBackpressure; CheckBackpressure; CheckBackpressure].
Proof.
  intros [p [Hrun Hcount]]. vm_compute in Hrun. injection Hrun as <-.
  vm_compute in Hcount. discriminate Hcount.
Qed.

(** C7, amended. [checkBackpressure] keeps no memory of earlier checks:
    every call made while [activeJobs / concurrency] exceeds the
    threshold publishes one event and counts it, a call made otherwise
    publishes nothing, and no call changes the jobs or the workers. *)
Theorem every_check_while_saturated_publishes (n : nat) (p : processor) :
  backpressureEvents (checks n p)
  = (backpressureEvents p + (if saturated p then n else 0))%nat
  /\ length (published (checks n p))
     = (length (published p) + (if saturated p then n else 0))%nat
  /\ activeJobs (checks n p) = activeJobs p
  /\ workerPool (checks n p) = workerPool p.
Proof.
  induction n as [|n [IH1 [IH2 [IH3 IH4]]]].
  - change (checks 0 p) with p. destruct (saturated p); repeat split; lia.
  - change (checks (S n) p) with (snd (checkBackpressure (checks n p))).
    unfold checkBackpressure at 1 2 3 4.
    rewrite checks_keep_saturation.
    destruct (saturated p);
      cbn [snd backpressureEvents published activeJobs workerPool].
    + rewrite length_app, IH1, IH2. cbn [length]. repeat split; auto; lia.
    + rewrite IH1, IH2. repeat split; auto.
Qed.

End StreamProcessorFacts.

(** ** Communication style *)

Module StyleFacts.
Import Js PatternDetector.

Lemma property_key_has_comma (e : jsstring * nat) :
  In 44%N (property_key e).
Proof.
  unfold property_key. apply in_or_app. right. left. reflexivity.
Qed.

(** No counter is stored under a name with a comma in it. *)
Lemma style_get_comma (st : styles) (k : jsstring) :
  In 44%N k -> style_get st k = None.
Proof.
  intros H. unfold style_get, style_entries. cbn [List.find fst].
  repeat (case_bool_decide;
          [subst k; exfalso; vm_compute in H; intuition discriminate|]).
  reflexivity.
Qed.

Lemma pick_second (st : styles) (a b : jsstring * nat) : pick st a b = b.
Proof.
  unfold pick. now rewrite (style_get_comma st _ (property_key_has_comma a)).
Qed.

(** Whatever the counters are, the reduction returns its last entry. *)
Lemma dominant_style_is_last_entry (messages : list message) :
  dominantStyle (analyzeCommunicationStyle messages)
  = (lit "explanatory",
     explanatory (style_counts (analyzeCommunicationStyle messages))).
Proof.
  unfold analyzeCommunicationStyle. cbn [dominantStyle style_counts].
  cbn [style_entries tl fold_left]. now rewrite !pick_second.
Qed.

(** The four counters, their sum and the shares. *)
Lemma distribution_of_counters (messages : list message) :
  let r := analyzeCommunicationStyle messages in
  total r = (formal (style_counts r) + informal (style_counts r)
             + technical (style_counts r) + explanatory (style_counts r))%nat
  /\ distribution r
     = List.map (fun e => (fst e, (num (snd e) / num (total r))%float))
                (style_entries (style_counts r)).
Proof. split; reflexivity. Qed.

(** C9. One message that says "por favor": the formal counter is 1, the
    other three are 0, and the style with the largest counter is the
    formal one; [dominantStyle] is the entry of the explanatory style. *)
Theorem dominant_style_is_not_the_largest_counter :
  let r := analyzeCommunicationStyle (conversation ["por favor"]%string) in
  style_counts r
  = {| formal := 1; informal := 0; technical := 0; explanatory := 0 |}
  /\ arg_max_style (style_counts r) = (lit "formal", 1%nat)
  /\ dominantStyle r = (lit "explanatory", 0%nat).
Proof. repeat split; vm_compute; reflexivity. Qed.

End StyleFacts.

(** ** Topic clusters *)

Module ClusterFacts.
Import Js PatternDetector.

(** The inner loop: what one seed absorbs. *)
Lemma absorb_fold (seed : jsstring) (l : list keyword) :
  forall (c c' : cluster) (P P' : gset jsstring),
    fold_left (absorb seed) l (c, P) = (c', P') ->
    cluster_id c' = cluster_id c
    /\ mainTopic c' = mainTopic c
    /\ confidence c' = confidence c
    /\ (exists new,
          relatedTopics c' = relatedTopics c ++ new
          /\ size c' = (size c + length new)%nat
          /\ P' = list_to_set (List.map related_word new) ∪ P
          /\ Forall (fun r =>
                       similar seed (related_word r) = true
                       /\ related_word r <> seed
                       /\ similarity r
                          = calculateWordSimilarity seed (related_word r)
                       /\ exists k, k ∈ l /\ word k = related_word r
                                    /\ keyword_score k = related_score r)
                    new)
    /\ (forall k, k ∈ l ->
          word k ∈ P' \/ word k = seed \/ similar seed (word k) = false).
Proof.
  induction l as [|k l IH]; intros c c' P P' H.
  - injection H as <- <-. repeat split; try reflexivity.
    + exists []. rewrite app_nil_r. cbn [length List.map list_to_set].
      repeat split; [lia | set_solver | constructor].
    + intros k Hk. inversion Hk.
  - cbn [fold_left] in H.
    destruct (absorb seed (c, P) k) as [c1 P1] eqn:Hstep.
    destruct (IH _ _ _ _ H) as (Hid & Hmain & Hconf & (new & Hrel & Hsize & HP & Hnew) & Hall).
    assert (Forall (fun r =>
                       similar seed (related_word r) = true
                       /\ related_word r <> seed
                       /\ similarity r
                          = calculateWordSimilarity seed (related_word r)
                       /\ exists k', k' ∈ k :: l /\ word k' = related_word r
                                    /\ keyword_score k' = related_score r) new) as Hnew'.
    { eapply Forall_impl; [exact Hnew|]. cbn. intros r (?&?&?&k'&?&?&?).
      repeat split; auto. exists k'. split; [now right|auto]. }
    clear Hnew IH.
    unfold absorb in Hstep.
    destruct (bool_decide (word k ≠ seed)) eqn:Hne;
      [destruct (bool_decide (word k ∈ P)) eqn:Hin|]; cbn [negb andb] in Hstep;
      [| destruct (similar seed (word k)) eqn:Hsim |];
      injection Hstep as <- <-;
      cbn [cluster_id mainTopic confidence relatedTopics size] in *;
      (split; [assumption|]); (split; [assumption|]); (split; [assumption|]); split.
    all: try (exists new; repeat split; assumption).
    + intros k' Hk'. apply elem_of_cons in Hk' as [->|Hk']; [|auto].
      left. apply bool_decide_eq_true in Hin. set_solver.
    + eexists (_ :: new). rewrite <- app_assoc in Hrel. split; [exact Hrel|].
      split; [cbn [length]; lia|].
      split; [cbn [List.map list_to_set related_word]; set_solver|].
      constructor; [|exact Hnew'].
      cbn [related_word similarity related_score].
      apply bool_decide_eq_true in Hne.
      repeat split; auto. exists k. split; [now left|auto].
    + intros k' Hk'. apply elem_of_cons in Hk' as [->|Hk']; [|auto].
      left. set_solver.
    + intros k' Hk'. apply elem_of_cons in Hk' as [->|Hk']; [|auto].
      right. right. exact Hsim.
    + intros k' Hk'. apply elem_of_cons in Hk' as [->|Hk']; [|auto].
      right. left. apply bool_decide_eq_false in Hne.
      destruct (decide (word k = seed)); [assumption|contradiction].
Qed.

Lemma ForallOrdPairs_snoc {A : Type} (R : A -> A -> Prop) (l : list A) (x : A) :
  ForallOrdPairs R l -> Forall (fun y => R y x) l ->
  ForallOrdPairs R (l ++ [x]).
Proof.
  induction 1 as [|y l Hy Hl IH]; intros Hx; cbn [app].
  - repeat constructor.
  - inversion Hx; subst. constructor; [|auto].
    apply Forall_app. split; [exact Hy|]. repeat constructor. assumption.
Qed.

Lemma open_cluster_invariant (ks : list keyword)
    (st : list cluster * gset jsstring) (k : keyword) :
  k ∈ ks -> clustering_invariant ks st ->
  clustering_invariant ks (open_cluster ks st k)
  /\ word k ∈ snd (open_cluster ks st k)
  /\ snd st ⊆ snd (open_cluster ks st k).
Proof.
  intros Hk (Hfollow & Hapart & Hmem & Hsim). destruct st as [cs P].
  cbn [fst snd] in *. unfold open_cluster.
  case_bool_decide as Hin.
  { split; [|split; [exact Hin|reflexivity]].
    unfold clustering_invariant. cbn [fst snd]. tauto. }
  destruct (fold_left _ ks _) as [c P'] eqn:Hfold.
  apply absorb_fold in Hfold
    as (Hid & Hmain & Hconf & (new & Hrel & Hsize & HP & Hnew) & Hall).
  cbn [cluster_id mainTopic confidence relatedTopics size app] in *.
  assert (forall w, w ∈ members c <-> w = word k \/ w ∈ List.map related_word new)
    as Hmembers.
  { intros w. unfold members. rewrite Hmain, Hrel. set_solver. }
  repeat split; cbn [fst snd].
  - apply Forall_app. split; [exact Hfollow|]. repeat constructor.
    + exists k. auto.
    + rewrite Hsize, Hrel. reflexivity.
    + rewrite Hrel, Hmain. exact Hnew.
  - apply ForallOrdPairs_snoc; [exact Hapart|].
    apply Forall_forall. intros c0 Hc0. unfold seeds_apart. rewrite Hmain.
    split.
    + intros E. apply Hin, Hmem. exists c0. split; [exact Hc0|].
      rewrite <- E. unfold members. set_solver.
    + destruct (Hsim c0 k Hc0 Hk) as [?|?]; [contradiction|assumption].
  - intros Hw. apply elem_of_union in Hw as [Hw|Hw].
    + exists c. split; [set_solver|]. apply Hmembers. set_solver.
    + subst P'. apply elem_of_union in Hw as [Hw|Hw].
      * exists c. split; [set_solver|]. apply Hmembers. right.
        now apply elem_of_list_to_set in Hw.
      * apply Hmem in Hw as (c0 & ? & ?). exists c0. split; [set_solver|auto].
  - intros (c0 & Hc0 & Hw). apply elem_of_app in Hc0 as [Hc0|Hc0].
    + apply elem_of_union_r. subst P'. apply elem_of_union_r.
      apply Hmem. eauto.
    + apply list_elem_of_singleton in Hc0 as ->.
      apply Hmembers in Hw as [->|Hw]; [set_solver|].
      apply elem_of_union_r. subst P'. apply elem_of_union_l.
      now apply elem_of_list_to_set.
  - intros c0 k0 Hc0 Hk0. apply elem_of_app in Hc0 as [Hc0|Hc0].
    + destruct (Hsim c0 k0 Hc0 Hk0) as [?|?]; [left|right; assumption].
      subst P'. set_solver.
    + apply list_elem_of_singleton in Hc0 as ->. rewrite Hmain.
      destruct (Hall k0 Hk0) as [?|[?|?]]; [left|left|right; assumption];
        set_solver.
  - set_solver.
  - subst P'. set_solver.
Qed.

Lemma clustering_fold (ks l : list keyword)
    (st : list cluster * gset jsstring) :
  (forall k, k ∈ l -> k ∈ ks) -> clustering_invariant ks st ->
  clustering_invariant ks (fold_left (open_cluster ks) l st)
  /\ (forall k, k ∈ l -> word k ∈ snd (fold_left (open_cluster ks) l st))
  /\ snd st ⊆ snd (fold_left (open_cluster ks) l st).
Proof.
  revert st. induction l as [|k l IH]; intros st Hl Hinv; cbn [fold_left].
  - split; [exact Hinv|]. split; [intros k Hk; inversion Hk | reflexivity].
  - destruct (open_cluster_invariant ks st k) as (H1 & H2 & H3);
      [apply Hl; now left | assumption |].
    destruct (IH (open_cluster ks st k)) as (H4 & H5 & H6);
      [intros k' Hk'; apply Hl; now right | assumption |].
    split; [exact H4|]. split; [|set_solver].
    intros k' Hk'. apply elem_of_cons in Hk' as [->|Hk']; [set_solver|auto].
Qed.

(** C4, as the specification states it: it does not hold. Two terms at
    exactly 0.6 are not merged; two terms at 0.8 are separated when an
    earlier seed has taken one of them; and two terms at 3/7 share the
    cluster of a seed that is close to both. *)
Lemma greedy_pass_is_not_pairwise :
  ~ similar_terms_share_a_cluster boundary_terms
  /\ ~ similar_terms_share_a_cluster chained_terms
  /\ ~ dissimilar_terms_stay_apart star_terms.
Proof.
  repeat split; intros H.
  - specialize (H (term "abcd") (term "abce")).
    cbn [In boundary_terms] in H.
    assert (false = true) as E; [|discriminate E].
    rewrite <- H; [vm_compute; reflexivity | auto | auto
                  | vm_compute; reflexivity].
  - specialize (H (term "abcde") (term "bcde")).
    cbn [In chained_terms] in H.
    assert (false = true) as E; [|discriminate E].
    rewrite <- H; [vm_compute; reflexivity | auto | auto
                  | vm_compute; reflexivity].
  - specialize (H (term "abcde") (term "cdefg")).
    cbn [In star_terms] in H.
    assert (false = true) as E; [|discriminate E].
    symmetry. apply H; [auto | auto | | vm_compute; reflexivity].
    intros E. vm_compute in E. discriminate E.
Qed.

(** C4, amended. The pass is greedy and compares with seeds only. Every
    cluster has a keyword as its seed, takes its confidence from the
    seed's score, and has size 1 plus the number of absorbed terms; each
    absorbed term is a keyword other than the seed whose similarity with
    the seed is strictly above 0.6; the seed of a later cluster is never
    above 0.6 with the seed of an earlier one; and every keyword ends in
    some cluster. Nothing is promised about two terms of which neither is
    a seed. *)
Theorem greedy_clusters_follow_their_seeds (ks : list keyword) :
  Forall (follows_seed ks) (clusterTopicsBySimilarity ks)
  /\ ForallOrdPairs seeds_apart (clusterTopicsBySimilarity ks)
  /\ Forall (covered (clusterTopicsBySimilarity ks)) ks.
Proof.
  unfold clusterTopicsBySimilarity.
  destruct (clustering_fold ks ks ([], ∅)) as ((H1 & H2 & H3 & _) & H4 & _).
  - auto.
  - unfold clustering_invariant. cbn [fst snd].
    split; [constructor|]. split; [constructor|]. split.
    + intros w. split; [intros Hw; set_solver|].
      intros (c & Hc & _). inversion Hc.
    + intros c k Hc. inversion Hc.
  - repeat split; [assumption..|].
    apply Forall_forall. intros k Hk. apply H3, H4, Hk.
Qed.

End ClusterFacts.

(** ** The object pool *)

Module MemoryPoolFacts.
Import Js MemoryPool.

Lemma find_active_none (payload : nat) (l : list pooled) :
  (forall o, o ∈ l -> data o <> payload) -> find_active payload l = None.
Proof.
  induction l as [|o l IH]; intros H; [reflexivity|].
  cbn [find_active]. destruct (Nat.eqb_spec (data o) payload) as [E|_].
  - exfalso. apply (H o); [now left | exact E].
  - rewrite IH; [reflexivity|]. intros o' Ho'. apply H. now right.
Qed.

(** C10, as stated: it does not hold for a type tag that has no pool
    yet. [getPool] registers an empty pool for the tag before [release]
    looks for the object, and the registration stays. *)
Lemma release_registers_unknown_type :
  ~ checked_out (empty 0) (lit "message") 7
  /\ ~ leaves_unchanged (empty 0) (lit "message") 7.
Proof.
  split.
  - intros (o & Ho & _). vm_compute in Ho. inversion Ho.
  - intros H. specialize (H None 0%N).
    apply (f_equal (fun r => pools (snd r) !! lit "message")) in H.
    vm_compute in H. discriminate H.
Qed.

(** C10, amended. Releasing a value that is not the payload of an object
    checked out under the type returns false and changes neither the
    available list nor the active set of any type, nor a metrics counter,
    nor a payload; the one thing it may do is register an empty pool for
    a type tag that had none. *)
Theorem foreign_release_changes_no_object (m : memory_pool)
    (type : jsstring) (payload : nat)
    (resetFn : option (contents -> ending)) (now : N) :
  ~ checked_out m type payload ->
  let r := release type payload resetFn now m in
  fst r = Returned false
  /\ pool_metrics (snd r) = pool_metrics m
  /\ heap (snd r) = heap m
  /\ maxSize (snd r) = maxSize m
  /\ (forall t, available_of (snd r) t = available_of m t
                /\ active_of (snd r) t = active_of m t)
  /\ (forall t, t <> type -> pools (snd r) !! t = pools m !! t)
  /\ pools (snd r) !! type
     = Some (default {| available := []; active := []; pool_created := now |}
                     (pools m !! type)).
Proof.
  intros Hforeign. unfold release, getPool.
  destruct (pools m !! type) as [p|] eqn:E.
  - rewrite find_active_none.
    + cbn [fst snd]. rewrite E. repeat split; reflexivity.
    + intros o Ho Hdata. apply Hforeign. exists o.
      unfold active_of. rewrite E. auto.
  - cbn [active find_active fst snd pool_metrics heap maxSize pools].
    repeat split.
    + unfold available_of. cbn [pools].
      destruct (decide (t = type)) as [->|Hne].
      * now rewrite lookup_insert_eq, E.
      * now rewrite lookup_insert_ne.
    + unfold active_of. cbn [pools].
      destruct (decide (t = type)) as [->|Hne].
      * now rewrite lookup_insert_eq, E.
      * now rewrite lookup_insert_ne.
    + intros t Hne. now rewrite lookup_insert_ne.
    + now rewrite lookup_insert_eq.
Qed.

(** C10, amended, at a double release: the object was taken and given
    back, and is released once more. *)
Lemma double_release_changes_no_object :
  ~ checked_out after_one_release (lit "message") 1
  /\ let r := release (lit "message") 1 None 3 after_one_release in
     fst r = Returned false
     /\ pool_metrics (snd r) = pool_metrics after_one_release
     /\ heap (snd r) = heap after_one_release
     /\ maxSize (snd r) = maxSize after_one_release
     /\ (forall t, available_of (snd r) t = available_of after_one_release t
                   /\ active_of (snd r) t = active_of after_one_release t)
     /\ (forall t, t <> lit "message" ->
           pools (snd r) !! t = pools after_one_release !! t)
     /\ pools (snd r) !! lit "message"
        = Some (default {| available := []; active := [];
                           pool_created := 3%N |}
                        (pools after_one_release !! lit "message")).
Proof.
  assert (~ checked_out after_one_release (lit "message") 1) as H.
  { intros (o & Ho & _). vm_compute in Ho. inversion Ho. }
  split; [exact H|].
  exact (foreign_release_changes_no_object
           after_one_release (lit "message") 1 None 3%N H).
Defined.

End MemoryPoolFacts.

(** ** Keyword extraction *)

Module KeywordFacts.
Import Js JsFacts Dict PatternDetector.

Lemma own_put {V : Type} (o : dict (V := V)) (k k' : jsstring) (v : V) :
  own (put o k v) k' = if bool_decide (k' = k) then Some v else own o k'.
Proof.
  induction o as [|[k0 v0] o IH]; cbn [put own].
  - reflexivity.
  - destruct (bool_decide_reflect (k = k0)) as [->|Hne]; cbn [own].
    + destruct (bool_decide (k' = k0)); reflexivity.
    + rewrite IH. destruct (bool_decide_reflect (k' = k0)) as [->|?];
        [|reflexivity].
      now rewrite bool_decide_eq_false_2.
Qed.

(** On a name that no plain object inherits, reading and writing are
    those of the own properties. *)
Lemma count_word_clean (o : dict) (w : jsstring) :
  inherited w = false ->
  count_word o w = put o w (increment (own o w)).
Proof.
  intros H. unfold count_word, set, get. rewrite H.
  unfold inherited in H. apply orb_false_elim in H as [_ H].
  rewrite H. now destruct (own o w).
Qed.

Lemma counted_increment (c : option count) (n : nat) :
  counted (Some (increment c)) n = counted c (S n).
Proof.
  destruct c as [[m|]|], n as [|n]; cbn [counted increment];
    try reflexivity; f_equal; f_equal; lia.
Qed.

Lemma count_words_own (words : list jsstring) (o : dict) (w : jsstring) :
  Forall (fun x => inherited x = false) words ->
  own (fold_left count_word words o) w
  = counted (own o w) (occurrences w words).
Proof.
  revert o. induction words as [|x words IH]; intros o Hclean.
  - reflexivity.
  - inversion Hclean as [|? ? Hx Hrest]; subst. cbn [fold_left].
    rewrite IH by assumption. rewrite count_word_clean by assumption.
    rewrite own_put. unfold occurrences. cbn [List.filter].
    destruct (bool_decide_reflect (w = x)) as [->|Hne].
    + rewrite bool_decide_eq_true_2 by reflexivity. cbn [length].
      apply counted_increment.
    + rewrite bool_decide_eq_false_2 by congruence. reflexivity.
Qed.

Lemma own_map_values {V W : Type} (g : V -> W) (o : dict (V := V))
    (w : jsstring) :
  own (List.map (fun e => (fst e, g (snd e))) o) w = g <$> own o w.
Proof.
  induction o as [|[k v] o IH]; cbn [List.map own fst snd]; [reflexivity|].
  destruct (bool_decide (w = k)); [reflexivity|exact IH].
Qed.

(** The first part of C3, for a message none of whose tokens is a name
    inherited from [Object.prototype]: the frequency stored for a term is
    its number of occurrences over the number of tokens. *)
Lemma term_frequency_of_clean_message (doc w : jsstring) :
  Forall (fun x => inherited x = false) (tokens doc) ->
  own (termFrequency doc) w = Num <$> term_frequency doc w.
Proof.
  intros Hclean. unfold termFrequency, term_frequency.
  rewrite (own_map_values (fun c => Num (count_number c / num _))).
  rewrite count_words_own by assumption. cbn [own].
  destruct (occurrences w (tokens doc)); reflexivity.
Qed.

(** *** Dictionaries without inherited names *)

Lemma own_in {V : Type} (o : dict (V := V)) (w : jsstring) (v : V) :
  NoDup (List.map fst o) -> own o w = Some v <-> (w, v) ∈ o.
Proof.
  induction o as [|[k v0] o IH]; cbn [own List.map fst]; intros Hnd.
  - split; [discriminate | intros H; inversion H].
  - apply NoDup_cons in Hnd as [Hk Hnd].
    destruct (bool_decide_reflect (w = k)) as [->|Hne].
    + split.
      * intros [= ->]. now left.
      * intros H. apply elem_of_cons in H as [[= ->]|H]; [reflexivity|].
        exfalso. apply Hk. apply list_elem_of_fmap. exists (k, v). auto.
    + rewrite IH by assumption. split.
      * now right.
      * intros H. apply elem_of_cons in H as [[= -> ->]|H];
          [contradiction|assumption].
Qed.

Lemma own_permutation {V : Type} (o o' : dict (V := V)) (w : jsstring) :
  NoDup (List.map fst o) -> Permutation o o' -> own o w = own o' w.
Proof.
  intros Hnd Hperm.
  assert (NoDup (List.map fst o')) as Hnd'.
  { rewrite <- (Permutation_map fst Hperm). exact Hnd. }
  destruct (own o w) as [v|] eqn:E.
  - symmetry. apply own_in; [assumption|]. rewrite <- Hperm.
    now apply own_in.
  - destruct (own o' w) as [v|] eqn:E'; [|reflexivity].
    apply own_in in E'; [|assumption]. rewrite <- Hperm in E'.
    apply own_in in E'; [congruence|assumption].
Qed.

Lemma put_keys {V : Type} (o : dict (V := V)) (k : jsstring) (v : V) :
  List.map fst (put o k v)
  = if bool_decide (k ∈ List.map fst o) then List.map fst o
    else List.map fst o ++ [k].
Proof.
  induction o as [|[k0 v0] o IH]; cbn [put List.map fst].
  - reflexivity.
  - destruct (bool_decide_reflect (k = k0)) as [->|Hne]; cbn [List.map fst].
    + rewrite bool_decide_eq_true_2 by (now left). reflexivity.
    + rewrite IH. destruct (bool_decide_reflect (k ∈ List.map fst o)).
      * rewrite bool_decide_eq_true_2 by (now right). reflexivity.
      * rewrite bool_decide_eq_false_2; [reflexivity|].
        intros H. apply elem_of_cons in H as [?|?]; contradiction.
Qed.

Lemma put_nodup {V : Type} (o : dict (V := V)) (k : jsstring) (v : V) :
  NoDup (List.map fst o) -> NoDup (List.map fst (put o k v)).
Proof.
  intros H. rewrite put_keys.
  destruct (bool_decide_reflect (k ∈ List.map fst o)) as [|Hk]; [exact H|].
  apply NoDup_app. split; [exact H|]. split.
  - intros x Hx Hx'. apply list_elem_of_singleton in Hx' as ->. contradiction.
  - apply NoDup_singleton.
Qed.

Lemma partition_permutation {A : Type} (f : A -> bool) (l : list A) :
  Permutation (List.filter f l ++ List.filter (fun x => negb (f x)) l) l.
Proof.
  induction l as [|x l IH]; cbn [List.filter]; [reflexivity|].
  destruct (f x); cbn [negb app].
  - now apply perm_skip.
  - rewrite <- Permutation_middle. now apply perm_skip.
Qed.

Lemma index_entries_filter {V : Type} (o : dict (V := V)) :
  List.map snd (index_entries o)
  = List.filter (fun e => bool_decide (is_Some (array_index (fst e)))) o.
Proof.
  unfold index_entries.
  induction o as [|e o IH]; cbn [omap list_omap List.filter]; [reflexivity|].
  destruct (array_index (fst e)) as [i|]; cbn [fmap option_fmap option_map].
  - rewrite bool_decide_eq_true_2 by eauto. cbn [List.map snd]. now f_equal.
  - rewrite bool_decide_eq_false_2 by (intros [? ?]; discriminate). exact IH.
Qed.

(** [Object.entries] lists every own property once. *)
Lemma entries_permutation {V : Type} (o : dict (V := V)) :
  Permutation (entries o) o.
Proof.
  unfold entries.
  rewrite (Permutation_map snd (sort_permutation _ (index_entries o))).
  rewrite index_entries_filter.
  apply (partition_permutation
           (fun e => bool_decide (is_Some (array_index (fst e))))).
Qed.

Lemma own_entries {V : Type} (o : dict (V := V)) (w : jsstring) :
  NoDup (List.map fst o) -> own (entries o) w = own o w.
Proof.
  intros H. symmetry. apply own_permutation; [exact H|].
  symmetry. apply entries_permutation.
Qed.

Lemma entries_nodup {V : Type} (o : dict (V := V)) :
  NoDup (List.map fst o) -> NoDup (List.map fst (entries o)).
Proof.
  intros H. now rewrite (Permutation_map fst (entries_permutation o)).
Qed.

Lemma put_keys_clean {V : Type} (o : dict (V := V)) (k : jsstring) (v : V) :
  inherited k = false ->
  Forall (fun e => inherited (fst e) = false) o ->
  Forall (fun e => inherited (fst e) = false) (put o k v).
Proof.
  intros Hk. induction 1 as [|[k0 v0] o H0 Ho IH]; cbn [put].
  - repeat constructor. exact Hk.
  - destruct (bool_decide_reflect (k = k0)) as [->|Hne];
      constructor; assumption.
Qed.

(** A loop [for each entry (k, v) of l: o[k] = h(k, o[k], v)] over
    entries with distinct names, none of them inherited. *)
Lemma fold_set_own {V W : Type} (junk : V)
    (h : jsstring -> option V -> W -> V)
    (l : list (jsstring * W)) (o0 : dict (V := V)) (w : jsstring) :
  NoDup (List.map fst l) ->
  Forall (fun e => inherited (fst e) = false) l ->
  own (fold_left
         (fun o e => set o (fst e) (h (fst e) (get junk o (fst e)) (snd e)))
         l o0) w
  = match own l w with
    | Some v => Some (h w (own o0 w) v)
    | None => own o0 w
    end.
Proof.
  revert o0. induction l as [|[k v] l IH]; intros o0 Hnd Hclean;
    cbn [fold_left own fst snd].
  - reflexivity.
  - cbn [List.map fst] in Hnd. apply NoDup_cons in Hnd as [Hk Hnd].
    inversion Hclean as [|? ? Hkc Hrest]; subst. cbn [fst] in Hkc.
    rewrite IH by assumption.
    assert (set o0 k (h k (get junk o0 k) v) = put o0 k (h k (own o0 k) v))
      as ->.
    { unfold set, get. rewrite Hkc. unfold inherited in Hkc.
      apply orb_false_elim in Hkc as [_ ->]. now destruct (own o0 k). }
    rewrite own_put.
    destruct (bool_decide_reflect (w = k)) as [->|Hne]; [|reflexivity].
    destruct (own l k) eqn:E; [|reflexivity].
    exfalso. apply Hk. apply list_elem_of_fmap.
    apply own_in in E; [|assumption]. eexists; split; [|exact E]. reflexivity.
Qed.

Lemma fold_set_shape {V W : Type} (junk : V)
    (h : jsstring -> option V -> W -> V)
    (l : list (jsstring * W)) (o0 : dict (V := V)) :
  Forall (fun e => inherited (fst e) = false) l ->
  NoDup (List.map fst o0) ->
  Forall (fun e => inherited (fst e) = false) o0 ->
  let r := fold_left
             (fun o e => set o (fst e) (h (fst e) (get junk o (fst e)) (snd e)))
             l o0 in
  NoDup (List.map fst r) /\ Forall (fun e => inherited (fst e) = false) r.
Proof.
  revert o0. induction l as [|[k v] l IH]; intros o0 Hclean Hnd Ho;
    cbn [fold_left fst snd]; [auto|].
  inversion Hclean as [|? ? Hkc Hrest]; subst. cbn [fst] in Hkc.
  assert (set o0 k (h k (get junk o0 k) v) = put o0 k (h k (get junk o0 k) v))
    as ->.
  { unfold set. unfold inherited in Hkc.
    now apply orb_false_elim in Hkc as [_ ->]. }
  apply IH; [assumption | now apply put_nodup | now apply put_keys_clean].
Qed.

(** What counting leaves in the dictionary: distinct names, no inherited
    one. *)
Lemma count_words_shape (words : list jsstring) (o : dict) :
  Forall (fun x => inherited x = false) words ->
  NoDup (List.map fst o) ->
  Forall (fun e => inherited (fst e) = false) o ->
  NoDup (List.map fst (fold_left count_word words o))
  /\ Forall (fun e => inherited (fst e) = false) (fold_left count_word words o).
Proof.
  revert o. induction words as [|x words IH]; intros o Hclean Hnd Ho;
    cbn [fold_left]; [auto|].
  inversion Hclean; subst. rewrite count_word_clean by assumption.
  apply IH; [assumption | now apply put_nodup | now apply put_keys_clean].
Qed.

Lemma new_Set_fold {A : Type} `{EqDecision A} (l acc : list A) :
  NoDup acc ->
  let r := fold_left (fun acc x => if bool_decide (x ∈ acc) then acc
                                   else acc ++ [x]) l acc in
  NoDup r /\ forall x, x ∈ r <-> x ∈ acc \/ x ∈ l.
Proof.
  revert acc. induction l as [|y l IH]; intros acc Hnd; cbn [fold_left].
  - split; [exact Hnd|]. intros x. set_solver.
  - destruct (bool_decide_reflect (y ∈ acc)) as [Hy|Hy].
    + destruct (IH acc Hnd) as [H1 H2]. split; [exact H1|].
      intros x. rewrite H2. set_solver.
    + destruct (IH (acc ++ [y])) as [H1 H2].
      { apply NoDup_app. split; [exact Hnd|]. split; [|apply NoDup_singleton].
        intros x Hx Hx'. apply list_elem_of_singleton in Hx' as ->.
        contradiction. }
      split; [exact H1|]. intros x. rewrite H2. set_solver.
Qed.

Lemma new_Set_spec {A : Type} `{EqDecision A} (l : list A) :
  NoDup (new_Set l) /\ forall x, x ∈ new_Set l <-> x ∈ l.
Proof.
  destruct (new_Set_fold l [] (NoDup_nil_2)) as [H1 H2].
  split; [exact H1|]. intros x. unfold new_Set. rewrite H2. set_solver.
Qed.

Lemma occurrences_nodup (w : jsstring) (l : list jsstring) :
  NoDup l -> occurrences w l = if bool_decide (w ∈ l) then 1%nat else 0%nat.
Proof.
  unfold occurrences. induction 1 as [|x l Hx Hl IH]; cbn [List.filter].
  - reflexivity.
  - destruct (bool_decide_reflect (x = w)) as [->|Hne]; cbn [length].
    + rewrite bool_decide_eq_true_2 by (now left).
      rewrite IH, bool_decide_eq_false_2 by assumption. reflexivity.
    + rewrite IH. destruct (bool_decide_reflect (w ∈ l)).
      * rewrite bool_decide_eq_true_2 by (now right). reflexivity.
      * rewrite bool_decide_eq_false_2; [reflexivity|].
        intros H. apply elem_of_cons in H as [?|?]; [congruence|contradiction].
Qed.

Lemma counted_counted (c : option count) (a b : nat) :
  counted (counted c a) b = counted c (a + b).
Proof.
  destruct a as [|a]; [reflexivity|].
  destruct b as [|b]; [now rewrite Nat.add_0_r|].
  destruct c as [[m|]|]; cbn [counted Nat.add]; try reflexivity;
    f_equal; f_equal; lia.
Qed.

Lemma document_count_own (documents : list jsstring) (o : dict)
    (w : jsstring) :
  clean_documents documents ->
  NoDup (List.map fst o) ->
  Forall (fun e => inherited (fst e) = false) o ->
  let r := fold_left (fun o doc => fold_left count_word (new_Set (tokens doc)) o)
                     documents o in
  own r w = counted (own o w) (document_frequency documents w)
  /\ NoDup (List.map fst r)
  /\ Forall (fun e => inherited (fst e) = false) r.
Proof.
  revert o. induction documents as [|doc documents IH];
    intros o Hclean Hnd Ho; cbn [fold_left].
  - auto.
  - inversion Hclean as [|? ? Hdoc Hrest]; subst.
    destruct (new_Set_spec (tokens doc)) as [Hnodup Hsame].
    assert (Forall (fun x => inherited x = false) (new_Set (tokens doc)))
      as Hset.
    { apply Forall_forall. intros x Hx. apply Hsame in Hx.
      revert x Hx. now apply Forall_forall. }
    destruct (count_words_shape _ o Hset Hnd Ho) as [Hnd1 Ho1].
    destruct (IH _ Hrest Hnd1 Ho1) as (H1 & H2 & H3).
    split; [|auto]. rewrite H1, count_words_own by assumption.
    rewrite counted_counted. f_equal.
    unfold document_frequency. cbn [List.filter].
    rewrite occurrences_nodup by assumption.
    destruct (bool_decide_reflect (w ∈ tokens doc)) as [Hw|Hw].
    + rewrite bool_decide_eq_true_2 by (now apply Hsame). reflexivity.
    + rewrite bool_decide_eq_false_2; [reflexivity|].
      intros H. now apply Hsame in H.
Qed.

(** The second part of C3, under the same proviso: the inverse document
    frequency stored for a term is the logarithm of the number of
    messages over the number of messages that contain the term. *)
Lemma idf_of_clean_documents (Math_log : float -> float)
    (documents : list jsstring) (w : jsstring) :
  clean_documents documents ->
  own (calculateIDF Math_log documents) w
  = Num <$> inverse_document_frequency Math_log documents w.
Proof.
  intros Hclean. unfold calculateIDF, documentCount.
  destruct (document_count_own documents [] w Hclean (NoDup_nil_2))
    as (Hown & Hnd & Hkeys); [constructor|].
  cbn zeta in *.
  pose proof (fold_set_own ScoreText
                (fun _ _ c =>
                   Num (Math_log (num (length documents) / count_number c)%float))
                (entries (fold_left
                            (fun o doc =>
                               fold_left count_word (new_Set (tokens doc)) o)
                            documents []))
                [] w) as H.
  cbn beta in H. rewrite H; clear H.
  - rewrite own_entries, Hown by assumption. cbn [own].
    unfold inverse_document_frequency.
    destruct (document_frequency documents w); reflexivity.
  - now apply entries_nodup.
  - apply Forall_forall. intros e He.
    rewrite entries_permutation in He. revert e He. now apply Forall_forall.
Qed.

Lemma term_frequency_shape (doc : jsstring) :
  Forall (fun x => inherited x = false) (tokens doc) ->
  NoDup (List.map fst (termFrequency doc))
  /\ Forall (fun e => inherited (fst e) = false) (termFrequency doc).
Proof.
  intros Hclean. unfold termFrequency.
  destruct (count_words_shape (tokens doc) [] Hclean (NoDup_nil_2))
    as [Hnd Hkeys]; [constructor|].
  split.
  - rewrite List.map_map. cbn [fst]. exact Hnd.
  - apply Forall_map. cbn [fst].
    eapply Forall_impl; [exact Hkeys|]. auto.
Qed.

Lemma weigh_own (idf docTF : dict) (w : jsstring) :
  NoDup (List.map fst docTF) ->
  Forall (fun e => inherited (fst e) = false) docTF ->
  own (weigh idf docTF) w
  = (fun v => Num (score_number v
                   * score_number (or_zero (get ScoreText idf w)))%float)
      <$> own docTF w.
Proof.
  intros Hnd Hkeys. unfold weigh.
  pose proof (fold_set_own ScoreText
                (fun k _ v =>
                   Num (score_number v
                        * score_number (or_zero (get ScoreText idf k)))%float)
                (entries docTF) [] w) as H.
  cbn beta in H. rewrite H; clear H.
  - rewrite own_entries by assumption. cbn [own].
    destruct (own docTF w); reflexivity.
  - now apply entries_nodup.
  - apply Forall_forall. intros e He.
    rewrite entries_permutation in He. revert e He. now apply Forall_forall.
Qed.

Lemma weigh_shape (idf docTF : dict) :
  Forall (fun e => inherited (fst e) = false) docTF ->
  NoDup (List.map fst (weigh idf docTF))
  /\ Forall (fun e => inherited (fst e) = false) (weigh idf docTF).
Proof.
  intros Hkeys. unfold weigh.
  apply (fold_set_shape ScoreText
           (fun k _ v =>
              Num (score_number v
                   * score_number (or_zero (get ScoreText idf k)))%float)).
  - apply Forall_forall. intros e He.
    rewrite entries_permutation in He. revert e He. now apply Forall_forall.
  - constructor.
  - constructor.
Qed.

Lemma add_scores_own (ws doc : dict) (w : jsstring) :
  NoDup (List.map fst doc) ->
  Forall (fun e => inherited (fst e) = false) doc ->
  own (add_scores ws doc) w
  = match own doc w with
    | Some v => Some (accumulate (or_zero (own ws w)) (score_number v))
    | None => own ws w
    end.
Proof.
  intros Hnd Hkeys. unfold add_scores.
  pose proof (fold_set_own ScoreText
                (fun _ cur v => accumulate (or_zero cur) (score_number v))
                (entries doc) ws w) as H.
  cbn beta in H. rewrite H; clear H.
  - now rewrite own_entries.
  - now apply entries_nodup.
  - apply Forall_forall. intros e He.
    rewrite entries_permutation in He. revert e He. now apply Forall_forall.
Qed.

Lemma word_scores_own (idf : dict) (documents : list jsstring) (ws : dict)
    (w : jsstring) :
  clean_documents documents ->
  own (fold_left add_scores
                 (calculateTFIDF (calculateTF documents) idf) ws) w
  = fold_left
      (fun acc x =>
         match x with
         | Some x => Some (accumulate (or_zero acc) x)
         | None => acc
         end)
      (List.map
         (fun doc =>
            (fun tf => tf * score_number (or_zero (get ScoreText idf w)))%float
              <$> term_frequency doc w)
         documents)
      (own ws w).
Proof.
  revert ws. unfold calculateTFIDF, calculateTF.
  induction documents as [|doc documents IH]; intros ws Hclean;
    cbn [List.map fold_left]; [reflexivity|].
  inversion Hclean as [|? ? Hdoc Hrest]; subst.
  rewrite IH by assumption. f_equal.
  destruct (term_frequency_shape doc Hdoc) as [Hnd Hkeys].
  destruct (weigh_shape idf (termFrequency doc) Hkeys) as [Hnd' Hkeys'].
  rewrite add_scores_own, weigh_own by assumption.
  rewrite term_frequency_of_clean_message by assumption.
  destruct (term_frequency doc w); reflexivity.
Qed.

Lemma inherited_term_has_no_frequency (doc w : jsstring) :
  Forall (fun x => inherited x = false) (tokens doc) ->
  inherited w = true -> term_frequency doc w = None.
Proof.
  intros Hclean Hw. unfold term_frequency, occurrences.
  replace (List.filter (fun x => bool_decide (x = w)) (tokens doc))
    with (@nil jsstring); [reflexivity|].
  induction Hclean as [|x l Hx Hl IH]; cbn [List.filter]; [reflexivity|].
  rewrite bool_decide_eq_false_2 by congruence. exact IH.
Qed.

(** The third part of C3, under the same proviso: the aggregate score of
    a term is the sum over the messages of frequency times inverse
    document frequency. *)
Lemma score_of_clean_documents (Math_log : float -> float)
    (documents : list jsstring) (w : jsstring) :
  clean_documents documents ->
  own (wordScores (calculateTFIDF (calculateTF documents)
                                  (calculateIDF Math_log documents))) w
  = aggregate_score Math_log documents w.
Proof.
  intros Hclean. unfold wordScores, aggregate_score, summed.
  rewrite word_scores_own by assumption. cbn [own]. f_equal.
  apply map_ext_in. intros doc Hdoc.
  destruct (inherited w) eqn:Hw.
  - rewrite inherited_term_has_no_frequency; [reflexivity| |exact Hw].
    unfold clean_documents in Hclean.
    rewrite List.Forall_forall in Hclean. now apply Hclean.
  - unfold get. rewrite Hw, idf_of_clean_documents by assumption.
    now destruct (inverse_document_frequency Math_log documents w).
Qed.

(** The last part of C3: the keywords returned are the first
    [maxKeywords] entries of a ranking of all scored terms, which the
    stable sort by the comparator [b[1] - a[1]] produces. *)
Lemma top_keywords_are_a_prefix_of_the_ranking
    (tfidf : list dict) (maxKeywords : nat) :
  exists ranking,
    Permutation ranking (wordScores tfidf)
    /\ ranking = sort ranks_after (entries (wordScores tfidf))
    /\ extractTopKeywords tfidf maxKeywords
       = List.map (fun e => {| word := fst e; keyword_score := snd e |})
                  (firstn maxKeywords ranking)
    /\ length (extractTopKeywords tfidf maxKeywords)
       = Nat.min maxKeywords (length (wordScores tfidf)).
Proof.
  exists (sort ranks_after (entries (wordScores tfidf))).
  assert (Permutation (sort ranks_after (entries (wordScores tfidf)))
                      (wordScores tfidf)) as Hperm.
  { rewrite sort_permutation. apply entries_permutation. }
  repeat split; [exact Hperm|].
  unfold extractTopKeywords.
  rewrite length_map, length_firstn. now rewrite (Permutation_length Hperm).
Qed.

(** C3. A message that contains the word "constructor": the term has one
    occurrence among three tokens, so its frequency should be 1/3 like
    that of its neighbours; the stored frequency is [NaN], because the
    count read from the empty dictionary is the inherited function
    [Object], and [+ 1] makes a string of it. The aggregate score of the
    term is then a string, whatever [Math.log] returns. *)
Theorem inherited_name_gets_no_frequency :
  term_frequency (lit "the constructor throws") (lit "constructor")
  = Some (num 1 / num 3)%float
  /\ calculateTF [lit "the constructor throws"]
     = [[(lit "the", Num (num 1 / num 3));
         (lit "constructor", Num nan);
         (lit "throws", Num (num 1 / num 3))]]
  /\ forall Math_log,
       extractKeywordsTFIDF Math_log
         [{| sender := lit "user"; content := Some (lit "Constructor") |}] 5
       = [{| word := lit "constructor"; keyword_score := ScoreText |}].
Proof.
  split; [vm_compute; reflexivity|].
  split; [vm_compute; reflexivity|].
  intros Math_log. vm_compute. reflexivity.
Qed.

End KeywordFacts.

(** ** Lists *)

Module ListFacts.

Lemma lookup_alter_cases {A : Type} (f : A -> A) (l : list A) (j i : nat) :
  alter f j l !! i = (if bool_decide (i = j) then f else id) <$> l !! i.
Proof.
  case_bool_decide as E.
  - subst i. rewrite list_lookup_alter, decide_True by reflexivity.
    reflexivity.
  - rewrite list_lookup_alter_ne by congruence.
    destruct (l !! i); reflexivity.
Qed.

Lemma lookup_repeat {A : Type} (x : A) (m w : nat) :
  (w < m)%nat -> repeat x m !! w = Some x.
Proof.
  revert w. induction m as [|m IH]; intros w H; [lia|].
  destruct w as [|w]; [reflexivity|]. cbn. apply IH. lia.
Qed.

Lemma combine_snoc {A B : Type} (l1 : list A) (l2 : list B) (a : A) (b : B) :
  length l1 = length l2 ->
  combine (l1 ++ [a]) (l2 ++ [b]) = combine l1 l2 ++ [(a, b)].
Proof.
  revert l2. induction l1 as [|x l1 IH]; intros [|y l2] H; try discriminate.
  - reflexivity.
  - cbn [app combine]. rewrite IH by (cbn [length] in H; lia). reflexivity.
Qed.

Lemma last_default {A : Type} (l : list A) (a d d' : A) :
  List.last (a :: l) d = List.last (a :: l) d'.
Proof.
  revert a. induction l as [|b l IH]; intros a; [reflexivity|].
  change (List.last (b :: l) d = List.last (b :: l) d'). apply IH.
Qed.

Lemma filter_split_length {A : Type} (f : A -> bool) (l : list A) :
  (length (List.filter f l) + length (List.filter (fun x => negb (f x)) l))%nat
  = length l.
Proof.
  induction l as [|x l IH]; [reflexivity|]. cbn [List.filter].
  destruct (f x); cbn [negb length]; lia.
Qed.

Lemma filter_none {A : Type} (f : A -> bool) (l : list A) :
  (forall j p, l !! j = Some p -> f p = false) -> List.filter f l = [].
Proof.
  induction l as [|x l IH]; intros H; [reflexivity|]. cbn [List.filter].
  rewrite (H 0%nat x eq_refl). apply IH. intros j p Hp. apply (H (S j) p Hp).
Qed.

Lemma filter_twice_nothing {A : Type} (f : A -> bool) (l : list A) :
  List.filter f (List.filter (fun x => negb (f x)) l) = [].
Proof.
  induction l as [|x l IH]; [reflexivity|]. cbn [List.filter].
  destruct (f x) eqn:E; cbn [negb List.filter]; [exact IH|].
  rewrite E. exact IH.
Qed.

Lemma length_delete_lookup {A : Type} (l : list A) (i : nat) (x : A) :
  l !! i = Some x -> S (length (delete i l)) = length l.
Proof.
  revert i. induction l as [|y l IH]; intros i H; [discriminate|].
  destruct i as [|i]; [reflexivity|]. cbn in H.
  change (delete (S i) (y :: l)) with (y :: delete i l).
  cbn [length]. rewrite (IH i H). reflexivity.
Qed.

Lemma elem_of_concat {A : Type} (x : A) (ls : list (list A)) :
  x ∈ concat ls <-> exists l, x ∈ l /\ l ∈ ls.
Proof.
  induction ls as [|l ls IH]; cbn [concat].
  - split; [intros H; inversion H|intros (l & _ & H); inversion H].
  - rewrite elem_of_app, IH. split.
    + intros [H|(l' & H1 & H2)].
      * exists l. split; [exact H|apply list_elem_of_here].
      * exists l'. split; [exact H1|apply list_elem_of_further, H2].
    + intros (l' & H1 & H2). apply elem_of_cons in H2 as [->|H2]; [auto|].
      right. exists l'. auto.
Qed.

Lemma elem_of_filter_list {A : Type} (f : A -> bool) (l : list A) (x : A) :
  x ∈ List.filter f l <-> x ∈ l /\ f x = true.
Proof.
  rewrite !list_elem_of_In. apply List.filter_In.
Qed.

Lemma same_elements_same_length {A : Type} (l k : list A) :
  NoDup l -> NoDup k -> (forall x, x ∈ l <-> x ∈ k) -> length l = length k.
Proof.
  intros Hl Hk H. apply Permutation_length, NoDup_Permutation; assumption.
Qed.

Lemma firstn_nodup {A : Type} (n : nat) (l : list A) :
  NoDup l -> NoDup (firstn n l).
Proof.
  intros H. rewrite <- (firstn_skipn n l) in H.
  apply NoDup_app in H. apply H.
Qed.

Lemma firstn_elem_of {A : Type} (n : nat) (l : list A) (x : A) :
  x ∈ firstn n l -> x ∈ l.
Proof.
  intros H. rewrite <- (firstn_skipn n l). apply elem_of_app. auto.
Qed.

Lemma forallb_reversed {A : Type} (f : A -> bool) (l : list A) :
  forallb f (rev l) = forallb f l.
Proof.
  induction l as [|x l IH]; [reflexivity|]. cbn [rev forallb].
  rewrite forallb_app, IH. cbn [forallb]. rewrite andb_true_r.
  apply andb_comm.
Qed.

Lemma sorted_app_apart {A : Type} (R : A -> A -> Prop) (l1 l2 : list A) :
  StronglySorted R (l1 ++ l2) ->
  StronglySorted R l1 /\ forall a b, a ∈ l1 -> b ∈ l2 -> R a b.
Proof.
  induction l1 as [|x l1 IH]; cbn [app]; intros H.
  - split; [constructor|]. intros a b Ha. inversion Ha.
  - apply StronglySorted_inv in H as [H1 H2]. destruct (IH H1) as [K1 K2].
    rewrite List.Forall_app in H2. destruct H2 as [H2 H3]. split.
    + constructor; assumption.
    + intros a b Ha Hb. apply elem_of_cons in Ha as [->|Ha]; [|auto].
      rewrite List.Forall_forall in H3. apply H3, list_elem_of_In, Hb.
Qed.

End ListFacts.

(** ** Runs of the event bus *)

Module EventFlowFacts.
Import Js EventBus EventFlow JsFacts ListFacts.

Lemma flush_conserves (b : bus) :
  Permutation (dispatched (flushBuffer b) ++ eventBuffer (flushBuffer b))
              (dispatched b ++ eventBuffer b).
Proof.
  unfold flushBuffer. destruct (eventBuffer b) as [|e l] eqn:E.
  - rewrite E. reflexivity.
  - cbn [dispatched eventBuffer]. rewrite <- app_assoc.
    apply Permutation_app_head. unfold sortedEvents, batch.
    rewrite sort_permutation, E.
    rewrite (firstn_skipn (bufferSize b) (e :: l)). reflexivity.
Qed.

Lemma emit_conserves (name : jsstring) (fresh : nat) (prio : option priority)
    (b : bus) :
  Permutation
    (dispatched (emitBuffered name fresh prio b)
     ++ eventBuffer (emitBuffered name fresh prio b))
    (dispatched b ++ eventBuffer b ++ [built name fresh prio]).
Proof.
  unfold emitBuffered. cbv zeta. fold (built name fresh prio).
  match goal with |- context [if ?c then _ else _] => destruct c end.
  - rewrite flush_conserves. reflexivity.
  - reflexivity.
Qed.

Lemma drive_conserves (acts : list action) (b : bus) :
  Permutation (dispatched (drive b acts) ++ eventBuffer (drive b acts))
              (dispatched b ++ eventBuffer b ++ emitted acts).
Proof.
  revert b. induction acts as [|a acts IH]; intros b.
  - cbn. rewrite app_nil_r. reflexivity.
  - change (drive b (a :: acts)) with (drive (act b a) acts). rewrite IH.
    destruct a as [name fresh prio|]; cbn [act emitted flat_map].
    + rewrite app_assoc, emit_conserves, <- !app_assoc. reflexivity.
    + rewrite app_assoc, flush_conserves, <- !app_assoc. reflexivity.
Qed.

(** X2. No event is lost and none is dispatched twice: after any sequence of
    [emitBuffered] calls and timer flushes on a new bus, the events
    handed to [processEvent] together with the events still in the
    buffer are exactly the events emitted. *)
Theorem every_event_is_dispatched_or_buffered (acts : list action) :
  Permutation (dispatched (drive new_bus acts)
               ++ eventBuffer (drive new_bus acts))
              (emitted acts).
Proof. rewrite drive_conserves. reflexivity. Qed.



(** With an inherited name in the batch the comparator is no ordering:
    a 'constructor' event compares as [NaN], which the sort reads as
    equal, with a [normal] and with a [critical] event alike. A sort
    that places each event by comparing it with its neighbours, as the
    one computed here, then leaves a [critical] event behind the
    [normal] and the 'constructor' event that were emitted before it. *)
Lemma inherited_name_hides_the_ranks :
  comparator normal_event inherited_event = None
  /\ comparator inherited_event critical_event = None
  /\ comparator normal_event critical_event = Some 2
  /\ sortedEvents [normal_event; inherited_event; critical_event]
     = [normal_event; inherited_event; critical_event].
Proof. repeat split. Qed.

(** What a bus keeps between two turns of the event loop. *)
Lemma flush_short_buffer (b : bus) :
  (length (eventBuffer b) <= bufferSize b)%nat ->
  flushBuffer b
  = {| eventBuffer := []; bufferSize := bufferSize b;
       dispatched := dispatched b ++ sortedEvents (eventBuffer b) |}.
Proof.
  intros H. unfold flushBuffer, batch.
  destruct (eventBuffer b) as [|e l] eqn:E.
  - cbn. rewrite app_nil_r. destruct b; cbn in *; subst; reflexivity.
  - rewrite skipn_all2 by exact H. rewrite firstn_all2 by exact H.
    reflexivity.
Qed.

Lemma act_keeps_buffer_shape (b : bus) (a : action) :
  (length (eventBuffer b) < bufferSize b)%nat ->
  Forall (fun e => priority_of e <> Critical) (eventBuffer b) ->
  (length (eventBuffer (act b a)) < bufferSize (act b a))%nat
  /\ Forall (fun e => priority_of e <> Critical) (eventBuffer (act b a))
  /\ bufferSize (act b a) = bufferSize b.
Proof.
  intros Hlen Hcrit. destruct a as [name fresh prio|]; cbn [act].
  - unfold emitBuffered. cbv zeta. fold (built name fresh prio).
    set (b' := {| eventBuffer := eventBuffer b ++ [built name fresh prio];
                  bufferSize := bufferSize b; dispatched := dispatched b |}).
    assert (Hb' : (length (eventBuffer b') <= bufferSize b')%nat).
    { subst b'. cbn [eventBuffer bufferSize]. rewrite length_app.
      cbn [length]. lia. }
    destruct (bool_decide (prio = Some Critical)
              || (bufferSize b <=? length (eventBuffer b'))%nat) eqn:E.
    + rewrite (flush_short_buffer b' Hb'). subst b'.
      cbn [eventBuffer bufferSize length].
      split; [lia|split; [constructor|reflexivity]].
    + apply orb_false_iff in E as [E1 E2].
      apply Nat.leb_gt in E2. subst b'. cbn [eventBuffer bufferSize] in *.
      split; [exact E2|split; [|reflexivity]].
      apply Forall_app. split; [exact Hcrit|]. constructor; [|constructor].
      cbn [priority_of]. intros Hp. apply bool_decide_eq_false in E1.
      apply E1. destruct prio as [q|]; cbn in Hp; [subst q; reflexivity|].
      discriminate.
  - rewrite (flush_short_buffer b) by lia. cbn [eventBuffer bufferSize length].
    split; [lia|split; [constructor|reflexivity]].
Qed.

Lemma drive_keeps_buffer_shape (acts : list action) (b : bus) :
  (length (eventBuffer b) < bufferSize b)%nat ->
  Forall (fun e => priority_of e <> Critical) (eventBuffer b) ->
  (length (eventBuffer (drive b acts)) < bufferSize (drive b acts))%nat
  /\ Forall (fun e => priority_of e <> Critical) (eventBuffer (drive b acts))
  /\ bufferSize (drive b acts) = bufferSize b.
Proof.
  revert b. induction acts as [|a acts IH]; intros b Hlen Hcrit.
  - cbn [drive fold_left]. auto.
  - change (drive b (a :: acts)) with (drive (act b a) acts).
    destruct (act_keeps_buffer_shape b a Hlen Hcrit) as (H1 & H2 & H3).
    destruct (IH (act b a) H1 H2) as (H4 & H5 & H6).
    split; [exact H4|split; [exact H5|congruence]].
Qed.

(** X3. The buffer never fills up: whatever is emitted and whenever the timer
    fires, fewer than [bufferSize] events are buffered when
    [emitBuffered] or [flushBuffer] returns, so that a flush always
    takes the whole buffer. *)
Theorem buffer_stays_below_its_size (acts : list action) :
  (length (eventBuffer (drive new_bus acts)) < 100)%nat
  /\ eventBuffer (flushBuffer (drive new_bus acts)) = [].
Proof.
  destruct (drive_keeps_buffer_shape acts new_bus) as (H1 & H2 & H3);
    [cbn; lia|constructor|].
  cbn [bufferSize new_bus] in H1, H3. rewrite H3 in H1. split; [exact H1|].
  rewrite flush_short_buffer by lia. reflexivity.
Qed.




Lemma retry_loop_exhausted (maxRetries : nat) (retryDelay : N)
    (throws : nat -> bool) (rounds : nat) :
  forall retry count,
    (retry + rounds = S maxRetries)%nat ->
    (forall k, (retry <= k <= maxRetries)%nat -> throws k = true) ->
    retry_loop rounds retry maxRetries retryDelay throws count
    = {| returned := false;
         attempts := rounds;
         lastRetryCount := match rounds with
                           | O => count
                           | S _ => S maxRetries
                           end;
         delays := backoff retryDelay retry (pred rounds) |}.
Proof.
  induction rounds as [|rounds IH]; intros retry count Hsum Hall;
    [reflexivity|].
  cbn [retry_loop]. rewrite Hall by lia.
  rewrite (IH (S retry) (S retry)) by (try lia; intros k Hk; apply Hall; lia).
  cbn [returned attempts lastRetryCount delays pred]. f_equal.
  - destruct rounds; [lia|reflexivity].
  - destruct rounds as [|rounds].
    + replace (retry <? maxRetries)%nat with false
        by (symmetry; apply Nat.ltb_ge; lia). reflexivity.
    + replace (retry <? maxRetries)%nat with true
        by (symmetry; apply Nat.ltb_lt; lia). reflexivity.
Qed.

Lemma total_backoff (retryDelay : N) (n : nat) :
  total (backoff retryDelay 0 n) = (retryDelay * (2 ^ N.of_nat n - 1))%N.
Proof.
  assert (H : forall from,
             (total (backoff retryDelay from n)
              = retryDelay * 2 ^ N.of_nat from * (2 ^ N.of_nat n - 1))%N).
  { induction n as [|n IH]; intros from.
    - cbn. lia.
    - unfold backoff. cbn [seq List.map total fold_right].
      change (fold_right N.add 0%N (List.map _ (seq (S from) n)))
        with (total (backoff retryDelay (S from) n)).
      rewrite IH, !Nat2N.inj_succ, !N.pow_succ_r'.
      pose proof (N.pow_nonzero 2 (N.of_nat n)) as Hpos.
      replace (2 * 2 ^ N.of_nat n - 1)%N
        with (1 + 2 * (2 ^ N.of_nat n - 1))%N by lia.
      ring. }
  rewrite H. cbn [N.of_nat]. rewrite N.pow_0_r. lia.
Qed.

(** X5. When every call of [this.emit] throws, [emitWithRetry] gives up
    after [maxRetries + 1] calls: it has waited [retryDelay],
    [2 retryDelay], [4 retryDelay], ... between them,
    [retryDelay * (2^maxRetries - 1)] in all, and leaves
    [retryCount = maxRetries + 1] on the event. *)
Theorem retries_back_off_and_give_up (maxRetries : nat) (retryDelay : N)
    (throws : nat -> bool) (e : eventData) :
  (forall k, (k <= maxRetries)%nat -> throws k = true) ->
  let r := emitWithRetry maxRetries retryDelay throws e in
  returned r = false
  /\ attempts r = S maxRetries
  /\ lastRetryCount r = S maxRetries
  /\ delays r = backoff retryDelay 0 maxRetries
  /\ total (delays r) = (retryDelay * (2 ^ N.of_nat maxRetries - 1))%N.
Proof.
  intros Hall r. subst r. unfold emitWithRetry.
  rewrite retry_loop_exhausted by (try lia; intros k Hk; apply Hall; lia).
  cbn [returned attempts lastRetryCount delays pred].
  rewrite total_backoff. auto.
Qed.

Lemma default_retries_wait_seven_seconds :
  (forall k, (k <= 3)%nat -> (fun _ : nat => true) k = true)
  /\ let r := emitWithRetry 3 1000 (fun _ => true) low_event in
     returned r = false
     /\ attempts r = 4%nat
     /\ lastRetryCount r = 4%nat
     /\ delays r = backoff 1000 0 3
     /\ total (delays r) = (1000 * (2 ^ N.of_nat 3 - 1))%N.
Proof.
  split; [reflexivity|].
  apply (retries_back_off_and_give_up 3 1000 (fun _ => true) low_event).
  reflexivity.
Defined.

Lemma retry_loop_succeeds (maxRetries : nat) (retryDelay : N)
    (throws : nat -> bool) (k : nat) :
  forall rounds retry count,
    (retry + rounds = S maxRetries)%nat ->
    (retry + k <= maxRetries)%nat ->
    (forall j, (retry <= j < retry + k)%nat -> throws j = true) ->
    throws (retry + k)%nat = false ->
    retry_loop rounds retry maxRetries retryDelay throws count
    = {| returned := true;
         attempts := S k;
         lastRetryCount := match k with
                           | O => count
                           | S _ => (retry + k)%nat
                           end;
         delays := backoff retryDelay retry k |}.
Proof.
  induction k as [|k IH]; intros rounds retry count Hsum Hle Hall Hok.
  - destruct rounds as [|rounds]; [lia|]. cbn [retry_loop].
    rewrite Nat.add_0_r in Hok. rewrite Hok. reflexivity.
  - destruct rounds as [|rounds]; [lia|]. cbn [retry_loop].
    rewrite Hall by lia.
    rewrite (IH rounds (S retry) (S retry));
      [|lia|lia|intros j Hj; apply Hall; lia|rewrite <- Hok; f_equal; lia].
    cbn [returned attempts lastRetryCount delays].
    replace (retry <? maxRetries)%nat with true
      by (symmetry; apply Nat.ltb_lt; lia).
    f_equal. destruct k; lia.
Qed.

(** X6. When [this.emit] throws in the rounds before round [k] and not in
    round [k <= maxRetries], [emitWithRetry] returns after [k + 1] calls
    and [k] doubling waits; an event delivered in the first round keeps
    its [retryCount]. *)
Theorem retry_stops_at_the_first_success (maxRetries : nat) (retryDelay : N)
    (throws : nat -> bool) (e : eventData) (k : nat) :
  (k <= maxRetries)%nat ->
  (forall j, (j < k)%nat -> throws j = true) ->
  throws k = false ->
  emitWithRetry maxRetries retryDelay throws e
  = {| returned := true;
       attempts := S k;
       lastRetryCount := match k with O => retryCount e | S _ => k end;
       delays := backoff retryDelay 0 k |}.
Proof.
  intros Hk Hall Hok. unfold emitWithRetry.
  apply (retry_loop_succeeds maxRetries retryDelay throws k);
    [lia|lia|intros j Hj; apply Hall; lia|exact Hok].
Qed.

Lemma third_round_delivers :
  (2 <= 3)%nat
  /\ (forall j, (j < 2)%nat -> (fun n => (n <? 2)%nat) j = true)
  /\ (fun n => (n <? 2)%nat) 2%nat = false
  /\ emitWithRetry 3 1000 (fun n => (n <? 2)%nat) low_event
     = {| returned := true; attempts := 3; lastRetryCount := 2;
          delays := backoff 1000 0 2 |}.
Proof.
  split; [lia|]. split; [intros j Hj; apply Nat.ltb_lt; exact Hj|].
  split; [reflexivity|].
  apply (retry_stops_at_the_first_success
           3 1000 (fun n => (n <? 2)%nat) low_event 2);
    [lia|intros j Hj; apply Nat.ltb_lt; exact Hj|reflexivity].
Defined.

End EventFlowFacts.

(** ** Every interleaving of the connection pool *)

Module PoolAccountingFacts.
Import ConnectionPool PoolAccounting ConnectionPoolFacts ListFacts.

Lemma find_idle_some (l : list connection) (i : nat) :
  find_idle l = Some i ->
  exists c, l !! i = Some c /\ inUse c = false.
Proof.
  revert i. induction l as [|c l IH]; intros i H; [discriminate|].
  cbn [find_idle] in H. destruct (inUse c) eqn:E.
  - destruct (find_idle l) as [j|]; [|discriminate]. injection H as <-.
    destruct (IH j eq_refl) as [c' Hc']. exists c'. exact Hc'.
  - injection H as <-. exists c. auto.
Qed.

Lemma filter_alter_in_use (f : connection -> connection)
    (l : list connection) (i : nat) (c : connection) :
  l !! i = Some c ->
  Z.of_nat (length (List.filter inUse (alter f i l)))
  = Z.of_nat (length (List.filter inUse l))
    + Z.b2z (inUse (f c)) - Z.b2z (inUse c).
Proof.
  revert i. induction l as [|x l IH]; intros i H; [discriminate|].
  destruct i as [|i].
  - injection H as ->. cbn [alter list_alter List.filter].
    destruct (inUse (f c)), (inUse c); cbn [length Z.b2z]; lia.
  - cbn [alter list_alter List.filter]. cbn in H. specialize (IH i H).
    cbn [alter] in IH. destruct (inUse x); cbn [length]; lia.
Qed.

Lemma active_counter_step (p p' : pool) (l : label) :
  activeConnections p = in_use_count p ->
  step p l = Some p' ->
  activeConnections p' = in_use_count p'.
Proof.
  unfold in_use_count. intros Hinv Hstep.
  destruct l as [c|c|c|i]; cbn [step] in Hstep.
  - injection Hstep as <-. unfold getConnection.
    destruct (find_idle (connections p)) as [i|] eqn:E.
    + destruct (find_idle_some _ _ E) as (x & Hx & Hidle).
      cbn [activeConnections connections].
      rewrite (filter_alter_in_use hand_out _ i x Hx), Hidle.
      cbn [hand_out inUse Z.b2z]. lia.
    + destruct (length (connections p) <? maxConnections p)%nat;
        exact Hinv.
  - destruct (bool_decide (c ∈ creating p)); [|discriminate].
    injection Hstep as <-. cbn [connectionCreated activeConnections connections].
    rewrite List.filter_app, length_app. cbn [List.filter inUse length]. lia.
  - destruct (bool_decide (c ∈ creating p)); [|discriminate].
    injection Hstep as <-. exact Hinv.
  - destruct (connections p !! i) as [x|] eqn:Hx; [|discriminate].
    destruct (inUse x) eqn:Hbusy; [|discriminate]. injection Hstep as <-.
    unfold releaseConnection. destruct (waitingQueue p);
      cbn [activeConnections connections];
      rewrite (filter_alter_in_use _ _ i x Hx), Hbusy;
      cbn [hand_out give_back inUse Z.b2z]; lia.
Qed.

(** X7. [activeConnections] is the number of connections in use, after any
    interleaving of acquires, completed or failed creations and
    releases of checked-out connections. *)
Theorem active_counter_counts_connections_in_use (configured : nat)
    (ls : list label) (p : pool) :
  run (initial configured) ls = Some p ->
  activeConnections p = in_use_count p.
Proof.
  assert (H : forall q, activeConnections q = in_use_count q ->
                        run q ls = Some p ->
                        activeConnections p = in_use_count p).
  { induction ls as [|l ls IH]; intros q Hq Hrun; cbn [run] in Hrun.
    - injection Hrun as <-. exact Hq.
    - destruct (step q l) as [q1|] eqn:E; [|discriminate].
      exact (IH q1 (active_counter_step q q1 l Hq E) Hrun). }
  apply H. unfold in_use_count, initial. cbn [activeConnections connections].
  induction (seq 0 _) as [|i s IHs]; [reflexivity|exact IHs].
Qed.

Lemma six_callers_are_counted :
  exists p,
    run (initial 0)
        [Acquire 1; Acquire 2; Acquire 3; Created 3; Release 0; Release 2]
    = Some p
    /\ activeConnections p = in_use_count p.
Proof.
  eexists. split; [vm_compute; reflexivity|].
  apply (active_counter_counts_connections_in_use
           0 [Acquire 1; Acquire 2; Acquire 3; Created 3; Release 0;
              Release 2]).
  vm_compute. reflexivity.
Defined.

Lemma Forall_alter_busy (f : connection -> connection)
    (l : list connection) (i : nat) :
  (forall c, inUse (f c) = true) ->
  Forall (fun c => inUse c = true) l ->
  Forall (fun c => inUse c = true) (alter f i l).
Proof.
  intros Hf H. revert i. induction H as [|c l Hc Hl IH]; intros i;
    [constructor|].
  destruct i as [|i]; constructor; auto.
Qed.

Lemma waiting_step (p p' : pool) (l : label) :
  (waitingQueue p <> [] ->
   Forall (fun c => inUse c = true) (connections p)
   /\ (maxConnections p <= length (connections p))%nat) ->
  step p l = Some p' ->
  (waitingQueue p' <> [] ->
   Forall (fun c => inUse c = true) (connections p')
   /\ (maxConnections p' <= length (connections p'))%nat).
Proof.
  intros Hinv Hstep. destruct l as [c|c|c|i]; cbn [step] in Hstep.
  - injection Hstep as <-. unfold getConnection.
    destruct (find_idle (connections p)) as [i|] eqn:E.
    + cbn [waitingQueue connections maxConnections]. intros Hq.
      destruct (Hinv Hq) as [Hbusy _]. apply find_idle_none in Hbusy.
      congruence.
    + destruct (Nat.ltb_spec (length (connections p)) (maxConnections p));
        cbn [waitingQueue connections maxConnections].
      * intros Hq. destruct (Hinv Hq). lia.
      * intros _. split; [apply find_idle_none; exact E|assumption].
  - destruct (bool_decide (c ∈ creating p)); [|discriminate].
    injection Hstep as <-.
    cbn [connectionCreated waitingQueue connections maxConnections].
    intros Hq. destruct (Hinv Hq) as [Hbusy Hmax]. split.
    + apply Forall_app. split; [exact Hbusy|]. repeat constructor.
    + rewrite length_app. lia.
  - destruct (bool_decide (c ∈ creating p)); [|discriminate].
    injection Hstep as <-. exact Hinv.
  - destruct (connections p !! i) as [x|] eqn:Hx; [|discriminate].
    destruct (inUse x) eqn:Hbusy; [|discriminate]. injection Hstep as <-.
    unfold releaseConnection. destruct (waitingQueue p) as [|w rest] eqn:Q;
      cbn [waitingQueue connections maxConnections]; [congruence|].
    intros _. destruct Hinv as [Hall Hmax]; [discriminate|].
    rewrite length_alter. split; [|exact Hmax].
    apply Forall_alter_busy; [reflexivity|exact Hall].
Qed.

(** X8. A caller waits in the queue only while every connection is in use
    and the pool holds at least [maxConnections] of them: no
    interleaving leaves a caller queued beside an idle connection. *)
Theorem callers_wait_only_for_busy_connections (configured : nat)
    (ls : list label) (p : pool) :
  run (initial configured) ls = Some p ->
  waitingQueue p <> [] ->
  Forall (fun c => inUse c = true) (connections p)
  /\ (maxConnections p <= length (connections p))%nat.
Proof.
  assert (H : forall q,
             (waitingQueue q <> [] ->
              Forall (fun c => inUse c = true) (connections q)
              /\ (maxConnections q <= length (connections q))%nat) ->
             run q ls = Some p ->
             waitingQueue p <> [] ->
             Forall (fun c => inUse c = true) (connections p)
             /\ (maxConnections p <= length (connections p))%nat).
  { induction ls as [|l ls IH]; intros q Hq Hrun; cbn [run] in Hrun.
    - injection Hrun as <-. exact Hq.
    - destruct (step q l) as [q1|] eqn:E; [|discriminate].
      exact (IH q1 (waiting_step q q1 l Hq E) Hrun). }
  apply H. intros Hq. exfalso. apply Hq. reflexivity.
Qed.

Lemma second_caller_waits_for_the_only_connection :
  exists p,
    run (initial 1) [Acquire 1; Acquire 2] = Some p
    /\ waitingQueue p <> []
    /\ Forall (fun c => inUse c = true) (connections p)
    /\ (maxConnections p <= length (connections p))%nat.
Proof.
  eexists. split; [vm_compute; reflexivity|]. split; [discriminate|].
  apply (callers_wait_only_for_busy_connections 1 [Acquire 1; Acquire 2]);
    [vm_compute; reflexivity|discriminate].
Defined.

Lemma grants_snoc (i : nat) (log : list (nat * nat)) (c j : nat) :
  grants_of i (log ++ [(c, j)])
  = (grants_of i log + if bool_decide (i = j) then 1 else 0)%nat.
Proof.
  unfold grants_of. rewrite List.filter_app, length_app.
  cbn [List.filter snd]. case_bool_decide as E.
  - subst. rewrite Nat.eqb_refl. reflexivity.
  - replace (j =? i)%nat with false
      by (symmetry; apply Nat.eqb_neq; congruence). cbn. lia.
Qed.

Lemma holder_step (p p' : pool) (l : label) (i : nat) :
  step p l = Some p' ->
  (grants_of i (granted p') + held p i
   = grants_of i (granted p) + releases_of i [l] + held p' i)%nat.
Proof.
  intros Hstep. destruct l as [c|c|c|j]; cbn [step] in Hstep.
  - injection Hstep as <-. unfold getConnection.
    destruct (find_idle (connections p)) as [j|] eqn:E.
    + destruct (find_idle_some _ _ E) as (x & Hx & Hidle).
      unfold held. cbn [granted connections].
      rewrite grants_snoc, lookup_alter_cases.
      case_bool_decide as Hi.
      * subst i. rewrite Hx, Hidle. cbn. lia.
      * destruct (connections p !! i) as [y|]; cbn; lia.
    + destruct (length (connections p) <? maxConnections p)%nat;
        cbn [granted]; unfold held; cbn [connections]; cbn; lia.
  - destruct (bool_decide (c ∈ creating p)); [|discriminate].
    injection Hstep as <-. unfold held, connectionCreated.
    cbn [granted connections]. rewrite grants_snoc.
    case_bool_decide as Hi.
    + subst i. rewrite lookup_app_r by lia. rewrite Nat.sub_diag.
      rewrite (lookup_ge_None_2 (connections p)) by lia. cbn. lia.
    + destruct (Nat.lt_ge_cases i (length (connections p))) as [Hlt|Hge].
      * rewrite lookup_app_l by exact Hlt.
        destruct (connections p !! i); cbn; lia.
      * rewrite lookup_app_r by exact Hge.
        rewrite (lookup_ge_None_2 (connections p)) by exact Hge.
        destruct (i - length (connections p))%nat as [|k] eqn:K; [lia|].
        destruct k; cbn; lia.
  - destruct (bool_decide (c ∈ creating p)); [|discriminate].
    injection Hstep as <-. unfold held, connectionFailed.
    cbn [granted connections]. cbn. lia.
  - destruct (connections p !! j) as [x|] eqn:Hx; [|discriminate].
    destruct (inUse x) eqn:Hbusy; [|discriminate]. injection Hstep as <-.
    unfold releaseConnection, releases_of. cbn [List.filter].
    destruct (waitingQueue p) as [|w rest]; unfold held;
      cbn [granted connections]; rewrite ?grants_snoc, lookup_alter_cases;
      destruct (Nat.eqb_spec j i) as [->|Hne].
    + rewrite bool_decide_eq_true_2 by reflexivity. rewrite Hx, Hbusy.
      cbn. lia.
    + rewrite bool_decide_eq_false_2 by congruence.
      destruct (connections p !! i); cbn; lia.
    + rewrite !bool_decide_eq_true_2 by reflexivity. rewrite Hx, Hbusy.
      cbn. lia.
    + rewrite !bool_decide_eq_false_2 by congruence.
      destruct (connections p !! i); cbn; lia.
Qed.

Lemma holder_run (ls : list label) (p p' : pool) (i : nat) :
  run p ls = Some p' ->
  (grants_of i (granted p') + held p i
   = grants_of i (granted p) + releases_of i ls + held p' i)%nat.
Proof.
  revert p. induction ls as [|l ls IH]; intros p Hrun; cbn [run] in Hrun.
  - injection Hrun as <-. cbn. lia.
  - destruct (step p l) as [p1|] eqn:E; [|discriminate].
    pose proof (holder_step p p1 l i E) as H1.
    pose proof (IH p1 Hrun) as H2.
    assert (H3 : releases_of i (l :: ls)
                 = (releases_of i [l] + releases_of i ls)%nat).
    { unfold releases_of. cbn [List.filter].
      destruct l as [c|c|c|j]; try reflexivity.
      destruct (j =? i)%nat; reflexivity. }
    lia.
Qed.

(** X9. A connection has one holder at a time: in every interleaving, the
    grants of a connection are its releases, plus one while it is
    checked out. Between two grants of the same connection there is a
    release of it. *)
Theorem connection_has_one_holder (configured : nat) (ls : list label)
    (p : pool) (i : nat) :
  run (initial configured) ls = Some p ->
  grants_of i (granted p) = (releases_of i ls + held p i)%nat
  /\ (held p i <= 1)%nat.
Proof.
  intros Hrun. pose proof (holder_run ls _ p i Hrun) as H.
  assert (H0 : held (initial configured) i = 0%nat).
  { unfold held, initial. cbn [connections].
    rewrite list_lookup_fmap. destruct (seq 0 _ !! i); reflexivity. }
  rewrite H0 in H. cbn [initial granted grants_of List.filter length] in H.
  split; [lia|]. unfold held. destruct (connections p !! i) as [c|]; [|lia].
  destruct (inUse c); lia.
Qed.

Lemma connection_zero_changes_hands :
  exists p,
    run (initial 1) [Acquire 1; Acquire 2; Release 0] = Some p
    /\ grants_of 0 (granted p)
       = (releases_of 0 [Acquire 1; Acquire 2; Release 0] + held p 0)%nat
    /\ (held p 0 <= 1)%nat.
Proof.
  eexists. split; [vm_compute; reflexivity|].
  apply (connection_has_one_holder 1 [Acquire 1; Acquire 2; Release 0]).
  vm_compute. reflexivity.
Defined.

Lemma queue_callers (cs : list nat) (p : pool) :
  exhausted p ->
  run p (List.map Acquire cs)
  = Some {| maxConnections := maxConnections p;
            connections := connections p;
            activeConnections := activeConnections p;
            waitingQueue := waitingQueue p ++ cs;
            creating := creating p;
            granted := granted p;
            connectionReuses := connectionReuses p |}.
Proof.
  revert p. induction cs as [|c cs IH]; intros p [Hbusy Hmax].
  - cbn. rewrite app_nil_r. destruct p; reflexivity.
  - cbn [List.map run step].
    assert (E : getConnection c p
                = {| maxConnections := maxConnections p;
                     connections := connections p;
                     activeConnections := activeConnections p;
                     waitingQueue := waitingQueue p ++ [c];
                     creating := creating p;
                     granted := granted p;
                     connectionReuses := connectionReuses p |}).
    { unfold getConnection.
      rewrite (proj2 (find_idle_none (connections p)) Hbusy).
      replace (length (connections p) <? maxConnections p)%nat with false
        by (symmetry; apply Nat.ltb_ge; exact Hmax).
      reflexivity. }
    rewrite E, IH by (split; assumption).
    cbn [maxConnections connections activeConnections waitingQueue creating
         granted connectionReuses].
    rewrite <- app_assoc. reflexivity.
Qed.

Lemma serve_waiters (conns ws : list nat) :
  forall p,
    Forall (fun c => inUse c = true) (connections p) ->
    waitingQueue p = ws ->
    (length conns <= length ws)%nat ->
    Forall (fun i => (i < length (connections p))%nat) conns ->
    exists p',
      run p (List.map Release conns) = Some p'
      /\ granted p' = granted p ++ combine ws conns
      /\ waitingQueue p' = skipn (length conns) ws
      /\ length (connections p') = length (connections p)
      /\ Forall (fun c => inUse c = true) (connections p')
      /\ activeConnections p' = activeConnections p.
Proof.
  revert ws. induction conns as [|i conns IH]; intros ws p Hbusy Hq Hlen Hin.
  - exists p. cbn [List.map run length skipn]. rewrite combine_nil, app_nil_r.
    repeat split; auto.
  - destruct ws as [|w ws]; [cbn in Hlen; lia|].
    apply Forall_cons_1 in Hin as [Hi Hin].
    destruct (lookup_lt_is_Some_2 _ _ Hi) as [x Hx].
    assert (Hxb : inUse x = true).
    { exact (Forall_lookup_1 _ _ _ _ Hbusy Hx). }
    cbn [List.map run step]. rewrite Hx, Hxb.
    destruct (IH ws (releaseConnection i p)) as (p' & H1 & H2 & H3 & H4 & H5 & H6).
    + unfold releaseConnection. rewrite Hq. cbn [connections].
      apply Forall_alter_busy; [reflexivity|exact Hbusy].
    + unfold releaseConnection. rewrite Hq. reflexivity.
    + cbn [length] in Hlen. lia.
    + unfold releaseConnection. rewrite Hq. cbn [connections].
      rewrite length_alter. exact Hin.
    + exists p'. split; [exact H1|].
      unfold releaseConnection in H2, H4, H6. rewrite Hq in H2, H4, H6.
      cbn [granted connections activeConnections] in H2, H4, H6.
      rewrite length_alter in H4.
      split; [rewrite H2, <- app_assoc; reflexivity|].
      split; [exact H3|]. split; [exact H4|]. split; [exact H5|lia].
Qed.

Lemma run_app (l1 l2 : list label) (p q r : pool) :
  run p l1 = Some q -> run q l2 = Some r -> run p (l1 ++ l2) = Some r.
Proof.
  revert p. induction l1 as [|a l1 IH]; intros p H1 H2.
  - cbn [run] in H1. injection H1 as ->. exact H2.
  - cbn [app run] in *. destruct (step p a); [eauto|discriminate].
Qed.

(** X10. Callers that find the pool exhausted are served in the order of
    their calls: when [cs] call [getConnection] and then the connections
    [conns] are released, the k-th release hands its connection to the k-th
    caller, no connection is created, and the callers not yet served
    stay queued in order. *)
Theorem waiting_callers_are_served_in_order (cs conns : list nat) (p : pool) :
  exhausted p ->
  waitingQueue p = [] ->
  (length conns <= length cs)%nat ->
  Forall (fun i => (i < length (connections p))%nat) conns ->
  exists p',
    run p (queue_then_release cs conns) = Some p'
    /\ granted p' = granted p ++ combine cs conns
    /\ waitingQueue p' = skipn (length conns) cs
    /\ length (connections p') = length (connections p)
    /\ activeConnections p' = activeConnections p.
Proof.
  intros Hex Hq Hlen Hin. unfold queue_then_release.
  pose proof (queue_callers cs p Hex) as H1.
  set (q := {| maxConnections := maxConnections p;
               connections := connections p;
               activeConnections := activeConnections p;
               waitingQueue := waitingQueue p ++ cs;
               creating := creating p;
               granted := granted p;
               connectionReuses := connectionReuses p |}) in H1.
  destruct (serve_waiters conns cs q) as (p' & H2 & H3 & H4 & H5 & _ & H6).
  - exact (proj1 Hex).
  - subst q. cbn [waitingQueue]. rewrite Hq. reflexivity.
  - exact Hlen.
  - exact Hin.
  - exists p'. split; [|auto].
    exact (run_app _ _ p q p' H1 H2).
Qed.

Lemma two_waiters_get_the_two_connections :
  exists p,
    run (initial 2) [Acquire 1; Acquire 2] = Some p
    /\ exhausted p
    /\ waitingQueue p = []
    /\ (length [1; 0]%nat <= length [3; 4]%nat)%nat
    /\ Forall (fun i => (i < length (connections p))%nat) [1; 0]%nat
    /\ exists p',
         run p (queue_then_release [3; 4]%nat [1; 0]%nat) = Some p'
         /\ granted p' = granted p ++ combine [3; 4]%nat [1; 0]%nat
         /\ waitingQueue p' = skipn (length [1; 0]%nat) [3; 4]%nat
         /\ length (connections p') = length (connections p)
         /\ activeConnections p' = activeConnections p.
Proof.
  eexists. split; [vm_compute; reflexivity|].
  assert (Hex : exhausted
                  {| maxConnections := 2;
                     connections :=
                       [{| conn_id := 0; inUse := true; queries := 1 |};
                        {| conn_id := 1; inUse := true; queries := 1 |}];
                     activeConnections := 2;
                     waitingQueue := [];
                     creating := [];
                     granted := [(1, 0); (2, 1)]%nat;
                     connectionReuses := 2 |}).
  { split; [repeat constructor|cbn; lia]. }
  assert (Hin : Forall (fun i => (i < 2)%nat) [1; 0]%nat).
  { repeat constructor. }
  split; [exact Hex|]. split; [reflexivity|]. split; [cbn; lia|].
  split; [exact Hin|].
  apply (waiting_callers_are_served_in_order [3; 4]%nat [1; 0]%nat);
    [exact Hex|reflexivity|cbn; lia|exact Hin].
Defined.

(** X11. As long as no other call runs between an executor's check of
    [connections.length] and its push, that is, when connections are
    created one at a time, the pool never holds more than
    [maxConnections] connections. *)
Theorem serial_callers_stay_within_the_maximum (configured : nat)
    (ls : list label) (p : pool) :
  serial (initial configured) ls ->
  run (initial configured) ls = Some p ->
  (length (connections p) <= maxConnections p)%nat.
Proof.
  apply serial_schedule_respects_maximum. left. split; [reflexivity|].
  unfold initial. cbn [connections maxConnections].
  rewrite length_map, length_seq. lia.
Qed.

Lemma one_creation_at_a_time_stays_within_five :
  exists p,
    serial (initial 0)
         [Acquire 1; Acquire 2; Acquire 3; Created 3; Acquire 4; Created 4;
          Release 0; Acquire 5]
    /\ run (initial 0)
         [Acquire 1; Acquire 2; Acquire 3; Created 3; Acquire 4; Created 4;
          Release 0; Acquire 5]
       = Some p
    /\ (length (connections p) <= maxConnections p)%nat.
Proof.
  assert (Hserial : serial (initial 0)
                      [Acquire 1; Acquire 2; Acquire 3; Created 3; Acquire 4;
                       Created 4; Release 0; Acquire 5])
    by (vm_compute; repeat split).
  eexists. split; [exact Hserial|].
  split; [vm_compute; reflexivity|].
  apply (serial_callers_stay_within_the_maximum
           0 [Acquire 1; Acquire 2; Acquire 3; Created 3; Acquire 4; Created 4;
              Release 0; Acquire 5]);
    [exact Hserial|vm_compute; reflexivity].
Defined.

End PoolAccountingFacts.

(** ** The load of the workers *)

Module WorkerLoadFacts.
Import Js StreamProcessor WorkerLoad ListFacts.

Lemma prefer_idle_prefix (rest : list (nat * worker)) (first : nat * worker) :
  Forall (fun w => jobCount (snd w) = 0%nat) (List.removelast (first :: rest)) ->
  fold_left prefer rest first = List.last rest first.
Proof.
  revert first. induction rest as [|a rest IH]; intros first H; [reflexivity|].
  change (List.removelast (first :: a :: rest)) with (first :: List.removelast (a :: rest)) in H.
  apply Forall_cons_1 in H as [H0 H].
  cbn [fold_left]. unfold prefer at 2. rewrite H0.
  rewrite (IH a H). destruct rest as [|b rest]; [reflexivity|].
  change (List.last (a :: b :: rest) first) with (List.last (b :: rest) first).
  apply last_default.
Qed.

Lemma funnel_choice (m k : nat) :
  getAvailableWorker (repeat idle m ++ [{| jobCount := k |}])
  = Some (m, repeat idle m ++ [{| jobCount := S k |}]).
Proof.
  unfold getAvailableWorker.
  assert (Hi : indexed (repeat idle m ++ [{| jobCount := k |}])
               = combine (seq 0 m) (repeat idle m) ++ [(m, {| jobCount := k |})]).
  { unfold indexed. rewrite length_app, repeat_length. cbn [length].
    rewrite seq_app. cbn [seq Nat.add].
    rewrite combine_snoc by (rewrite length_seq, repeat_length; reflexivity).
    reflexivity. }
  rewrite Hi.
  assert (Hidle : Forall (fun w : nat * worker => jobCount (snd w) = 0%nat)
                         (combine (seq 0 m) (repeat idle m))).
  { apply List.Forall_forall. intros [i w] Hin. apply in_combine_r in Hin.
    apply repeat_spec in Hin. subst w. reflexivity. }
  assert (Halter : alter busier m (repeat idle m ++ [{| jobCount := k |}])
                   = repeat idle m ++ [{| jobCount := S k |}]).
  { rewrite alter_app_r_alt by (rewrite repeat_length; lia).
    rewrite repeat_length, Nat.sub_diag. reflexivity. }
  destruct (combine (seq 0 m) (repeat idle m)) as [|first rest] eqn:E.
  - cbn [app fold_left fst]. rewrite Halter. reflexivity.
  - cbn [app]. rewrite prefer_idle_prefix.
    + rewrite List.last_last. cbn [fst]. rewrite Halter. reflexivity.
    + rewrite app_comm_cons, removelast_last. exact Hidle.
Qed.

Lemma funnel_release (m k : nat) :
  releaseWorker m (repeat idle m ++ [{| jobCount := k |}])
  = repeat idle m ++ [{| jobCount := pred k |}].
Proof.
  unfold releaseWorker.
  rewrite alter_app_r_alt by (rewrite repeat_length; lia).
  rewrite repeat_length, Nat.sub_diag. destruct k; reflexivity.
Qed.

(** What every run from a fresh pool of [S m] workers keeps: the first
    [m] workers are idle, the last one carries one job per unanswered
    task, and every task was given to the last worker. *)
Lemma funnel_step (m : nat) (p p' : processor) (ev : event) :
  workerPool p = repeat idle m ++ [{| jobCount := unanswered p |}] ->
  (forall id t, tasks p !! id = Some t -> task_worker t = m) ->
  step p ev = Some p' ->
  workerPool p' = repeat idle m ++ [{| jobCount := unanswered p' |}]
  /\ (forall id t, tasks p' !! id = Some t -> task_worker t = m).
Proof.
  intros Hpool Htasks Hstep. destruct ev as [id|id r|id|]; cbn [step] in Hstep.
  - destruct (tasks p !! id) as [t|] eqn:E; [discriminate|].
    unfold executeWorkerTask in Hstep. rewrite Hpool, funnel_choice in Hstep.
    injection Hstep as <-. cbn [workerPool tasks]. unfold unanswered.
    cbn [tasks]. split.
    + rewrite map_filter_insert_True by reflexivity.
      rewrite map_size_insert_None; [reflexivity|].
      apply map_lookup_filter_None_2. left. exact E.
    + intros id' t'. rewrite lookup_insert_Some.
      intros [[_ <-]|[_ H]]; [reflexivity|eauto].
  - destruct (tasks p !! id) as [t|] eqn:E; [|discriminate].
    destruct (listening t) eqn:L; [|discriminate].
    injection Hstep as <-. unfold messageHandler. cbn [workerPool tasks].
    unfold unanswered. cbn [tasks]. split.
    + rewrite (Htasks id t E), Hpool, funnel_release.
      rewrite map_filter_insert_False by (cbn; discriminate).
      rewrite map_filter_delete, map_size_delete_Some; [reflexivity|].
      exists t. apply map_lookup_filter_Some_2; [exact E|exact L].
    + intros id' t'. rewrite lookup_insert_Some.
      intros [[_ <-]|[_ H]]; [cbn; eauto|eauto].
  - destruct (tasks p !! id) as [t|] eqn:E; [|discriminate].
    destruct (timer t) eqn:T; [|discriminate].
    injection Hstep as <-. unfold timeoutFired. cbn [workerPool tasks].
    unfold unanswered. cbn [tasks]. split.
    + rewrite Hpool. do 3 f_equal.
      destruct (listening t) eqn:L.
      * rewrite map_filter_insert_True by reflexivity.
        rewrite map_size_insert_Some; [reflexivity|].
        exists t. apply map_lookup_filter_Some_2; [exact E|exact L].
      * rewrite map_filter_insert_False by (cbn; discriminate).
        rewrite map_filter_delete, map_size_delete_None; [reflexivity|].
        apply map_lookup_filter_None_2. right. intros x Hx.
        rewrite E in Hx. injection Hx as <-. cbn. rewrite L. discriminate.
    + intros id' t'. rewrite lookup_insert_Some.
      intros [[_ <-]|[_ H]]; [cbn; eauto|eauto].
  - injection Hstep as <-. unfold checkBackpressure.
    destruct (saturated p); cbn [snd workerPool tasks]; unfold unanswered;
      cbn [tasks]; split; assumption.
Qed.

Lemma funnel_run (m : nat) (evs : list event) (p p' : processor) :
  workerPool p = repeat idle m ++ [{| jobCount := unanswered p |}] ->
  (forall id t, tasks p !! id = Some t -> task_worker t = m) ->
  run p evs = Some p' ->
  workerPool p' = repeat idle m ++ [{| jobCount := unanswered p' |}]
  /\ (forall id t, tasks p' !! id = Some t -> task_worker t = m).
Proof.
  revert p. induction evs as [|ev evs IH]; intros p Hpool Htasks Hrun;
    cbn [run] in Hrun.
  - injection Hrun as <-. split; assumption.
  - destruct (step p ev) as [p1|] eqn:E; [|discriminate].
    destruct (funnel_step m p p1 ev Hpool Htasks E) as [H1 H2]. eauto.
Qed.

Lemma fresh_funnel (m : nat) :
  workerPool (fresh (S m))
  = repeat idle m ++ [{| jobCount := unanswered (fresh (S m)) |}].
Proof.
  unfold fresh, unanswered. cbn [workerPool tasks].
  rewrite map_filter_empty, map_size_empty.
  change (repeat {| jobCount := 0 |} (S m)) with (repeat idle (S m)).
  rewrite <- repeat_cons. reflexivity.
Qed.

(** A pool without workers accepts no task. *)
Lemma no_worker_no_task (evs : list event) (p p' : processor) :
  workerPool p = [] -> tasks p = ∅ -> run p evs = Some p' ->
  workerPool p' = [] /\ tasks p' = ∅.
Proof.
  revert p. induction evs as [|ev evs IH]; intros p Hpool Htasks Hrun;
    cbn [run] in Hrun.
  - injection Hrun as <-. split; assumption.
  - destruct (step p ev) as [p1|] eqn:E; [|discriminate].
    apply (IH p1); [| |exact Hrun].
    + destruct ev as [id|id r|id|]; cbn [step] in E.
      * rewrite Htasks, lookup_empty in E. unfold executeWorkerTask in E.
        rewrite Hpool in E. discriminate.
      * rewrite Htasks, lookup_empty in E. discriminate.
      * rewrite Htasks, lookup_empty in E. discriminate.
      * injection E as <-. unfold checkBackpressure.
        destruct (saturated p); exact Hpool.
    + destruct ev as [id|id r|id|]; cbn [step] in E.
      * rewrite Htasks, lookup_empty in E. unfold executeWorkerTask in E.
        rewrite Hpool in E. discriminate.
      * rewrite Htasks, lookup_empty in E. discriminate.
      * rewrite Htasks, lookup_empty in E. discriminate.
      * injection E as <-. unfold checkBackpressure.
        destruct (saturated p); exact Htasks.
Qed.

(** X12. From a fresh pool, whatever the events, every task is given to the
    last worker of the pool and every other worker stays idle: the
    [reduce] of [getAvailableWorker] replaces an idle candidate by the
    next worker, so the least loaded worker is never the one chosen. *)
Theorem every_task_goes_to_the_last_worker (n : nat) (evs : list event)
    (p : processor) :
  run (fresh n) evs = Some p ->
  (forall id t, tasks p !! id = Some t -> task_worker t = pred n)
  /\ (forall w, (w < pred n)%nat -> load p w = Some 0%nat)
  /\ length (workerPool p) = n.
Proof.
  intros Hrun. destruct n as [|m].
  - destruct (no_worker_no_task evs (fresh 0) p eq_refl eq_refl Hrun) as [H1 H2].
    split; [|split].
    + intros id t. rewrite H2, lookup_empty. discriminate.
    + intros w Hw. cbn in Hw. lia.
    + rewrite H1. reflexivity.
  - destruct (funnel_run m evs (fresh (S m)) p (fresh_funnel m)) as [H1 H2];
      [intros id t; cbn; rewrite lookup_empty; discriminate|exact Hrun|].
    cbn [pred]. split; [exact H2|split].
    + intros w Hw. unfold load. rewrite H1.
      rewrite lookup_app_l by (rewrite repeat_length; exact Hw).
      rewrite lookup_repeat by exact Hw. reflexivity.
    + rewrite H1, length_app, repeat_length. cbn [length]. lia.
Qed.

Lemma last_worker_gets_three_tasks :
  exists p,
    run (fresh 3) [Submit 1; Submit 2; Timeout 1; Submit 3] = Some p
    /\ (forall id t, tasks p !! id = Some t -> task_worker t = 2%nat)
    /\ (forall w, (w < 2)%nat -> load p w = Some 0%nat)
    /\ length (workerPool p) = 3%nat.
Proof.
  eexists. split; [vm_compute; reflexivity|].
  apply (every_task_goes_to_the_last_worker
           3 [Submit 1; Submit 2; Timeout 1; Submit 3]).
  vm_compute. reflexivity.
Defined.

(** X13. The load counter of the worker that gets the tasks is the number of
    tasks whose reply has not arrived, timed out or not. *)
Theorem load_counts_unanswered_tasks (m : nat) (evs : list event)
    (p : processor) :
  run (fresh (S m)) evs = Some p ->
  load p m = Some (unanswered p).
Proof.
  intros Hrun.
  destruct (funnel_run m evs (fresh (S m)) p (fresh_funnel m)) as [H1 H2];
    [intros id t; cbn; rewrite lookup_empty; discriminate|exact Hrun|].
  unfold load. rewrite H1.
  rewrite lookup_app_r by (rewrite repeat_length; lia).
  rewrite repeat_length, Nat.sub_diag. reflexivity.
Qed.

Lemma load_after_timeout_and_reply :
  exists p,
    run (fresh 2)
        [Submit 1; Submit 2; Timeout 1; Reply 2 (Worker.Failure (lit "boom"))]
    = Some p
    /\ load p 1 = Some (unanswered p).
Proof.
  eexists. split; [vm_compute; reflexivity|].
  apply (load_counts_unanswered_tasks
           1 [Submit 1; Submit 2; Timeout 1;
              Reply 2 (Worker.Failure (lit "boom"))]).
  vm_compute. reflexivity.
Defined.

Lemma active_jobs_step (p p' : processor) (ev : event) :
  (forall id, tasks p !! id = None -> activeJobs p !! id = None) ->
  step p ev = Some p' ->
  size (activeJobs p') = (size (activeJobs p) + submits [ev])%nat
  /\ (forall id, tasks p' !! id = None -> activeJobs p' !! id = None).
Proof.
  intros Hdom Hstep. destruct ev as [id|id r|id|]; cbn [step] in Hstep.
  - destruct (tasks p !! id) as [t|] eqn:E; [discriminate|].
    unfold executeWorkerTask in Hstep.
    destruct (getAvailableWorker (workerPool p)) as [[w pool']|]; [|discriminate].
    injection Hstep as <-. cbn [activeJobs tasks]. split.
    + rewrite map_size_insert_None by auto. cbn. lia.
    + intros id'. rewrite !lookup_insert_None. intros [H1 H2]. auto.
  - destruct (tasks p !! id) as [t|] eqn:E; [|discriminate].
    destruct (listening t); [|discriminate].
    injection Hstep as <-. cbn [messageHandler activeJobs tasks]. split.
    + cbn. lia.
    + intros id'. rewrite lookup_insert_None. intros [H1 H2]. auto.
  - destruct (tasks p !! id) as [t|] eqn:E; [|discriminate].
    destruct (timer t); [|discriminate].
    injection Hstep as <-. cbn [timeoutFired activeJobs tasks]. split.
    + cbn. lia.
    + intros id'. rewrite lookup_insert_None. intros [H1 H2]. auto.
  - injection Hstep as <-. unfold checkBackpressure.
    destruct (saturated p); cbn [snd activeJobs tasks]; split; auto; cbn; lia.
Qed.

Lemma active_jobs_run (evs : list event) (p p' : processor) :
  (forall id, tasks p !! id = None -> activeJobs p !! id = None) ->
  run p evs = Some p' ->
  size (activeJobs p') = (size (activeJobs p) + submits evs)%nat.
Proof.
  revert p. induction evs as [|ev evs IH]; intros p Hdom Hrun;
    cbn [run] in Hrun.
  - injection Hrun as <-. cbn. lia.
  - destruct (step p ev) as [p1|] eqn:E; [|discriminate].
    destruct (active_jobs_step p p1 ev Hdom E) as [H1 H2].
    rewrite (IH p1 H2 Hrun), H1. unfold submits. cbn [List.filter].
    destruct ev; cbn [length]; lia.
Qed.

Lemma run_keeps_concurrency (evs : list event) (p p' : processor) :
  run p evs = Some p' -> concurrency p' = concurrency p.
Proof.
  revert p. induction evs as [|ev evs IH]; intros p Hrun; cbn [run] in Hrun.
  - injection Hrun as <-. reflexivity.
  - destruct (step p ev) as [p1|] eqn:E; [|discriminate].
    rewrite (IH p1 Hrun). destruct ev as [id|id r|id|]; cbn [step] in E.
    + destruct (tasks p !! id); [discriminate|]. unfold executeWorkerTask in E.
      destruct (getAvailableWorker (workerPool p)) as [[w pool']|];
        [|discriminate].
      injection E as <-. reflexivity.
    + destruct (tasks p !! id) as [t|]; [|discriminate].
      destruct (listening t); [|discriminate]. injection E as <-. reflexivity.
    + destruct (tasks p !! id) as [t|]; [|discriminate].
      destruct (timer t); [|discriminate]. injection E as <-. reflexivity.
    + injection E as <-. unfold checkBackpressure.
      destruct (saturated p); reflexivity.
Qed.

(** X14. [activeJobs] only grows: after any run from a fresh pool its size is
    the number of tasks ever submitted, since neither a reply nor a
    timeout removes an entry; the utilization that [checkBackpressure]
    computes is that number over the concurrency. *)
Theorem active_jobs_are_never_removed (n : nat) (evs : list event)
    (p : processor) :
  run (fresh n) evs = Some p ->
  size (activeJobs p) = submits evs
  /\ utilization p = (num (submits evs) / num n)%float.
Proof.
  intros Hrun.
  assert (H : size (activeJobs p) = submits evs).
  { rewrite (active_jobs_run evs (fresh n) p); [reflexivity| |exact Hrun].
    intros id _. apply lookup_empty. }
  split; [exact H|]. unfold utilization.
  rewrite H, (run_keeps_concurrency evs (fresh n) p Hrun). reflexivity.
Qed.

Lemma finished_tasks_still_count :
  exists p,
    run (fresh 2)
        [Submit 1; Reply 1 (Worker.Failure (lit "boom")); Submit 2; Timeout 2]
    = Some p
    /\ size (activeJobs p) = 2%nat
    /\ utilization p = (num 2 / num 2)%float.
Proof.
  eexists. split; [vm_compute; reflexivity|].
  apply (active_jobs_are_never_removed
           2 [Submit 1; Reply 1 (Worker.Failure (lit "boom")); Submit 2;
              Timeout 2]).
  vm_compute. reflexivity.
Defined.

End WorkerLoadFacts.

(** ** Sequences of calls on the object pool *)

Module PoolUpkeepFacts.
Import Js MemoryPool PoolUpkeep ListFacts.

Lemma tally_insert_None (w : typed_pool -> nat)
    (ps : gmap jsstring typed_pool) (i : jsstring) (x : typed_pool) :
  ps !! i = None -> tally w (<[i := x]> ps) = (tally w ps + w x)%nat.
Proof.
  intros H. unfold tally. rewrite map_fold_insert_L; [reflexivity| |exact H].
  intros; lia.
Qed.

Lemma tally_delete (w : typed_pool -> nat)
    (ps : gmap jsstring typed_pool) (i : jsstring) (y : typed_pool) :
  ps !! i = Some y -> tally w ps = (tally w (delete i ps) + w y)%nat.
Proof.
  intros H. unfold tally.
  rewrite (map_fold_delete_L _ _ i y ps); [reflexivity| |exact H].
  intros; lia.
Qed.

Lemma tally_insert_Some (w : typed_pool -> nat)
    (ps : gmap jsstring typed_pool) (i : jsstring) (x y : typed_pool) :
  ps !! i = Some y ->
  (tally w (<[i := x]> ps) + w y = tally w ps + w x)%nat.
Proof.
  intros H. rewrite <- (insert_delete_eq ps).
  rewrite tally_insert_None by apply lookup_delete_eq.
  rewrite (tally_delete w ps i y H). lia.
Qed.

Lemma tally_fmap (w : typed_pool -> nat) (g : typed_pool -> typed_pool)
    (ps : gmap jsstring typed_pool) :
  tally w (g <$> ps) = tally (fun p => w (g p)) ps.
Proof.
  induction ps as [|i x ps Hi IH] using map_ind.
  - rewrite fmap_empty. reflexivity.
  - rewrite fmap_insert, !tally_insert_None, IH;
      [reflexivity|exact Hi|rewrite lookup_fmap, Hi; reflexivity].
Qed.

Lemma tally_filter (w : typed_pool -> nat)
    (P : jsstring * typed_pool -> Prop) `{!forall x, Decision (P x)}
    (ps : gmap jsstring typed_pool) :
  (forall i p, ps !! i = Some p -> ~ P (i, p) -> w p = 0%nat) ->
  tally w (filter P ps) = tally w ps.
Proof.
  induction ps as [|i x ps Hi IH] using map_ind; intros Hzero.
  - rewrite map_filter_empty. reflexivity.
  - assert (IH' : tally w (filter P ps) = tally w ps).
    { apply IH. intros j p Hj. apply Hzero. rewrite lookup_insert_ne;
        [exact Hj|]. intros ->. congruence. }
    rewrite tally_insert_None by exact Hi.
    destruct (decide (P (i, x))) as [HP|HP].
    + rewrite map_filter_insert_True by exact HP.
      rewrite tally_insert_None, IH'; [reflexivity|].
      apply map_lookup_filter_None_2. left. exact Hi.
    + rewrite map_filter_insert_False by exact HP.
      rewrite delete_id by exact Hi.
      rewrite IH', (Hzero i x); [lia|apply lookup_insert_eq|exact HP].
Qed.

Lemma tally_ext (w1 w2 : typed_pool -> nat) (ps : gmap jsstring typed_pool) :
  (forall i p, ps !! i = Some p -> w1 p = w2 p) ->
  tally w1 ps = tally w2 ps.
Proof.
  induction ps as [|i x ps Hi IH] using map_ind; intros H.
  - reflexivity.
  - rewrite !tally_insert_None by exact Hi. rewrite IH, (H i x).
    + reflexivity.
    + apply lookup_insert_eq.
    + intros j p Hj. apply (H j). rewrite lookup_insert_ne; [exact Hj|].
      intros ->. congruence.
Qed.

Lemma tally_add (w1 w2 : typed_pool -> nat) (ps : gmap jsstring typed_pool) :
  tally (fun p => (w1 p + w2 p)%nat) ps = (tally w1 ps + tally w2 ps)%nat.
Proof.
  induction ps as [|i x ps Hi IH] using map_ind.
  - reflexivity.
  - rewrite !tally_insert_None by exact Hi. rewrite IH. lia.
Qed.

Lemma totals_tally (m : memory_pool) :
  (totalAvailable m + totalActive m)%nat = tally held_objects (pools m).
Proof. unfold totalAvailable, totalActive. rewrite <- tally_add. reflexivity. Qed.

Lemma find_active_lookup (payload : nat) (l : list pooled) (i : nat) :
  find_active payload l = Some i ->
  exists o, l !! i = Some o /\ data o = payload.
Proof.
  revert i. induction l as [|o l IH]; intros i H; [discriminate|].
  cbn [find_active] in H. destruct (Nat.eqb_spec (data o) payload) as [E|E].
  - injection H as <-. exists o. auto.
  - destruct (find_active payload l) as [j|]; [|discriminate].
    injection H as <-. destruct (IH j eq_refl) as [o' Ho']. exists o'. exact Ho'.
Qed.

Lemma get_accounts (type : jsstring) (factory : contents) (fresh : nat)
    (fresh_id : jsstring) (now : N) (m : memory_pool) :
  let m' := snd (get type factory fresh fresh_id now m) in
  totalObjects (pool_metrics m') - Z.of_nat (tally held_objects (pools m'))
  = totalObjects (pool_metrics m) - Z.of_nat (tally held_objects (pools m)).
Proof.
  unfold get, getPool. destruct (pools m !! type) as [p|] eqn:E.
  - destruct (rev (available p)) as [|obj rest] eqn:R;
      cbn [snd pools pool_metrics totalObjects].
    + pose proof (tally_insert_Some held_objects (pools m) type
                    {| available := [];
                       active := active p
                                 ++ [{| pooled_id := fresh_id; data := fresh;
                                        created := now; lastUsed := now |}];
                       pool_created := pool_created p |} p E) as H.
      unfold held_objects at 2 4 in H. cbn [available active] in H.
      rewrite length_app in H. cbn [length] in H.
      assert (available p = []) as Ha
          by (apply (f_equal (@rev _)) in R; rewrite rev_involutive in R;
              exact R).
      rewrite Ha in H. cbn [length] in H. lia.
    + pose proof (tally_insert_Some held_objects (pools m) type
                    {| available := rev rest;
                       active := active p ++ [touch now obj];
                       pool_created := pool_created p |} p E) as H.
      unfold held_objects at 2 4 in H. cbn [available active] in H.
      rewrite length_app, length_rev in H. cbn [length] in H.
      apply (f_equal (@length _)) in R. rewrite length_rev in R.
      cbn [length] in R. lia.
  - cbn [available rev snd pools pool_metrics totalObjects].
    rewrite insert_insert_eq.
    rewrite tally_insert_None by exact E. unfold held_objects at 2.
    cbn [available active app length]. lia.
Qed.

(** A release whose reset throws leaves one object counted that no
    list holds. *)
Lemma release_accounts (type : jsstring) (payload : nat)
    (resetFn : option (contents -> ending)) (now : N) (m : memory_pool) :
  let r := release type payload resetFn now m in
  totalObjects (pool_metrics (snd r))
  - Z.of_nat (tally held_objects (pools (snd r)))
  = totalObjects (pool_metrics m) - Z.of_nat (tally held_objects (pools m))
    + (if threw (fst r) then 1 else 0).
Proof.
  unfold release, getPool. destruct (pools m !! type) as [p|] eqn:E.
  - destruct (find_active payload (active p)) as [i|] eqn:F;
      [|cbn [fst snd threw]; lia].
    destruct (find_active_lookup _ _ _ F) as (o & Ho & _). rewrite Ho.
    pose proof (length_delete_lookup _ _ _ Ho) as Hlen.
    pose proof (tally_insert_Some held_objects (pools m) type
                  {| available := available p ++ [touch now o];
                     active := delete i (active p);
                     pool_created := pool_created p |} p E) as H1.
    pose proof (tally_insert_Some held_objects (pools m) type
                  {| available := available p;
                     active := delete i (active p);
                     pool_created := pool_created p |} p E) as H2.
    unfold held_objects at 2 4 in H1. unfold held_objects at 2 4 in H2.
    cbn [available active] in H1, H2. rewrite length_app in H1.
    cbn [length] in H1.
    destruct (from_option _ false (heap m !! payload));
      [|destruct (length (available p) <? maxSize m)%nat];
      cbn [fst snd threw pools pool_metrics totalObjects]; lia.
  - cbn [active find_active fst snd threw pools pool_metrics].
    rewrite tally_insert_None by exact E. unfold held_objects at 2.
    cbn [available active length]. lia.
Qed.

Lemma cleanup_accounts (maxAge : Z) (now : N) (m : memory_pool) :
  let m' := snd (cleanup maxAge now m) in
  totalObjects (pool_metrics m') - Z.of_nat (tally held_objects (pools m'))
  = totalObjects (pool_metrics m) - Z.of_nat (tally held_objects (pools m)).
Proof.
  unfold cleanup. cbn [snd pools pool_metrics totalObjects].
  rewrite tally_filter, tally_fmap.
  - assert (H : tally held_objects (pools m)
                = (tally (fun p => held_objects (sweep maxAge now p)) (pools m)
                   + tally (fun p => length (List.filter (expired maxAge now)
                                                         (available p)))
                           (pools m))%nat).
    { rewrite <- tally_add. apply tally_ext. intros i p _.
      unfold held_objects, sweep. cbn [available active].
      pose proof (filter_split_length (expired maxAge now) (available p)).
      lia. }
    lia.
  - intros i p _ Hp. cbn [snd] in Hp. apply not_false_is_true in Hp.
    unfold unused in Hp. apply andb_true_iff in Hp as [H1 H2].
    apply Nat.eqb_eq in H1, H2. unfold held_objects. lia.
Qed.

Lemma clear_accounts (m : memory_pool) :
  let m' := snd (clear m) in
  totalObjects (pool_metrics m') - Z.of_nat (tally held_objects (pools m'))
  = totalObjects (pool_metrics m) - Z.of_nat (tally held_objects (pools m)).
Proof.
  unfold clear. cbn [snd pools pool_metrics totalObjects].
  rewrite tally_fmap.
  assert (H : tally held_objects (pools m)
              = (tally (fun p => held_objects
                                   {| available := []; active := active p;
                                      pool_created := pool_created p |})
                       (pools m)
                 + tally (fun p => length (available p)) (pools m))%nat).
  { rewrite <- tally_add. apply tally_ext. intros i p _.
    unfold held_objects. cbn [available active length]. lia. }
  lia.
Qed.

Lemma history_accounts (maxAge : Z) (cs : list (call * N)) :
  forall m0,
    totalObjects (pool_metrics (history maxAge m0 cs))
    - Z.of_nat (tally held_objects (pools (history maxAge m0 cs)))
    = totalObjects (pool_metrics m0) - Z.of_nat (tally held_objects (pools m0))
      + Z.of_nat (thrown maxAge m0 cs).
Proof.
  induction cs as [|[c now] cs IH]; intros m0; [cbn; lia|].
  change (history maxAge m0 ((c, now) :: cs))
    with (history maxAge (perform maxAge m0 (c, now)) cs).
  rewrite IH. cbn [thrown]. unfold fails.
  destruct c as [type factory fresh fresh_id|type payload resetFn| |];
    cbn [perform fst snd].
  - pose proof (get_accounts type factory fresh fresh_id now m0) as H.
    cbv zeta in H. lia.
  - pose proof (release_accounts type payload resetFn now m0) as H.
    cbv zeta in H. destruct (threw _); lia.
  - pose proof (cleanup_accounts maxAge now m0) as H. cbv zeta in H. lia.
  - pose proof (clear_accounts m0) as H. cbv zeta in H. lia.
Qed.

(** X15. After any sequence of [get], [release], [cleanup] and [clear] on a
    new pool, [metrics.totalObjects] is the number of objects the pools
    hold, available and checked out together, plus the number of
    [release] calls whose reset threw: such a call has taken its object
    out of the active set and ends before the object is pushed back or
    counted out. As long as no reset throws, the [objects] total of
    [getStats] is the sum of its [available] and [active] totals. *)
Theorem total_objects_counts_pooled_objects (configured : nat) (maxAge : Z)
    (cs : list (call * N)) :
  let m := history maxAge (empty configured) cs in
  totalObjects (pool_metrics m)
  = Z.of_nat (totalAvailable m + totalActive m
              + thrown maxAge (empty configured) cs)
  /\ (thrown maxAge (empty configured) cs = 0%nat ->
      totalObjects (pool_metrics m)
      = Z.of_nat (totalAvailable m + totalActive m)).
Proof.
  intros m. rewrite totals_tally.
  pose proof (history_accounts maxAge cs (empty configured)) as H.
  fold m in H. cbn [empty pool_metrics totalObjects pools] in H.
  unfold tally in H at 2. rewrite map_fold_empty in H.
  split; [lia|]. intros H0. rewrite H0 in H. lia.
Qed.

(** The loss at work: the object with an own 'hasOwnProperty' is taken
    and given back; the reset throws, and the pool counts one object
    while it holds none. *)
Lemma throwing_reset_loses_the_object :
  let m := history 300000 (empty 1000) take_and_give_back in
  thrown 300000 (empty 1000) take_and_give_back = 1%nat
  /\ totalObjects (pool_metrics m) = 1
  /\ totalAvailable m = 0%nat
  /\ totalActive m = 0%nat
  /\ heap m !! 1%nat = Some unresettable.
Proof. vm_compute. repeat split. Qed.

Lemma get_bounded (type : jsstring) (factory : contents) (fresh : nat)
    (fresh_id : jsstring) (now : N) (m : memory_pool) (ty : jsstring) :
  maxSize (snd (get type factory fresh fresh_id now m)) = maxSize m
  /\ (length (available_of (snd (get type factory fresh fresh_id now m)) ty)
      <= length (available_of m ty))%nat.
Proof.
  unfold get, getPool, available_of.
  destruct (pools m !! type) as [p|] eqn:E.
  - destruct (rev (available p)) as [|obj rest] eqn:R;
      cbn [snd maxSize pools]; (split; [reflexivity|]);
      rewrite lookup_insert; destruct (decide (type = ty)) as [<-|Hty];
      try (destruct (pools m !! ty); lia); rewrite E; cbn [available length];
      [lia|].
    apply (f_equal (@length _)) in R. rewrite length_rev in R.
    rewrite length_rev. cbn [length] in R. lia.
  - cbn [available rev snd maxSize pools]. split; [reflexivity|].
    rewrite !lookup_insert. destruct (decide (type = ty)) as [<-|Hty];
      [cbn [available length]; lia|].
    destruct (pools m !! ty); lia.
Qed.

Lemma release_bounded (type : jsstring) (payload : nat)
    (resetFn : option (contents -> ending)) (now : N) (m : memory_pool)
    (ty : jsstring) :
  (length (available_of m ty) <= maxSize m)%nat ->
  maxSize (snd (release type payload resetFn now m)) = maxSize m
  /\ (length (available_of (snd (release type payload resetFn now m)) ty)
      <= maxSize m)%nat.
Proof.
  unfold release, getPool, available_of. intros Hb.
  destruct (pools m !! type) as [p|] eqn:E.
  - destruct (find_active payload (active p)) as [i|] eqn:F;
      [|cbn [snd]; auto].
    destruct (find_active_lookup _ _ _ F) as (o & Ho & _). rewrite Ho.
    destruct (from_option _ false (heap m !! payload));
      [|destruct (Nat.ltb_spec (length (available p)) (maxSize m))];
      cbn [snd maxSize pools]; (split; [reflexivity|]);
      rewrite lookup_insert; destruct (decide (type = ty)) as [<-|Hty];
      try exact Hb; rewrite E in Hb; cbn [available]; try exact Hb.
    rewrite length_app. cbn [length]. lia.
  - cbn [active find_active snd maxSize pools]. split; [reflexivity|].
    rewrite lookup_insert. destruct (decide (type = ty)) as [<-|Hty];
      [cbn [available length]; lia|exact Hb].
Qed.

Lemma cleanup_lookup (maxAge : Z) (now : N) (m : memory_pool) (ty : jsstring) :
  pools (snd (cleanup maxAge now m)) !! ty
  = match pools m !! ty with
    | Some p => if unused (sweep maxAge now p) then None
                else Some (sweep maxAge now p)
    | None => None
    end.
Proof.
  unfold cleanup. cbn [snd pools].
  destruct (pools m !! ty) as [p|] eqn:E.
  - destruct (unused (sweep maxAge now p)) eqn:U.
    + apply map_lookup_filter_None_2. right. intros x Hx.
      rewrite lookup_fmap, E in Hx. injection Hx as <-. cbn [snd]. congruence.
    + apply map_lookup_filter_Some_2; [rewrite lookup_fmap, E; reflexivity|].
      exact U.
  - apply map_lookup_filter_None_2. left. rewrite lookup_fmap, E. reflexivity.
Qed.

Lemma unused_empty (p : typed_pool) :
  unused p = true -> available p = [] /\ active p = [].
Proof.
  unfold unused. intros H. apply andb_true_iff in H as [H1 H2].
  apply Nat.eqb_eq in H1, H2.
  destruct (available p), (active p); try discriminate. auto.
Qed.

Lemma cleanup_pools (maxAge : Z) (now : N) (m : memory_pool) (ty : jsstring) :
  active_of (snd (cleanup maxAge now m)) ty = active_of m ty
  /\ available_of (snd (cleanup maxAge now m)) ty
     = List.filter (fun o => negb (expired maxAge now o)) (available_of m ty).
Proof.
  unfold active_of, available_of. rewrite cleanup_lookup.
  destruct (pools m !! ty) as [p|]; [|auto].
  destruct (unused (sweep maxAge now p)) eqn:U; [|auto].
  destruct (unused_empty _ U) as [H1 H2]. cbn [sweep available active] in H1, H2.
  rewrite H1, H2. auto.
Qed.

Lemma tally_nothing (w : typed_pool -> nat) (ps : gmap jsstring typed_pool) :
  (forall i p, ps !! i = Some p -> w p = 0%nat) -> tally w ps = 0%nat.
Proof.
  intros H. rewrite (tally_ext w (fun _ => 0%nat) ps H).
  induction ps as [|i x ps Hi IH] using map_ind; [reflexivity|].
  rewrite tally_insert_None by exact Hi. rewrite IH; [reflexivity|].
  intros j p Hj. apply (H j). rewrite lookup_insert_ne; [exact Hj|].
  intros ->. congruence.
Qed.

(** X17. [cleanup] evicts the available objects that were last used more
    than [maxAge] ago and nothing else: the checked-out objects of every
    type stay checked out, the available objects that remain are the
    young ones in their order, the count returned is the number of
    objects evicted, and a second [cleanup] at the same time evicts
    none. *)
Theorem cleanup_evicts_only_old_available_objects (maxAge : Z) (now : N)
    (m : memory_pool) (ty : jsstring) :
  let r := cleanup maxAge now m in
  active_of (snd r) ty = active_of m ty
  /\ available_of (snd r) ty
     = List.filter (fun o => negb (expired maxAge now o)) (available_of m ty)
  /\ (fst r + totalAvailable (snd r))%nat = totalAvailable m
  /\ totalActive (snd r) = totalActive m
  /\ fst (cleanup maxAge now (snd r)) = 0%nat.
Proof.
  intros r. subst r. destruct (cleanup_pools maxAge now m ty) as [H1 H2].
  split; [exact H1|]. split; [exact H2|]. split; [|split].
  - unfold totalAvailable, cleanup at 1 2. cbn [fst snd pools].
    rewrite tally_filter, tally_fmap, <- tally_add.
    + apply tally_ext. intros i p _. cbn [sweep available].
      apply filter_split_length.
    + intros i p _ Hp. cbn [snd] in Hp. apply not_false_is_true in Hp.
      apply unused_empty in Hp as [-> _]. reflexivity.
  - unfold totalActive, cleanup. cbn [snd pools].
    rewrite tally_filter, tally_fmap; [reflexivity|].
    intros i p _ Hp. cbn [snd] in Hp. apply not_false_is_true in Hp.
    apply unused_empty in Hp as [_ ->]. reflexivity.
  - unfold cleanup at 1. cbn [fst]. apply tally_nothing. intros i p Hp.
    rewrite cleanup_lookup in Hp. destruct (pools m !! i) as [q|]; [|discriminate].
    destruct (unused (sweep maxAge now q)); [discriminate|].
    injection Hp as <-. cbn [sweep available].
    rewrite filter_twice_nothing. reflexivity.
Qed.

Lemma perform_bounded (maxAge : Z) (m : memory_pool) (c : call * N) :
  (forall ty, (length (available_of m ty) <= maxSize m)%nat) ->
  maxSize (perform maxAge m c) = maxSize m
  /\ (forall ty, (length (available_of (perform maxAge m c) ty)
                  <= maxSize m)%nat).
Proof.
  intros Hb. destruct c as [[type factory fresh fresh_id|type payload resetFn| |]
                            now]; cbn [perform fst snd].
  - split; [apply (get_bounded type factory fresh fresh_id now m type)|].
    intros ty.
    destruct (get_bounded type factory fresh fresh_id now m ty) as [_ H].
    specialize (Hb ty). lia.
  - split; [apply (release_bounded type payload resetFn now m type (Hb type))|].
    intros ty. apply (release_bounded type payload resetFn now m ty (Hb ty)).
  - split; [reflexivity|]. intros ty.
    rewrite (proj2 (cleanup_pools maxAge now m ty)).
    pose proof (filter_split_length (expired maxAge now) (available_of m ty)).
    specialize (Hb ty). lia.
  - split; [reflexivity|]. intros ty. unfold available_of, clear.
    cbn [snd pools]. rewrite lookup_fmap.
    destruct (pools m !! ty); cbn [fmap option_fmap option_map available length];
      lia.
Qed.

(** X16. No type ever has more than [maxSize] available objects, whatever the
    sequence of [get], [release], [cleanup] and [clear] on a new pool. *)
Theorem available_objects_stay_within_max_size (configured : nat)
    (maxAge : Z) (cs : list (call * N)) (type : jsstring) :
  let m := history maxAge (empty configured) cs in
  maxSize m = maxSize (empty configured)
  /\ (length (available_of m type) <= maxSize m)%nat.
Proof.
  assert (H : forall m0,
             (forall ty, (length (available_of m0 ty) <= maxSize m0)%nat) ->
             maxSize (history maxAge m0 cs) = maxSize m0
             /\ forall ty, (length (available_of (history maxAge m0 cs) ty)
                            <= maxSize m0)%nat).
  { induction cs as [|c cs IH]; intros m0 Hb; [auto|].
    change (history maxAge m0 (c :: cs))
      with (history maxAge (perform maxAge m0 c) cs).
    destruct (perform_bounded maxAge m0 c Hb) as [H1 H2].
    destruct (IH (perform maxAge m0 c)) as [H3 H4].
    - intros ty. rewrite H1. apply H2.
    - split; [congruence|]. intros ty. rewrite <- H1. apply H4. }
  intros m. destruct (H (empty configured)) as [H1 H2].
  - intros ty. unfold available_of. cbn [empty pools].
    rewrite lookup_empty. cbn [length]. lia.
  - split; [exact H1|]. subst m. rewrite H1. apply H2.
Qed.

Lemma find_active_some (payload : nat) (l : list pooled) :
  (exists o, o ∈ l /\ data o = payload) ->
  exists i o, find_active payload l = Some i /\ l !! i = Some o
              /\ data o = payload.
Proof.
  induction l as [|x l IH]; intros (o & Ho & Hd).
  - inversion Ho.
  - cbn [find_active]. destruct (Nat.eqb_spec (data x) payload) as [E|E].
    + exists 0%nat, x. auto.
    + destruct IH as (i & o' & H1 & H2 & H3).
      * exists o. split; [|exact Hd]. apply elem_of_cons in Ho as [->|Ho];
          [congruence|exact Ho].
      * exists (S i), o'. rewrite H1. auto.
Qed.

(** X18. Release and reuse. An object is checked out and its pool is not
    full. When the reset function (or [defaultReset]) returns,
    [release] returns true and the object is the one the next [get] of
    that type hands out, in the state the reset left it in; the factory
    is not called. When the reset throws, [release] throws: the object
    has left the active set and is not available, [totalObjects] still
    counts it, and a next [get] that finds nothing available calls the
    factory. *)
Theorem released_object_is_handed_out_next (m : memory_pool)
    (type : jsstring) (payload : nat)
    (resetFn : option (contents -> ending)) (now later : N)
    (factory : contents) (fresh : nat) (fresh_id : jsstring) (c : contents) :
  checked_out m type payload ->
  (length (available_of m type) < maxSize m)%nat ->
  heap m !! payload = Some c ->
  let released := release type payload resetFn now m in
  let reused := get type factory fresh fresh_id later (snd released) in
  match default defaultReset resetFn c with
  | Returns c' =>
      fst released = Returned true
      /\ fst reused = payload
      /\ heap (snd reused) !! payload = Some c'
      /\ creates (pool_metrics (snd reused)) = creates (pool_metrics m)
      /\ reuses (pool_metrics (snd reused)) = S (reuses (pool_metrics m))
      /\ available_of (snd reused) type = available_of m type
  | Throws c' =>
      fst released = Threw
      /\ heap (snd released) !! payload = Some c'
      /\ available_of (snd released) type = available_of m type
      /\ S (length (active_of (snd released) type))
         = length (active_of m type)
      /\ pool_metrics (snd released) = pool_metrics m
      /\ (available_of m type = [] ->
          fst reused = fresh
          /\ creates (pool_metrics (snd reused))
             = S (creates (pool_metrics m)))
  end.
Proof.
  intros Hout Hroom Hc. unfold checked_out, active_of, available_of in *.
  destruct (pools m !! type) as [p|] eqn:E;
    [|destruct Hout as (o & Ho & _); inversion Ho].
  destruct (find_active_some payload (active p) Hout) as (i & o & F & Ho & Hd).
  pose proof (length_delete_lookup _ _ _ Ho) as Hlen.
  cbv zeta. unfold release, getPool. rewrite E, F, Ho, Hc.
  cbn [from_option]. destruct (default defaultReset resetFn c) as [c'|c'] eqn:R;
    cbn [throws].
  - replace (length (available p) <? maxSize m)%nat with true
      by (symmetry; apply Nat.ltb_lt; exact Hroom).
    cbn [fst snd]. unfold get, getPool. cbn [pools].
    rewrite lookup_insert_eq. cbn [available]. rewrite rev_app_distr.
    cbn [rev app fst snd heap pool_metrics creates reuses pools available data
         touch].
    rewrite lookup_insert_eq, rev_involutive, lookup_alter_eq, Hc.
    cbn [available fmap option_fmap option_map]. rewrite R.
    repeat split; auto.
  - cbn [fst snd heap pools pool_metrics]. rewrite lookup_insert_eq.
    rewrite lookup_alter_eq, Hc. cbn [available active fmap option_fmap
                                       option_map].
    rewrite R. cbn [left_by]. split; [reflexivity|]. split; [reflexivity|].
    split; [reflexivity|]. split; [lia|]. split; [reflexivity|].
    intros Hnone. unfold get, getPool. cbn [pools].
    rewrite lookup_insert_eq. cbn [available]. rewrite Hnone.
    cbn [rev fst snd pool_metrics creates]. auto.
Qed.

Lemma message_object_comes_back :
  checked_out (snd (get (lit "message") (ObjectOf [(lit "type", lit "text")])
                        1 (lit "pool_1_abc") 1 (empty 1000)))
              (lit "message") 1
  /\ (length (available_of
                (snd (get (lit "message")
                          (ObjectOf [(lit "type", lit "text")])
                          1 (lit "pool_1_abc") 1 (empty 1000)))
                (lit "message"))
      < maxSize (snd (get (lit "message")
                          (ObjectOf [(lit "type", lit "text")])
                          1 (lit "pool_1_abc") 1 (empty 1000))))%nat
  /\ heap (snd (get (lit "message") (ObjectOf [(lit "type", lit "text")])
                    1 (lit "pool_1_abc") 1 (empty 1000))) !! 1%nat
     = Some (ObjectOf [(lit "type", lit "text")])
  /\ let m := snd (get (lit "message") (ObjectOf [(lit "type", lit "text")])
                       1 (lit "pool_1_abc") 1 (empty 1000)) in
     let released := release (lit "message") 1 None 2 m in
     let reused := get (lit "message") (ObjectOf []) 2 (lit "pool_2_def") 3
                       (snd released) in
     fst released = Returned true
     /\ fst reused = 1%nat
     /\ heap (snd reused) !! 1%nat = Some (ObjectOf [])
     /\ creates (pool_metrics (snd reused)) = creates (pool_metrics m)
     /\ reuses (pool_metrics (snd reused)) = S (reuses (pool_metrics m))
     /\ available_of (snd reused) (lit "message")
        = available_of m (lit "message").
Proof.
  assert (H1 : checked_out
                 (snd (get (lit "message")
                           (ObjectOf [(lit "type", lit "text")])
                           1 (lit "pool_1_abc") 1 (empty 1000)))
                 (lit "message") 1).
  { eexists. split; [vm_compute; apply list_elem_of_here|reflexivity]. }
  assert (H2 : (length (available_of
                          (snd (get (lit "message")
                                    (ObjectOf [(lit "type", lit "text")])
                                    1 (lit "pool_1_abc") 1 (empty 1000)))
                          (lit "message"))
                < maxSize (snd (get (lit "message")
                                    (ObjectOf [(lit "type", lit "text")])
                                    1 (lit "pool_1_abc") 1 (empty 1000))))%nat).
  { vm_compute. lia. }
  assert (H3 : heap (snd (get (lit "message")
                              (ObjectOf [(lit "type", lit "text")])
                              1 (lit "pool_1_abc") 1 (empty 1000))) !! 1%nat
               = Some (ObjectOf [(lit "type", lit "text")]))
    by (vm_compute; reflexivity).
  split; [exact H1|]. split; [exact H2|]. split; [exact H3|].
  exact (released_object_is_handed_out_next _ _ _ None 2 3 (ObjectOf []) 2
           (lit "pool_2_def") _ H1 H2 H3).
Defined.

End PoolUpkeepFacts.

(** ** Problem patterns *)

Module ProblemPatternFacts.
Import Js PatternDetector ProblemPatterns ListFacts.

Lemma includes_later (c : N) (s needle : jsstring) :
  includes s needle = true -> includes (c :: s) needle = true.
Proof. intros H. cbn [includes]. rewrite H. apply orb_true_r. Qed.

Lemma starts_with_includes (s needle : jsstring) :
  starts_with s needle = true -> includes s needle = true.
Proof. intros H. destruct s; cbn [includes]; rewrite H; reflexivity. Qed.

Lemma starts_with_tail (prefix needle : jsstring) :
  forall s, starts_with s (prefix ++ needle) = true ->
            includes s needle = true.
Proof.
  induction prefix as [|a prefix IH]; intros s H.
  - apply starts_with_includes. exact H.
  - destruct s as [|b s]; [discriminate|]. cbn [app starts_with] in H.
    apply andb_true_iff in H as [_ H]. apply includes_later, IH, H.
Qed.

Lemma includes_tail (prefix needle s : jsstring) :
  includes s (prefix ++ needle) = true -> includes s needle = true.
Proof.
  induction s as [|c s IH]; cbn [includes]; intros H.
  - rewrite orb_false_r in H. apply (starts_with_tail prefix) in H.
    cbn [includes] in H. exact H.
  - apply orb_true_iff in H as [H|H].
    + apply (starts_with_tail prefix) in H. exact H.
    + change (includes (c :: s) needle = true). apply includes_later, IH, H.
Qed.

(** One message either leaves the problems alone or appends one open
    problem that starts at the message and was found by an indicator
    the message contains. *)
Lemma notice_fold (index : nat) (text : jsstring) (inds : list jsstring) :
  forall st,
    fold_left (notice index text) inds st = st
    \/ (snd st = None
        /\ exists ind,
             ind ∈ inds /\ includes text ind = true
             /\ fold_left (notice index text) inds st
                = (fst st
                   ++ [{| problem_id :=
                            lit "problem_"
                            ++ of_nat_string (length (fst st) + 1);
                          startIndex := index;
                          indicator := ind;
                          context := firstn 100 text;
                          resolved := false;
                          endIndex := None;
                          duration := None |}],
                   Some (length (fst st)))).
Proof.
  induction inds as [|ind inds IH]; intros [ps cur]; [left; reflexivity|].
  cbn [fold_left]. remember (notice index text (ps, cur) ind) as st' eqn:Hst.
  unfold notice in Hst. destruct (includes text ind) eqn:E.
  - destruct cur as [i|]; subst st'.
    + destruct (IH (ps, Some i)) as [H|[H _]]; [|discriminate].
      left. exact H.
    + right. split; [reflexivity|]. exists ind.
      split; [apply list_elem_of_here|]. split; [exact E|].
      destruct (IH (ps ++ [{| problem_id :=
                                lit "problem_" ++ of_nat_string (length ps + 1);
                              startIndex := index; indicator := ind;
                              context := firstn 100 text; resolved := false;
                              endIndex := None; duration := None |}],
                    Some (length ps))) as [H|[H _]]; [|discriminate].
      cbn [fst]. exact H.
  - subst st'. destruct (IH (ps, cur)) as [H|(H1 & ind' & H2 & H3 & H4)].
    + left. exact H.
    + right. split; [exact H1|]. exists ind'.
      split; [apply list_elem_of_further; exact H2|]. auto.
Qed.

Lemma nao_funciona_says_funciona (text : jsstring) :
  includes text nao_funciona = true ->
  includes text (lit "funciona") = true.
Proof. apply (includes_tail (lit "n" ++ [227%N] ++ lit "o ")). Qed.

(** What holds of [problems] and [currentProblem] between two messages:
    an unresolved problem is the current one, the current problem is the
    last one and is unresolved, and a problem found by [não funciona] is
    resolved where it starts. *)
Lemma scan_invariant (st : episodes) (im : nat * message) :
  (forall j p, fst st !! j = Some p -> resolved p = false -> snd st = Some j) ->
  (forall i, snd st = Some i ->
     S i = length (fst st)
     /\ exists p, fst st !! i = Some p /\ indicator p <> nao_funciona) ->
  (forall j p, fst st !! j = Some p -> indicator p = nao_funciona ->
     resolved p = true /\ endIndex p = Some (startIndex p)
     /\ duration p = Some 0%nat) ->
  (forall j p, fst (scan st im) !! j = Some p -> resolved p = false ->
     snd (scan st im) = Some j)
  /\ (forall i, snd (scan st im) = Some i ->
        S i = length (fst (scan st im))
        /\ exists p, fst (scan st im) !! i = Some p
                     /\ indicator p <> nao_funciona)
  /\ (forall j p, fst (scan st im) !! j = Some p ->
        indicator p = nao_funciona ->
        resolved p = true /\ endIndex p = Some (startIndex p)
        /\ duration p = Some 0%nat).
Proof.
  destruct st as [ps cur], im as [index msg]. cbn [fst snd].
  intros H1 H2 H3. unfold scan.
  set (text := toLowerCase (content_of msg)).
  destruct (notice_fold index text problemIndicators (ps, cur))
    as [E|(Hcur & ind & _ & Hind & E)]; rewrite E; clear E; cbn [fst snd] in *.
  - destruct cur as [i|]; [|cbn [fst snd]; auto].
    destruct (includes text (lit "resolvido") || includes text (lit "funciona"));
      [|cbn [fst snd]; auto].
    cbn [fst snd]. destruct (H2 i eq_refl) as (Hlen & pi & Hpi & Hne).
    split; [|split].
    + intros j p. rewrite lookup_alter_cases. case_bool_decide as Hj.
      * subst j. rewrite Hpi. cbn. intros [= <-]. discriminate.
      * destruct (ps !! j) as [q|] eqn:Hq; [|discriminate]. cbn.
        intros [= <-] Hr. specialize (H1 j q Hq Hr). congruence.
    + discriminate.
    + intros j p. rewrite lookup_alter_cases. case_bool_decide as Hj.
      * subst j. rewrite Hpi. cbn. intros [= <-]. cbn [resolve indicator].
        intros Hx. contradiction.
      * destruct (ps !! j) as [q|] eqn:Hq; [|discriminate]. cbn.
        intros [= <-]. apply (H3 j q Hq).
  - subst cur.
    assert (Hres : forall j p, ps !! j = Some p -> resolved p = true).
    { intros j p Hp. destruct (resolved p) eqn:R; [reflexivity|].
      specialize (H1 j p Hp R). discriminate. }
    set (new := {| problem_id := lit "problem_" ++ of_nat_string (length ps + 1);
                   startIndex := index; indicator := ind;
                   context := firstn 100 text; resolved := false;
                   endIndex := None; duration := None |}).
    destruct (includes text (lit "resolvido") || includes text (lit "funciona"))
      eqn:R; cbn [fst snd].
    + assert (Ha : alter (resolve index) (length ps) (ps ++ [new])
                   = ps ++ [resolve index new]).
      { rewrite alter_app_r_alt by lia. rewrite Nat.sub_diag. reflexivity. }
      rewrite Ha. split; [|split].
      * intros j p Hp Hr. exfalso.
        apply lookup_app_Some in Hp as [Hp|[_ Hp]].
        -- rewrite (Hres j p Hp) in Hr. discriminate.
        -- destruct (j - length ps)%nat; [|discriminate].
           injection Hp as <-. discriminate.
      * discriminate.
      * intros j p Hp. apply lookup_app_Some in Hp as [Hp|[_ Hp]].
        -- apply (H3 j p Hp).
        -- destruct (j - length ps)%nat; [|discriminate].
           injection Hp as <-. cbn [resolve new resolved endIndex startIndex
                                    duration].
           rewrite Nat.sub_diag. auto.
    + assert (Hne : ind <> nao_funciona).
      { intros ->. apply nao_funciona_says_funciona in Hind.
        rewrite Hind, orb_true_r in R. discriminate. }
      split; [|split].
      * intros j p Hp Hr. apply lookup_app_Some in Hp as [Hp|[Hj Hp]].
        -- rewrite (Hres j p Hp) in Hr. discriminate.
        -- destruct (j - length ps)%nat eqn:K; [|discriminate].
           f_equal. lia.
      * intros i [= <-]. rewrite length_app. cbn [length].
        split; [lia|]. exists new. split; [|exact Hne].
        rewrite lookup_app_r by lia. rewrite Nat.sub_diag. reflexivity.
      * intros j p Hp. apply lookup_app_Some in Hp as [Hp|[_ Hp]].
        -- apply (H3 j p Hp).
        -- destruct (j - length ps)%nat; [|discriminate].
           injection Hp as <-. cbn [new indicator]. intros Hx. contradiction.
Qed.

Lemma scan_fold (l : list (nat * message)) (st : episodes) :
  (forall j p, fst st !! j = Some p -> resolved p = false -> snd st = Some j) ->
  (forall i, snd st = Some i ->
     S i = length (fst st)
     /\ exists p, fst st !! i = Some p /\ indicator p <> nao_funciona) ->
  (forall j p, fst st !! j = Some p -> indicator p = nao_funciona ->
     resolved p = true /\ endIndex p = Some (startIndex p)
     /\ duration p = Some 0%nat) ->
  let st' := fold_left scan l st in
  (forall j p, fst st' !! j = Some p -> resolved p = false -> S j = length (fst st'))
  /\ (forall j p, fst st' !! j = Some p -> indicator p = nao_funciona ->
        resolved p = true /\ endIndex p = Some (startIndex p)
        /\ duration p = Some 0%nat).
Proof.
  revert st. induction l as [|im l IH]; intros st H1 H2 H3.
  - cbn [fold_left]. split; [|exact H3]. intros j p Hp Hr.
    apply (H2 j), (H1 j p Hp Hr).
  - cbn [fold_left]. destruct (scan_invariant st im H1 H2 H3) as (K1 & K2 & K3).
    apply (IH (scan st im) K1 K2 K3).
Qed.

Lemma one_unresolved_at_the_end (ps : list problem) :
  (forall j p, ps !! j = Some p -> resolved p = false -> S j = length ps) ->
  (length (List.filter (fun p => negb (resolved p)) ps) <= 1)%nat.
Proof.
  destruct ps as [|x ps _] using rev_ind; [cbn; lia|]. intros H.
  rewrite List.filter_app, length_app, filter_none.
  - cbn [List.filter length]. destruct (negb (resolved x)); cbn [length]; lia.
  - intros j p Hp. destruct (resolved p) eqn:R; [reflexivity|].
    pose proof (lookup_lt_Some _ _ _ Hp) as Hj.
    specialize (H j p). rewrite lookup_app_l in H by exact Hj.
    specialize (H Hp R). rewrite length_app in H. cbn [length] in H. lia.
Qed.

(** X19. At most one problem is open when the messages have been read, and it
    is the last problem found: a problem is opened only while none is
    open. The open and the resolved problems add up to the total. *)
Theorem at_most_one_problem_stays_open (messages : list message) :
  let r := identifyProblemPatterns messages in
  (openProblems r <= 1)%nat
  /\ totalProblems r = (openProblems r + resolvedProblems r)%nat
  /\ forall j p, problems r !! j = Some p -> resolved p = false ->
                 S j = totalProblems r.
Proof.
  intros r. subst r. unfold identifyProblemPatterns.
  cbn [openProblems totalProblems resolvedProblems problems].
  destruct (scan_fold (combine (seq 0 (length messages)) messages) ([], None))
    as [H _]; try (cbn [fst snd]; intros; discriminate).
  split; [apply one_unresolved_at_the_end; exact H|].
  split; [|exact H].
  match goal with
  | |- length ?l = _ => pose proof (filter_split_length resolved l)
  end.
  lia.
Qed.

(** X20. A message that says [não funciona] ("does not work") cannot leave a
    problem open: the resolution test looks for [funciona], which the
    indicator contains, so every problem found by that indicator is
    resolved in the message that opens it, with duration 0. *)
Theorem nao_funciona_is_resolved_at_once (messages : list message)
    (j : nat) (p : problem) :
  problems (identifyProblemPatterns messages) !! j = Some p ->
  indicator p = nao_funciona ->
  resolved p = true
  /\ endIndex p = Some (startIndex p)
  /\ duration p = Some 0%nat.
Proof.
  unfold identifyProblemPatterns. cbn [problems].
  destruct (scan_fold (combine (seq 0 (length messages)) messages) ([], None))
    as [_ H]; try (cbn [fst snd]; intros; discriminate).
  apply H.
Qed.

Lemma broken_deploy_is_resolved_at_once :
  exists p,
    problems (identifyProblemPatterns
                [{| sender := lit "user";
                    content := Some (lit "O deploy n" ++ [227%N]
                                     ++ lit "o funciona") |}]) !! 0%nat
    = Some p
    /\ indicator p = nao_funciona
    /\ resolved p = true
    /\ endIndex p = Some (startIndex p)
    /\ duration p = Some 0%nat.
Proof.
  eexists. split; [vm_compute; reflexivity|]. split; [reflexivity|].
  apply (nao_funciona_is_resolved_at_once
           [{| sender := lit "user";
               content := Some (lit "O deploy n" ++ [227%N]
                                ++ lit "o funciona") |}] 0);
    [vm_compute; reflexivity|reflexivity].
Defined.

End ProblemPatternFacts.

(** ** Solution attempts *)

Module SolutionAttemptFacts.
Import Js PatternDetector SolutionAttempts ListFacts.

Lemma starts_with_prefix (needle : jsstring) :
  forall s, starts_with s needle = true <-> exists post, s = needle ++ post.
Proof.
  induction needle as [|a needle IH]; intros s.
  - split; [intros _; exists s; reflexivity|]. intros _. destruct s; reflexivity.
  - destruct s as [|b s]; cbn [starts_with].
    + split; [discriminate|]. intros [post H]. discriminate H.
    + rewrite andb_true_iff, N.eqb_eq, IH. split.
      * intros [-> [post ->]]. exists post. reflexivity.
      * intros [post [= -> ->]]. split; [reflexivity|]. exists post.
        reflexivity.
Qed.

(** [s.includes(needle)]: the needle lies somewhere in [s]. *)
Lemma includes_infix (needle s : jsstring) :
  includes s needle = true <-> exists pre post, s = pre ++ needle ++ post.
Proof.
  induction s as [|c s IH]; cbn [includes]; rewrite orb_true_iff.
  - rewrite starts_with_prefix. split.
    + intros [[post H]|H]; [|discriminate]. exists [], post. exact H.
    + intros (pre & post & H). left. destruct pre as [|x pre]; [|discriminate].
      exists post. exact H.
  - rewrite starts_with_prefix, IH. split.
    + intros [[post H]|(pre & post & H)].
      * exists [], post. exact H.
      * exists (c :: pre), post. rewrite H. reflexivity.
    + intros (pre & post & H). destruct pre as [|x pre].
      * left. exists post. exact H.
      * right. injection H as _ H. exists pre, post. exact H.
Qed.

(** A needle in lower case that lies in a string lies in its lower
    case. *)
Lemma includes_lower (needle s : jsstring) :
  toLowerCase needle = needle ->
  includes s needle = true -> includes (toLowerCase s) needle = true.
Proof.
  intros Hn H. apply includes_infix in H as (pre & post & ->).
  apply includes_infix. exists (toLowerCase pre), (toLowerCase post).
  unfold toLowerCase in *. rewrite !flat_map_app, Hn. reflexivity.
Qed.

Lemma shown_result_is_known (content : jsstring) :
  shows_result content = true ->
  classifyAttemptResult content = Success
  \/ classifyAttemptResult content = Failure.
Proof.
  unfold shows_result, classifyAttemptResult. intros H.
  apply orb_true_iff in H as [H|H]; [apply orb_true_iff in H as [H|H]|].
  - rewrite (includes_lower (lit "sucesso") content eq_refl H). auto.
  - rewrite (includes_lower (lit "erro") content eq_refl H).
    destruct (_ || _); auto.
  - rewrite (includes_lower (lit "falha") content eq_refl H).
    rewrite orb_true_r. destruct (_ || _); auto.
Qed.

Lemma shown_attempt_is_code_or_command (content : jsstring) :
  shows_attempt content = true ->
  classifyAttemptType content = Code \/ classifyAttemptType content = Command.
Proof.
  unfold shows_attempt, classifyAttemptType. intros H.
  destruct (includes content (lit "```")); [auto|].
  cbn [orb] in H. rewrite H. auto.
Qed.

(** What the attempts recorded so far and the open attempt satisfy when
    the message numbered [index] is read. *)
Lemma visit_keeps (st : list attempt * option opened) (index : nat)
    (msg : message) :
  Forall (fun a => (result a = Success \/ result a = Failure)
                   /\ (type (opening a) = Code \/ type (opening a) = Command)
                   /\ (startIndex (opening a) <= endIndex a)%nat
                   /\ duration a = (endIndex a - startIndex (opening a))%nat)
         (fst st) ->
  (forall a, snd st = Some a ->
             (type a = Code \/ type a = Command)
             /\ (startIndex a <= index)%nat) ->
  Forall (fun a => (result a = Success \/ result a = Failure)
                   /\ (type (opening a) = Code \/ type (opening a) = Command)
                   /\ (startIndex (opening a) <= endIndex a)%nat
                   /\ duration a = (endIndex a - startIndex (opening a))%nat)
         (fst (visit st (index, msg)))
  /\ (forall a, snd (visit st (index, msg)) = Some a ->
                (type a = Code \/ type a = Command)
                /\ (startIndex a <= S index)%nat).
Proof.
  destruct st as [l cur]. cbn [fst snd]. intros H1 H2. unfold visit.
  set (cur' := if shows_attempt (content_of msg) then _ else cur).
  assert (H3 : forall a, cur' = Some a ->
                         (type a = Code \/ type a = Command)
                         /\ (startIndex a <= index)%nat).
  { subst cur'. destruct (shows_attempt (content_of msg)) eqn:E; [|exact H2].
    destruct cur as [c|]; [exact H2|]. intros a [= <-].
    cbn [type startIndex].
    split; [apply shown_attempt_is_code_or_command, E|lia]. }
  destruct cur' as [a|]; [|cbn [fst snd]; split; [exact H1|discriminate]].
  destruct (H3 a eq_refl) as [Ht Hs].
  destruct (shows_result (content_of msg)) eqn:R; cbn [fst snd].
  - split; [|discriminate]. apply Forall_app. split; [exact H1|].
    constructor; [|constructor]. cbn [result opening duration endIndex].
    split; [apply shown_result_is_known, R|]. auto.
  - split; [exact H1|]. intros a' [= <-]. split; [exact Ht|lia].
Qed.

Lemma visits_keep (l : list message) :
  forall (s : nat) (st : list attempt * option opened),
    Forall (fun a => (result a = Success \/ result a = Failure)
                     /\ (type (opening a) = Code
                         \/ type (opening a) = Command)
                     /\ (startIndex (opening a) <= endIndex a)%nat
                     /\ duration a
                        = (endIndex a - startIndex (opening a))%nat)
           (fst st) ->
    (forall a, snd st = Some a ->
               (type a = Code \/ type a = Command)
               /\ (startIndex a <= s)%nat) ->
    Forall (fun a => (result a = Success \/ result a = Failure)
                     /\ (type (opening a) = Code
                         \/ type (opening a) = Command)
                     /\ (startIndex (opening a) <= endIndex a)%nat
                     /\ duration a
                        = (endIndex a - startIndex (opening a))%nat)
           (fst (fold_left visit (combine (seq s (length l)) l) st)).
Proof.
  induction l as [|msg l IH]; intros s st H1 H2; [exact H1|].
  cbn [length seq combine fold_left].
  destruct (visit_keeps st s msg H1 H2) as [K1 K2].
  apply (IH (S s) _ K1 K2).
Qed.

Lemma count_by_result (l : list attempt) :
  Forall (fun a => result a = Success \/ result a = Failure) l ->
  length l
  = (length (List.filter (fun a => bool_decide (result a = Success)) l)
     + length (List.filter (fun a => bool_decide (result a = Failure)) l))%nat.
Proof.
  induction 1 as [|a l [Ha|Ha] _ IH]; [reflexivity| |];
    cbn [List.filter]; rewrite Ha.
  - rewrite bool_decide_eq_true_2, bool_decide_eq_false_2 by congruence.
    cbn [length]. lia.
  - rewrite bool_decide_eq_false_2, bool_decide_eq_true_2 by congruence.
    cbn [length]. lia.
Qed.

(** X21. Every recorded attempt has a known result and is a piece of code or
    a command: the messages that close an attempt are those
    [classifyAttemptResult] calls a success or a failure, and the
    messages that open one are those [classifyAttemptType] calls code or
    command. The results [unknown] and the types [testing] and [other]
    never appear, an attempt ends at or after the message that opens
    it, and the successful and the failed attempts add up to the
    total. *)
Theorem every_attempt_is_classified (messages : list message) :
  let r := analyzeSolutionAttempts messages in
  totalAttempts r = (successfulAttempts r + failedAttempts r)%nat
  /\ Forall (fun a => (result a = Success \/ result a = Failure)
                      /\ (type (opening a) = Code
                          \/ type (opening a) = Command)
                      /\ (startIndex (opening a) <= endIndex a)%nat
                      /\ duration a
                         = (endIndex a - startIndex (opening a))%nat)
            (attempts r).
Proof.
  intros r. subst r. unfold analyzeSolutionAttempts.
  cbn [totalAttempts successfulAttempts failedAttempts attempts].
  pose proof (visits_keep messages 0 ([], None) (List.Forall_nil _)
                          ltac:(discriminate)) as H.
  split; [|exact H].
  apply count_by_result. eapply Forall_impl; [exact H|].
  intros a Ha. apply Ha.
Qed.

End SolutionAttemptFacts.

(** ** The evolution of topics *)

Module TopicEvolutionFacts.
Import Js PatternDetector TopicEvolution ListFacts.

Lemma slice_length {A : Type} (i w : nat) (l : list A) :
  length (slice i (i + w) l) = Nat.min w (length l - i).
Proof.
  unfold slice. rewrite length_firstn, length_skipn. f_equal. lia.
Qed.

Lemma windows_from_spec (messages : list message) (w : nat) :
  (1 <= w)%nat ->
  forall fuel k,
    (length messages - k * w <= fuel)%nat ->
    let r := windows_from fuel w (k * w) messages in
    list_sum (List.map messageCount r) = (length messages - k * w)%nat
    /\ List.map window r = seq (k + 1) (length r)
    /\ Forall (fun t => (1 <= messageCount t <= w)%nat) r
    /\ (length r * w < length messages - k * w + w)%nat.
Proof.
  intros Hw. induction fuel as [|fuel IH]; intros k Hfuel.
  - cbn. repeat split; [lia|constructor|lia].
  - cbn [windows_from]. cbv zeta.
    destruct (Nat.ltb_spec (k * w) (length messages)) as [Hlt|Hge].
    + specialize (IH (S k)). cbv zeta in IH.
      replace (S k * w)%nat with (k * w + w)%nat in IH by lia.
      destruct IH as (H1 & H2 & H3 & H4); [lia|].
      cbn [List.map messageCount window length seq].
      unfold list_sum in *. cbn [fold_right].
      rewrite slice_length, H1, Nat.div_mul by lia.
      split; [lia|]. split; [rewrite H2; do 2 f_equal; lia|].
      split; [constructor; [cbn [messageCount]; lia|exact H3]|].
      destruct (Nat.le_gt_cases (length messages) (k * w + w)).
      * replace (length messages - (k * w + w))%nat with 0%nat in H4 by lia.
        assert (length (windows_from fuel w (k * w + w) messages) = 0%nat)
          by nia.
        rewrite H0. lia.
      * nia.
    + cbn. repeat split; [lia|constructor|lia].
Qed.

(** X22. The windows of [analyzeTopicEvolution] cut the conversation into
    consecutive pieces: they are numbered 1, 2, ..., each holds between
    one and [windowSize] messages, together they hold every message
    once, and there are never more than five of them. *)
Theorem topic_windows_partition_the_messages (messages : list message) :
  let r := analyzeTopicEvolution messages in
  list_sum (List.map messageCount r) = length messages
  /\ List.map window r = seq 1 (length r)
  /\ Forall (fun t => (1 <= messageCount t
                       <= windowSize (length messages))%nat) r
  /\ (length r <= 5)%nat.
Proof.
  intros r. subst r. unfold analyzeTopicEvolution.
  assert (Hw : (1 <= windowSize (length messages))%nat)
    by (unfold windowSize; lia).
  destruct (windows_from_spec messages _ Hw (length messages) 0)
    as (H1 & H2 & H3 & H4); [lia|].
  cbn [Nat.mul Nat.add] in H1, H2, H3, H4.
  rewrite Nat.sub_0_r in H1, H4.
  split; [exact H1|]. split; [exact H2|]. split; [exact H3|].
  assert (H5 : (length messages <= 5 * windowSize (length messages))%nat).
  { unfold windowSize.
    pose proof (Nat.div_mod_eq (length messages) 4).
    pose proof (Nat.mod_upper_bound (length messages) 4). lia. }
  nia.
Qed.

End TopicEvolutionFacts.

(** ** Word similarity *)

Module SimilarityFacts.
Import Js PatternDetector KeywordFacts ListFacts.

(** X23. [calculateWordSimilarity] does not depend on the order of its two
    words: the same quotient is computed either way. *)
Theorem word_similarity_is_symmetric (word1 word2 : jsstring) :
  calculateWordSimilarity word1 word2 = calculateWordSimilarity word2 word1.
Proof.
  unfold calculateWordSimilarity. cbv zeta. f_equal; f_equal.
  - apply same_elements_same_length; try apply new_Set_spec.
    intros x. rewrite !(proj2 (new_Set_spec _)).
    rewrite !elem_of_filter_list, !bool_decide_eq_true.
    rewrite !(proj2 (new_Set_spec _)). tauto.
  - apply same_elements_same_length; try apply new_Set_spec.
    intros x. rewrite !(proj2 (new_Set_spec _)), !elem_of_app.
    rewrite !(proj2 (new_Set_spec _)). tauto.
Qed.

End SimilarityFacts.

(** ** Clusters as a partition *)

Module PartitionFacts.
Import Js PatternDetector ClusterFacts ListFacts.

(** The terms one seed absorbs are new: they are distinct, none of them
    is the seed, and none was processed before. *)
Lemma absorb_fresh (seed : jsstring) (l : list keyword) :
  forall (c c' : cluster) (P P' : gset jsstring),
    fold_left (absorb seed) l (c, P) = (c', P') ->
    mainTopic c' = mainTopic c
    /\ exists new,
         relatedTopics c' = relatedTopics c ++ new
         /\ NoDup (List.map related_word new)
         /\ Forall (fun r => (related_word r ∉ P) /\ related_word r <> seed) new
         /\ P' = list_to_set (List.map related_word new) ∪ P.
Proof.
  induction l as [|k l IH]; intros c c' P P' H.
  - injection H as <- <-. split; [reflexivity|]. exists [].
    rewrite app_nil_r. cbn [List.map list_to_set].
    repeat split; [constructor|constructor|set_solver].
  - cbn [fold_left] in H.
    destruct (absorb seed (c, P) k) as [c1 P1] eqn:Hstep.
    destruct (IH _ _ _ _ H) as (Hmain & new & Hrel & Hnd & Hnew & HP).
    clear IH H. unfold absorb in Hstep.
    destruct (bool_decide (word k ≠ seed)) eqn:Hne;
      [destruct (bool_decide (word k ∈ P)) eqn:Hin|]; cbn [negb andb] in Hstep;
      [| destruct (similar seed (word k)) eqn:Hsim |];
      injection Hstep as <- <-; cbn [mainTopic relatedTopics] in *;
      (split; [assumption|]).
    all: try (exists new; repeat split; assumption).
    apply bool_decide_eq_true in Hne. apply bool_decide_eq_false in Hin.
    eexists (_ :: new). rewrite <- app_assoc in Hrel.
    split; [exact Hrel|]. cbn [List.map related_word].
    split; [|split].
    + constructor; [|exact Hnd]. intros Hk.
      apply list_elem_of_fmap in Hk as (r & Hr & Hin').
      rewrite List.Forall_forall in Hnew.
      apply list_elem_of_In in Hin'. destruct (Hnew r Hin') as [Hnot _].
      apply Hnot. rewrite <- Hr. set_solver.
    + constructor; [cbn [related_word]; auto|].
      eapply Forall_impl; [exact Hnew|]. cbn beta. intros r [Hr1 Hr2].
      split; [set_solver|exact Hr2].
    + rewrite HP. cbn [list_to_set]. set_solver.
Qed.

Lemma open_cluster_disjoint (ks : list keyword)
    (st : list cluster * gset jsstring) (k : keyword) :
  NoDup (concat (List.map members (fst st))) ->
  (forall w, w ∈ concat (List.map members (fst st)) -> w ∈ snd st) ->
  NoDup (concat (List.map members (fst (open_cluster ks st k))))
  /\ (forall w, w ∈ concat (List.map members (fst (open_cluster ks st k))) ->
                w ∈ snd (open_cluster ks st k)).
Proof.
  destruct st as [cs P]. cbn [fst snd]. intros Hnd Hsub. unfold open_cluster.
  case_bool_decide as Hk; [cbn [fst snd]; auto|].
  destruct (fold_left (absorb (word k)) ks _) as [c P'] eqn:E.
  destruct (absorb_fresh _ _ _ _ _ _ E) as (Hmain & new & Hrel & Hnew & Hfresh & HP).
  cbn [mainTopic relatedTopics app] in Hmain, Hrel. cbn [fst snd].
  rewrite List.map_app, concat_app. cbn [List.map concat].
  rewrite app_nil_r. unfold members at 2 4. rewrite Hmain, Hrel.
  rewrite List.Forall_forall in Hfresh.
  assert (Hfresh' : forall w, w ∈ List.map related_word new ->
                              (w ∉ P) /\ w <> word k).
  { intros w Hw. apply list_elem_of_fmap in Hw as (r & -> & Hr).
    apply Hfresh, list_elem_of_In, Hr. }
  split.
  - apply NoDup_app. split; [exact Hnd|]. split.
    + intros w Hw Hw'. apply Hsub in Hw.
      apply elem_of_cons in Hw' as [->|Hw']; [contradiction|].
      apply (proj1 (Hfresh' w Hw')), Hw.
    + constructor; [|exact Hnew]. intros Hw.
      apply (proj2 (Hfresh' _ Hw)). reflexivity.
  - intros w Hw. apply elem_of_app in Hw as [Hw|Hw].
    + apply Hsub in Hw. rewrite HP. set_solver.
    + apply elem_of_cons in Hw as [->|Hw]; [set_solver|].
      rewrite HP. apply elem_of_union_r, elem_of_union_l.
      apply elem_of_list_to_set. exact Hw.
Qed.

(** X24. The clusters partition the keywords: no term is in two clusters or
    twice in one, the terms of the clusters are exactly the words of the
    keywords, and the sizes of the clusters add up to the number of
    distinct words. *)
Theorem clusters_partition_the_keywords (ks : list keyword) :
  let cs := clusterTopicsBySimilarity ks in
  NoDup (concat (List.map members cs))
  /\ (forall w, w ∈ concat (List.map members cs)
                <-> exists k, k ∈ ks /\ word k = w)
  /\ list_sum (List.map size cs) = length (new_Set (List.map word ks)).
Proof.
  intros cs. subst cs. unfold clusterTopicsBySimilarity.
  assert (Hnd : forall l st,
             NoDup (concat (List.map members (fst st))) ->
             (forall w, w ∈ concat (List.map members (fst st)) -> w ∈ snd st) ->
             NoDup (concat (List.map members
                              (fst (fold_left (open_cluster ks) l st))))).
  { induction l as [|k l IH]; intros st H1 H2; [exact H1|].
    cbn [fold_left]. destruct (open_cluster_disjoint ks st k H1 H2) as [K1 K2].
    apply (IH _ K1 K2). }
  specialize (Hnd ks ([], ∅)). cbn [fst snd List.map concat] in Hnd.
  specialize (Hnd (NoDup_nil_2) ltac:(intros w Hw; inversion Hw)).
  destruct (clustering_fold ks ks ([], ∅)) as ((H1 & _ & H3 & _) & H4 & _).
  - auto.
  - unfold clustering_invariant. cbn [fst snd].
    split; [constructor|]. split; [constructor|]. split.
    + intros w. split; [intros Hw; set_solver|].
      intros (c & Hc & _). inversion Hc.
    + intros c k Hc. inversion Hc.
  - set (cs := fst (fold_left (open_cluster ks) ks ([], ∅))) in *.
    assert (Hmem : forall w, w ∈ concat (List.map members cs)
                             <-> exists k, k ∈ ks /\ word k = w).
    { intros w. split.
      - intros Hw. apply elem_of_concat in Hw as (m & Hw & Hm).
        apply list_elem_of_fmap in Hm as (c & -> & Hc).
        rewrite List.Forall_forall in H1.
        destruct (H1 c (proj1 (list_elem_of_In _ _) Hc))
          as ((k & Hk & Hkm & _) & _ & Hrel).
        apply elem_of_cons in Hw as [->|Hw]; [exists k; auto|].
        apply list_elem_of_fmap in Hw as (r & -> & Hr).
        rewrite List.Forall_forall in Hrel.
        destruct (Hrel r (proj1 (list_elem_of_In _ _) Hr))
          as (_ & _ & _ & k' & Hk' & Hw' & _).
        exists k'. auto.
      - intros (k & Hk & <-). destruct (proj1 (H3 _) (H4 k Hk)) as (c & Hc & Hw).
        apply elem_of_concat.
        exists (members c). split; [exact Hw|].
        apply list_elem_of_fmap. exists c. auto. }
    split; [exact Hnd|]. split; [exact Hmem|].
    transitivity (length (concat (List.map members cs))).
    + clear -H1. induction H1 as [|c cs' (_ & Hsize & _) _ IH]; [reflexivity|].
      cbn [List.map concat]. unfold list_sum in *. cbn [fold_right].
      rewrite length_app, IH, Hsize. unfold members. cbn [length].
      rewrite length_map. reflexivity.
    + apply same_elements_same_length;
        [exact Hnd|apply KeywordFacts.new_Set_spec|].
      intros w. rewrite Hmem, (proj2 (KeywordFacts.new_Set_spec _)).
      rewrite list_elem_of_fmap. split; intros (k & A & B); exists k; auto.
Qed.

End PartitionFacts.

(** ** Keyword scores *)

Module ScoreFacts.
Import Js Dict PatternDetector KeywordFacts ListFacts.

(** X25. For messages none of whose tokens is a name that plain objects
    inherit, the three dictionaries of the keyword extraction hold what
    the formulas say: the term frequency of a term in a message, its
    inverse document frequency, and as its score the sum over the
    messages of the product of the two. *)
Theorem keyword_scores_of_clean_documents (Math_log : float -> float)
    (documents : list jsstring) (w : jsstring) :
  clean_documents documents ->
  Forall (fun doc => own (termFrequency doc) w = Num <$> term_frequency doc w)
         documents
  /\ own (calculateIDF Math_log documents) w
     = Num <$> inverse_document_frequency Math_log documents w
  /\ own (wordScores (calculateTFIDF (calculateTF documents)
                                     (calculateIDF Math_log documents))) w
     = aggregate_score Math_log documents w.
Proof.
  intros Hclean. split; [|split].
  - unfold clean_documents in Hclean. eapply Forall_impl; [exact Hclean|].
    intros doc Hdoc. apply term_frequency_of_clean_message, Hdoc.
  - apply idf_of_clean_documents, Hclean.
  - apply score_of_clean_documents, Hclean.
Qed.

Lemma server_is_scored_by_the_formulas :
  clean_documents [lit "node server crash"; lit "server restart now"]
  /\ Forall (fun doc => own (termFrequency doc) (lit "server")
                        = Num <$> term_frequency doc (lit "server"))
            [lit "node server crash"; lit "server restart now"]
  /\ own (calculateIDF (fun x => x)
                       [lit "node server crash"; lit "server restart now"])
         (lit "server")
     = Num <$> inverse_document_frequency
                 (fun x => x)
                 [lit "node server crash"; lit "server restart now"]
                 (lit "server")
  /\ own (wordScores
            (calculateTFIDF
               (calculateTF [lit "node server crash"; lit "server restart now"])
               (calculateIDF (fun x => x)
                             [lit "node server crash";
                              lit "server restart now"])))
         (lit "server")
     = aggregate_score (fun x => x)
                       [lit "node server crash"; lit "server restart now"]
                       (lit "server").
Proof.
  assert (H : clean_documents
                [lit "node server crash"; lit "server restart now"]).
  { unfold clean_documents. repeat (constructor; [vm_compute; repeat constructor|]).
    constructor. }
  split; [exact H|].
  exact (keyword_scores_of_clean_documents
           (fun x => x) [lit "node server crash"; lit "server restart now"]
           (lit "server") H).
Defined.

End ScoreFacts.

(** ** Episodes of problem solving *)

Module EpisodeFacts.
Import Js ConversationAnalyzer ListFacts.

Lemma visit_counts_attempts (s : progress) (msg : message) :
  sequential s ->
  solutionAttempts (counters s)
  = (iterationCount (counters s)
     + if currentProblem s then attempts s else 0)%nat ->
  sequential (visit s msg)
  /\ solutionAttempts (counters (visit s msg))
     = (iterationCount (counters (visit s msg))
        + if currentProblem (visit s msg) then attempts (visit s msg)
          else 0)%nat.
Proof.
  unfold visit. generalize (toLowerCase (content_of msg)). intros text.
  unfold sequential, close_problem, count_attempt, open_problem.
  destruct s as [[a b c d] cur att].
  destruct (mentions_problem text), (includes text (lit "```")),
    (mentions_resolution text), cur; simpl; lia.
Qed.

(** X26. The counters of [analyzeProblemSolving] describe episodes that
    follow one another: at most one problem is open at the end, the
    iteration count never exceeds the number of solution attempts, and
    the two are equal when every identified problem was resolved (the
    attempts of a problem left open are not added to the iteration
    count). *)
Theorem attempts_are_counted_per_episode (messages : list message)
    (p : patterns) :
  analyzeProblemSolving messages = Some p ->
  (successfulResolution p <= problemIdentification p
   <= successfulResolution p + 1)%nat
  /\ (iterationCount p <= solutionAttempts p)%nat
  /\ (problemIdentification p = successfulResolution p ->
      iterationCount p = solutionAttempts p).
Proof.
  unfold analyzeProblemSolving. destruct messages as [|m ms]; [discriminate|].
  intros [= <-].
  assert (H : forall l s,
             sequential s ->
             solutionAttempts (counters s)
             = (iterationCount (counters s)
                + if currentProblem s then attempts s else 0)%nat ->
             sequential (fold_left visit l s)
             /\ solutionAttempts (counters (fold_left visit l s))
                = (iterationCount (counters (fold_left visit l s))
                   + if currentProblem (fold_left visit l s)
                     then attempts (fold_left visit l s) else 0)%nat).
  { induction l as [|x l IH]; intros s H1 H2; [auto|].
    cbn [fold_left]. destruct (visit_counts_attempts s x H1 H2) as [K1 K2].
    apply (IH _ K1 K2). }
  destruct (H (m :: ms) start) as [H1 H2]; [reflexivity|reflexivity|].
  unfold sequential in H1. cbn [fold_left] in *.
  destruct (currentProblem _); lia.
Qed.

Lemma recognised_conversation_is_one_episode :
  exists p,
    analyzeProblemSolving recognised_conversation = Some p
    /\ (successfulResolution p <= problemIdentification p
        <= successfulResolution p + 1)%nat
    /\ (iterationCount p <= solutionAttempts p)%nat
    /\ (problemIdentification p = successfulResolution p ->
        iterationCount p = solutionAttempts p).
Proof.
  eexists. split; [vm_compute; reflexivity|].
  apply (attempts_are_counted_per_episode recognised_conversation).
  vm_compute. reflexivity.
Defined.

End EpisodeFacts.

(** ** Recurring themes *)

Module RecurringThemeFacts.
Import Js Dict ConversationAnalyzer RecurringThemes JsFacts KeywordFacts ListFacts.

Lemma themes_nodup : NoDup themes.
Proof. apply (bool_decide_eq_true_1 (NoDup themes)). vm_compute. reflexivity. Qed.

Lemma tick_own (c : jsstring) (m : dict) (th t : jsstring) :
  own (tick c m th) t
  = if bool_decide (t = th) && includes c th
    then Some (default 0%nat (own m t) + 1)%nat else own m t.
Proof.
  unfold tick. destruct (includes c th).
  - rewrite own_put. case_bool_decide as E; [subst|]; reflexivity.
  - rewrite andb_false_r. reflexivity.
Qed.

Lemma tick_keys (c : jsstring) (m : dict (V := nat)) (th : jsstring) :
  NoDup (List.map fst m) ->
  NoDup (List.map fst (tick c m th)).
Proof. intros H. unfold tick. destruct (includes c th); [apply put_nodup|]; exact H. Qed.

Lemma ticks_own (c : jsstring) (ths : list jsstring) :
  NoDup ths ->
  forall (m : dict) (t : jsstring),
    own (fold_left (tick c) ths m) t
    = if bool_decide (t ∈ ths) && includes c t
      then Some (default 0%nat (own m t) + 1)%nat else own m t.
Proof.
  induction 1 as [|th ths Hth Hnd IH]; intros m t; [reflexivity|].
  cbn [fold_left]. rewrite IH, tick_own.
  destruct (decide (t = th)) as [->|Hne].
  - rewrite (bool_decide_eq_false_2 (th ∈ ths)) by exact Hth.
    rewrite (bool_decide_eq_true_2 (th ∈ th :: ths)) by apply list_elem_of_here.
    rewrite (bool_decide_eq_true_2 (th = th)) by reflexivity. reflexivity.
  - rewrite (bool_decide_eq_false_2 (t = th)) by exact Hne. cbn [andb].
    rewrite (bool_decide_ext (t ∈ th :: ths) (t ∈ ths)); [reflexivity|].
    rewrite elem_of_cons. tauto.
Qed.

Lemma ticks_keys (c : jsstring) (ths : list jsstring) (m : dict (V := nat)) :
  NoDup (List.map fst m) ->
  NoDup (List.map fst (fold_left (tick c) ths m)).
Proof.
  revert m. induction ths as [|th ths IH]; intros m H; [exact H|].
  cbn [fold_left]. apply IH, tick_keys, H.
Qed.

Lemma counted_themes (messages : list message) :
  forall (m : dict) (t : jsstring),
    NoDup (List.map fst m) ->
    own (fold_left count_message messages m) t
    = match (if bool_decide (t ∈ themes) then mentions t messages else 0%nat)
      with
      | O => own m t
      | S n => Some (default 0%nat (own m t) + S n)%nat
      end
    /\ NoDup (List.map fst (fold_left count_message messages m)).
Proof.
  induction messages as [|msg messages IH]; intros m t Hm.
  - cbn [fold_left mentions List.filter length].
    destruct (bool_decide (t ∈ themes)); auto.
  - cbn [fold_left].
    destruct (IH (count_message m msg) t) as [H1 H2];
      [apply ticks_keys, Hm|].
    split; [|exact H2]. rewrite H1. unfold count_message.
    rewrite (ticks_own _ themes themes_nodup). unfold mentions.
    cbn [List.filter].
    destruct (bool_decide (t ∈ themes)); cbn [andb]; [|reflexivity].
    destruct (includes (toLowerCase (content_of msg)) t); cbn [length].
    + destruct (length _); simpl; f_equal; lia.
    + reflexivity.
Qed.

Lemma theme_counts (messages : list message) (t : jsstring) (n : nat) :
  (t, n) ∈ fold_left count_message messages []
  <-> t ∈ themes /\ n = mentions t messages /\ (1 <= n)%nat.
Proof.
  destruct (counted_themes messages [] t) as [H1 H2]; [constructor|].
  rewrite <- (own_in _ _ _ H2), H1. cbn [own default].
  case_bool_decide as Ht.
  - destruct (mentions t messages) as [|k]; split.
    + discriminate.
    + intros (_ & -> & H). lia.
    + intros [= <-]. split; [exact Ht|]. split; lia.
    + intros (_ & -> & _). f_equal.
  - split; [discriminate|]. intros [H _]. contradiction.
Qed.

(** X27. [findRecurringThemes] returns the five most mentioned themes: at
    most five entries, by descending count, no theme twice; the count of
    a theme is the number of messages that mention it; and a mentioned
    theme that is left out is mentioned no more often than any of the
    five that are returned. *)
Theorem recurring_themes_are_the_most_mentioned (messages : list message) :
  let r := findRecurringThemes messages in
  (length r <= 5)%nat
  /\ StronglySorted (fun a b => (count b <= count a)%nat) r
  /\ NoDup (List.map theme r)
  /\ Forall (fun t => theme t ∈ themes
                      /\ count t = mentions (theme t) messages
                      /\ (1 <= count t)%nat) r
  /\ forall th, th ∈ themes -> (1 <= mentions th messages)%nat ->
                th ∉ List.map theme r ->
                length r = 5%nat
                /\ Forall (fun t => (mentions th messages <= count t)%nat) r.
Proof.
  intros r. subst r. unfold findRecurringThemes.
  set (m := fold_left count_message messages []).
  set (s := sort (fun a b => (snd a <? snd b)%nat) m).
  assert (Hperm : Permutation s m) by apply sort_permutation.
  assert (Hsorted : StronglySorted (descending (fun e : jsstring * nat =>
                                                  Z.of_nat (snd e))) s).
  { apply sort_descending. intros a b.
    destruct (Nat.ltb_spec (snd a) (snd b)), (Z.ltb_spec (Z.of_nat (snd a))
                                                (Z.of_nat (snd b)));
      try reflexivity; lia. }
  assert (Hkeys : NoDup (List.map fst s)).
  { rewrite (Permutation_map fst Hperm).
    apply (counted_themes messages [] []). constructor. }
  rewrite <- (firstn_skipn 5 s) in Hsorted, Hkeys.
  apply sorted_app_apart in Hsorted as [Hs1 Hs2].
  rewrite List.map_app in Hkeys. apply NoDup_app in Hkeys as (Hk1 & _ & _).
  split; [rewrite length_map, length_firstn; lia|].
  split; [|split; [|split]].
  - clear -Hs1. induction Hs1 as [|e l _ IH He]; cbn [List.map]; constructor;
      [exact IH|].
    rewrite List.Forall_map. eapply Forall_impl; [exact He|].
    unfold descending. cbn [count snd]. intros; lia.
  - rewrite List.map_map. cbn [theme]. exact Hk1.
  - rewrite List.Forall_map, List.Forall_forall. intros [t n] Hin.
    cbn [theme count fst snd]. apply theme_counts. fold m.
    rewrite <- Hperm. apply list_elem_of_In.
    rewrite <- (firstn_skipn 5 s). apply in_or_app. left. exact Hin.
  - intros th Hth Hpos Hout.
    assert (Hin : (th, mentions th messages) ∈ s).
    { rewrite Hperm. apply theme_counts. auto. }
    rewrite <- (firstn_skipn 5 s) in Hin. apply elem_of_app in Hin as [Hin|Hin].
    + exfalso. apply Hout. rewrite List.map_map. cbn [theme].
      apply list_elem_of_fmap. exists (th, mentions th messages). auto.
    + split.
      * rewrite length_map, length_firstn.
        assert (5 < length s)%nat; [|lia].
        destruct (Nat.lt_ge_cases 5 (length s)) as [H|H]; [exact H|].
        rewrite skipn_all2 in Hin by exact H. inversion Hin.
      * rewrite List.Forall_map, List.Forall_forall. intros e He.
        cbn [count]. apply list_elem_of_In in He.
        specialize (Hs2 e _ He Hin). unfold descending in Hs2.
        cbn [snd] in Hs2. lia.
Qed.

End RecurringThemeFacts.

(** ** Durations *)

Module DurationFacts.
Import Js Durations ListFacts.

(** X28. A duration that is not negative is shown to the second: the seconds
    are below 60, and minutes and seconds together are the duration
    rounded down to a whole second. *)
Theorem duration_is_shown_to_the_second (ms : Z) :
  0 <= ms ->
  exists m s : nat,
    formatDuration ms
    = of_nat_string m ++ lit "m " ++ of_nat_string s ++ lit "s"
    /\ (s < 60)%nat
    /\ 60000 * Z.of_nat m + 1000 * Z.of_nat s <= ms
       < 60000 * Z.of_nat m + 1000 * Z.of_nat s + 1000.
Proof.
  intros H. exists (Z.to_nat (minutes_of ms)), (Z.to_nat (seconds_of ms)).
  unfold formatDuration, of_Z_string, minutes_of, seconds_of.
  rewrite Z.rem_mod_nonneg by lia.
  pose proof (Z.mod_pos_bound ms 60000 ltac:(lia)) as Hmod.
  pose proof (Z.div_mod ms 60000 ltac:(lia)) as Hdiv.
  pose proof (Z.div_pos ms 60000 H ltac:(lia)) as Hq.
  pose proof (Z.div_mod (ms mod 60000) 1000 ltac:(lia)) as Hdiv'.
  pose proof (Z.mod_pos_bound (ms mod 60000) 1000 ltac:(lia)) as Hmod'.
  assert (0 <= ms mod 60000 / 1000 < 60) as Hs
      by (split; [apply Z.div_pos; lia|apply Z.div_lt_upper_bound; lia]).
  replace (ms / 60000 <? 0) with false by (symmetry; apply Z.ltb_ge; lia).
  replace (ms mod 60000 / 1000 <? 0) with false
    by (symmetry; apply Z.ltb_ge; lia).
  split; [reflexivity|]. split; [lia|]. rewrite !Z2Nat.id by lia. lia.
Qed.

Lemma ninety_one_seconds :
  0 <= 91500
  /\ exists m s : nat,
       formatDuration 91500
       = of_nat_string m ++ lit "m " ++ of_nat_string s ++ lit "s"
       /\ (s < 60)%nat
       /\ 60000 * Z.of_nat m + 1000 * Z.of_nat s <= 91500
          < 60000 * Z.of_nat m + 1000 * Z.of_nat s + 1000.
Proof.
  split; [lia|]. apply (duration_is_shown_to_the_second 91500). lia.
Defined.

(** X29. A negative duration (an end before the start) that is not a whole
    number of minutes is shown with a negative number of minutes and a
    negative number of seconds which together overstate it by a minute
    or more: the floor rounds the minutes down while [%] keeps the sign
    of the remainder. *)
Theorem negative_duration_is_overstated (ms : Z) :
  ms < 0 ->
  Z.rem ms 60000 <> 0 ->
  exists m s : nat,
    formatDuration ms
    = lit "-" ++ of_nat_string m ++ lit "m " ++ lit "-" ++ of_nat_string s
      ++ lit "s"
    /\ (1 <= m)%nat /\ (1 <= s <= 60)%nat
    /\ - (60000 * Z.of_nat m + 1000 * Z.of_nat s) <= ms - 60000.
Proof.
  intros H Hrem.
  exists (Z.abs_nat (minutes_of ms)), (Z.abs_nat (seconds_of ms)).
  unfold formatDuration, of_Z_string, minutes_of, seconds_of.
  assert (Hr : Z.rem ms 60000 = - ((- ms) mod 60000)).
  { rewrite <- (Z.opp_involutive ms) at 1.
    rewrite Z.rem_opp_l', Z.rem_mod_nonneg by lia. reflexivity. }
  rewrite Hr in *.
  pose proof (Z.mod_pos_bound (- ms) 60000 ltac:(lia)) as Hmod.
  pose proof (Z.div_mod (- ms) 60000 ltac:(lia)) as Hdiv.
  set (r := (- ms) mod 60000) in *. set (q := (- ms) / 60000) in *.
  assert (Hq : ms / 60000 = - q - 1).
  { symmetry. apply (Z.div_unique ms 60000 (- q - 1) (60000 - r)); lia. }
  pose proof (Z.div_mod (- r) 1000 ltac:(lia)) as Hdiv'.
  pose proof (Z.mod_pos_bound (- r) 1000 ltac:(lia)) as Hmod'.
  assert (Hqpos : 0 <= q) by (apply Z.div_pos; lia).
  assert (Hs : -60 <= - r / 1000 < 0).
  { split; [apply Z.div_le_lower_bound; lia|apply Z.div_lt_upper_bound; lia]. }
  rewrite Hq.
  replace (- q - 1 <? 0) with true by (symmetry; apply Z.ltb_lt; lia).
  replace (- r / 1000 <? 0) with true by (symmetry; apply Z.ltb_lt; lia).
  split; [rewrite <- !app_assoc; reflexivity|].
  split; [lia|]. split; [lia|].
  rewrite !Zabs2Nat.id_abs, !Z.abs_neq by lia. lia.
Qed.

Lemma half_a_minute_early :
  -30000 < 0
  /\ Z.rem (-30000) 60000 <> 0
  /\ exists m s : nat,
       formatDuration (-30000)
       = lit "-" ++ of_nat_string m ++ lit "m " ++ lit "-" ++ of_nat_string s
         ++ lit "s"
       /\ (1 <= m)%nat /\ (1 <= s <= 60)%nat
       /\ - (60000 * Z.of_nat m + 1000 * Z.of_nat s) <= -30000 - 60000.
Proof.
  split; [lia|]. split; [discriminate|].
  apply (negative_duration_is_overstated (-30000)); [lia|discriminate].
Defined.

End DurationFacts.

(** ** The topics of the worker *)

Module TopicFacts.
Import Js Dict Worker WorkerTopics JsFacts KeywordFacts ListFacts.

Lemma runs_are_words (s : jsstring) :
  forall cur,
    forallb is_word_char cur = true ->
    Forall (fun w => forallb is_word_char w = true) (runs_go cur s).
Proof.
  induction s as [|c s IH]; intros cur Hcur; cbn [runs_go].
  - constructor; [|constructor]. rewrite forallb_reversed. exact Hcur.
  - destruct (is_word_char c) eqn:E.
    + apply IH. cbn [forallb]. rewrite E, Hcur. reflexivity.
    + constructor; [rewrite forallb_reversed; exact Hcur|]. apply IH. reflexivity.
Qed.

(** Every run stands in the text between two word boundaries. *)
Lemma runs_are_bounded (s : jsstring) :
  forall cur w,
    In w (runs_go cur s) ->
    exists pre post,
      rev cur ++ s = pre ++ w ++ post
      /\ boundary_before pre = true
      /\ boundary_after post = true.
Proof.
  induction s as [|c s IH]; intros cur w Hw; cbn [runs_go] in Hw.
  - destruct Hw as [<-|[]]. exists [], []. rewrite !app_nil_r. auto.
  - destruct (is_word_char c) eqn:E.
    + destruct (IH (c :: cur) w Hw) as (pre & post & H1 & H2 & H3).
      exists pre, post. cbn [rev] in H1. rewrite <- app_assoc in H1. auto.
    + destruct Hw as [<-|Hw].
      * exists [], (c :: s). cbn [boundary_after app]. rewrite E. auto.
      * destruct (IH [] w Hw) as (pre & post & H1 & H2 & H3).
        cbn [rev app] in H1. exists (rev cur ++ c :: pre), post.
        split; [rewrite H1, <- !app_assoc; reflexivity|]. split; [|exact H3].
        unfold boundary_before in *. rewrite rev_app_distr. cbn [rev].
        destruct (rev pre) as [|x r]; cbn [app]; [rewrite E; reflexivity|].
        exact H2.
Qed.

Lemma matched_words (text w : jsstring) :
  w ∈ match_words text -> whole_word text w.
Proof.
  unfold match_words. intros H. apply list_elem_of_In, List.filter_In in H.
  destruct H as [H1 H2]. split; [apply Nat.leb_le, H2|]. split.
  - pose proof (runs_are_words text [] eq_refl) as Hall.
    rewrite List.Forall_forall in Hall. apply Hall, H1.
  - apply (runs_are_bounded text [] w H1).
Qed.

Lemma counted_keys (words : list jsstring) :
  forall o : dict (V := count),
    NoDup (List.map fst o) ->
    NoDup (List.map fst (fold_left count_word words o))
    /\ forall k, k ∈ List.map fst (fold_left count_word words o) ->
                 k ∈ List.map fst o \/ k ∈ words.
Proof.
  induction words as [|w words IH]; intros o Ho; cbn [fold_left]; [auto|].
  assert (H : NoDup (List.map fst (count_word o w))
              /\ forall k, k ∈ List.map fst (count_word o w) ->
                           k ∈ List.map fst o \/ k = w).
  { unfold count_word, set. case_bool_decide as E; [auto|].
    split; [apply put_nodup, Ho|]. intros k. rewrite put_keys.
    case_bool_decide; [auto|]. rewrite elem_of_app, list_elem_of_singleton.
    tauto. }
  destruct H as [H1 H2]. destruct (IH _ H1) as [K1 K2]. split; [exact K1|].
  intros k Hk. destruct (K2 k Hk) as [Hk'|Hk'].
  - destruct (H2 k Hk') as [Hl|Hr]; [auto|]. subst k. right.
    apply list_elem_of_here.
  - right. apply list_elem_of_further, Hk'.
Qed.

(** The entries of the counts of clean words: every word with the
    number of its occurrences. *)
Lemma counted_entries (words : list jsstring) (w : jsstring) (v : count) :
  Forall (fun x => inherited x = false) words ->
  (w, v) ∈ fold_left count_word words []
  <-> w ∈ words /\ v = Count (occurrences w words).
Proof.
  intros Hclean.
  destruct (counted_keys words [] (NoDup_nil_2)) as [Hnd _].
  rewrite <- (own_in _ _ _ Hnd), (count_words_own words [] w Hclean).
  cbn [own]. unfold occurrences.
  destruct (List.filter (fun x => bool_decide (x = w)) words) as [|x l] eqn:F.
  - cbn [length counted]. split; [discriminate|]. intros [Hw _]. exfalso.
    assert (Hin : In w (List.filter (fun x => bool_decide (x = w)) words)).
    { apply List.filter_In. split; [apply list_elem_of_In, Hw|].
      apply bool_decide_eq_true_2. reflexivity. }
    rewrite F in Hin. destruct Hin.
  - cbn [length counted]. split.
    + intros [= <-]. split; [|reflexivity].
      assert (Hin : In x (List.filter (fun x => bool_decide (x = w)) words))
        by (rewrite F; left; reflexivity).
      apply List.filter_In in Hin as [Hin Hx].
      apply bool_decide_eq_true_1 in Hx. subst x. apply list_elem_of_In, Hin.
    + intros [_ ->]. reflexivity.
Qed.

Lemma sorted_map_in {A B : Type} (R : A -> A -> Prop) (R' : B -> B -> Prop)
    (f : A -> B) (l : list A) :
  (forall a b, In a l -> In b l -> R a b -> R' (f a) (f b)) ->
  StronglySorted R l -> StronglySorted R' (List.map f l).
Proof.
  intros H Hs. induction Hs as [|x l Hs IH Hx]; cbn [List.map]; constructor.
  - apply IH. intros a b Ha Hb. apply H; right; assumption.
  - rewrite List.Forall_map, List.Forall_forall. intros y Hy.
    rewrite List.Forall_forall in Hx.
    apply H; [left; reflexivity|right; exact Hy|apply Hx, Hy].
Qed.

(** X30. The topics of [analyzeConversation] are at most five words of the
    conversation, all different: each is a match of [/\b\w{4,}\b/] in
    the lower-cased text of the messages, four or more letters, digits
    or underscores between two word boundaries. When none of the words
    of the text is a name that objects inherit ('constructor',
    '__proto__'), the topics are the most frequent words: they stand by
    descending number of occurrences, and a word that is left out
    occurs no more often than any of the five topics. The complexity
    never exceeds 10, and no participant is listed twice. *)
Theorem topics_are_five_words_at_most (e : environment)
    (conversation : payload) :
  let a := analyzeConversation e conversation in
  let words := match_words (content_text conversation) in
  (length (analysis_topics a) <= 5)%nat
  /\ NoDup (analysis_topics a)
  /\ Forall (fun t => t ∈ words /\ whole_word (content_text conversation) t)
            (analysis_topics a)
  /\ (Forall (fun w => inherited w = false) words ->
      StronglySorted (fun t u => (occurrences u words <= occurrences t words)%nat)
                     (analysis_topics a)
      /\ forall w, w ∈ words -> w ∉ analysis_topics a ->
                   length (analysis_topics a) = 5%nat
                   /\ Forall (fun t => (occurrences w words
                                        <= occurrences t words)%nat)
                             (analysis_topics a))
  /\ (complexity a <= 10)%nat
  /\ NoDup (participants a)
  /\ analysis_messageCount a = length (default [] (messages conversation)).
Proof.
  intros a words. subst a words. unfold analyzeConversation, content_text.
  destruct (messages conversation) as [ms|];
    cbn [analysis_topics complexity participants analysis_messageCount length
         default].
  2:{ split; [lia|]. split; [constructor|]. split; [constructor|].
      split; [|repeat split; try constructor; lia].
      intros _. split; [constructor|]. intros w Hw. vm_compute in Hw.
      inversion Hw. }
  set (text := toLowerCase _). set (words := match_words text).
  set (o := fold_left count_word words []).
  destruct (counted_keys words [] (NoDup_nil_2)) as [H1 H2].
  fold o in H1, H2.
  set (s := sort fewer (entries o)).
  assert (Hperm : Permutation s o).
  { subst s. rewrite sort_permutation. apply entries_permutation. }
  split; [rewrite length_map, length_firstn; lia|].
  split; [|split; [|split; [|split; [|split]]]].
  - rewrite <- List.firstn_map. apply firstn_nodup.
    rewrite (Permutation_map fst Hperm). exact H1.
  - rewrite <- List.firstn_map. apply List.Forall_forall. intros t Ht.
    apply list_elem_of_In in Ht. apply firstn_elem_of in Ht.
    rewrite (Permutation_map fst Hperm) in Ht.
    destruct (H2 t Ht) as [H|H]; [inversion H|].
    split; [exact H|]. apply matched_words, H.
  - intros Hclean.
    set (weight := fun e : jsstring * count =>
                     match snd e with
                     | Count n => Z.of_nat n
                     | CountText => 0
                     end).
    assert (Hs : forall x, x ∈ s <-> fst x ∈ words
                                     /\ snd x = Count (occurrences (fst x) words)).
    { intros [w v]. rewrite Hperm. apply counted_entries, Hclean. }
    assert (Hsorted : StronglySorted (descending weight) s).
    { subst s.
      rewrite (sort_ext_in fewer (fun a b => weight a <? weight b)).
      - apply sort_descending. reflexivity.
      - intros x y Hx Hy.
        assert (Hx' : x ∈ sort fewer (entries o)).
        { rewrite sort_permutation. apply list_elem_of_In, Hx. }
        assert (Hy' : y ∈ sort fewer (entries o)).
        { rewrite sort_permutation. apply list_elem_of_In, Hy. }
        apply Hs in Hx' as [_ Hx'], Hy' as [_ Hy'].
        unfold fewer, weight. rewrite Hx', Hy'.
        destruct (Nat.ltb_spec (occurrences (fst x) words)
                               (occurrences (fst y) words)),
          (Z.ltb_spec (Z.of_nat (occurrences (fst x) words))
                      (Z.of_nat (occurrences (fst y) words)));
          try reflexivity; lia. }
    assert (Hw : forall x, x ∈ s ->
                           weight x = Z.of_nat (occurrences (fst x) words)).
    { intros x Hx. apply Hs in Hx as [_ Hx]. unfold weight. rewrite Hx.
      reflexivity. }
    rewrite <- (firstn_skipn 5 s) in Hsorted.
    apply sorted_app_apart in Hsorted as [Hs1 Hs2]. split.
    + eapply sorted_map_in; [|exact Hs1]. intros x y Hx Hy Hxy.
      unfold descending in Hxy.
      rewrite !Hw in Hxy
        by (eapply firstn_elem_of; apply list_elem_of_In; eassumption).
      lia.
    + intros w Hin Hout.
      assert (Hws : (w, Count (occurrences w words)) ∈ s)
        by (apply Hs; cbn [fst snd]; auto).
      rewrite <- (firstn_skipn 5 s) in Hws.
      apply elem_of_app in Hws as [Hws|Hws].
      * exfalso. apply Hout. apply list_elem_of_fmap.
        exists (w, Count (occurrences w words)). auto.
      * split.
        -- rewrite length_map, length_firstn.
           assert (5 < length s)%nat; [|lia].
           destruct (Nat.lt_ge_cases 5 (length s)) as [H|H]; [exact H|].
           rewrite skipn_all2 in Hws by exact H. inversion Hws.
        -- rewrite List.Forall_map, List.Forall_forall. intros x Hx.
           apply list_elem_of_In in Hx. specialize (Hs2 x _ Hx Hws).
           unfold descending in Hs2. rewrite (Hw x) in Hs2
             by (eapply firstn_elem_of; exact Hx).
           rewrite (Hw (w, Count (occurrences w words))) in Hs2
             by (rewrite <- (firstn_skipn 5 s); apply elem_of_app; auto).
           cbn [fst] in Hs2. lia.
  - lia.
  - apply new_Set_spec.
  - reflexivity.
Qed.

(** The topics of a short exchange: "deploy" and "script" occur twice,
    the words that occur once follow in their order in the text. *)
Lemma deploy_topics :
  analysis_topics (analyzeConversation first_run deploy_payload)
  = [lit "deploy"; lit "script"; lit "failed"; lit "again"].
Proof. vm_compute. reflexivity. Qed.

Lemma deploy_topics_are_ranked :
  Forall (fun w => inherited w = false)
         (match_words (content_text deploy_payload))
  /\ StronglySorted
       (fun t u =>
          (occurrences u (match_words (content_text deploy_payload))
           <= occurrences t (match_words (content_text deploy_payload)))%nat)
       (analysis_topics (analyzeConversation first_run deploy_payload)).
Proof.
  assert (H : Forall (fun w => inherited w = false)
                     (match_words (content_text deploy_payload)))
    by (vm_compute; repeat constructor).
  split; [exact H|].
  exact (proj1 (proj1 (proj2 (proj2 (proj2
           (topics_are_five_words_at_most first_run deploy_payload)))) H)).
Defined.

End TopicFacts.
